(** * Checkpoint directory management of [python/paddle/fluid/io.py]

    A shallow embedding of the checkpoint functions of Paddle's [fluid.io]
    module (Python 2) and the proofs of their properties.

    The file system is a finite map from absolute paths to nodes, the
    functions of the module are written in a state-and-exception monad over
    a [world] (file system, variable scope, system-call trace), and the
    properties are proved with a small weakest-precondition calculus. *)

From Stdlib Require Import ZArith Decimal DecimalString DecimalZ Ascii.
From stdpp Require Import gmap strings list sorting.

Local Open Scope Z_scope.

(* ===================================================================== *)
(** * Python strings and integers *)
(* ===================================================================== *)

Module Py.

(** [s.split(sep)] for a one-character separator: the pieces between the
    occurrences of [sep]; there is always at least one piece. *)
Fixpoint split (sep : ascii) (s : string) : list string :=
  match s with
  | EmptyString => [EmptyString]
  | String c s' =>
      if Ascii.eqb c sep then EmptyString :: split sep s'
      else match split sep s' with
           | h :: t => String c h :: t
           | [] => [String c EmptyString]
           end
  end.

(** [sub in s]: substring test. *)
Fixpoint contains (sub s : string) : bool :=
  String.prefix sub s ||
  match s with
  | EmptyString => false
  | String _ s' => contains sub s'
  end.

(** White space is skipped by [int] on both sides of the literal. *)
Fixpoint lstrip (s : string) : string :=
  match s with
  | EmptyString => EmptyString
  | String c s' => if Ascii.is_space c then lstrip s' else s
  end.

Fixpoint rstrip (s : string) : string :=
  match s with
  | EmptyString => EmptyString
  | String c s' =>
      match rstrip s' with
      | EmptyString => if Ascii.is_space c then EmptyString else String c EmptyString
      | r => String c r
      end
  end.

Definition strip (s : string) : string := rstrip (lstrip s).

(** One or more decimal digits. *)
Definition digits (s : string) : option Z :=
  match s with
  | EmptyString => None
  | _ => Z.of_uint <$> NilEmpty.uint_of_string s
  end.

(** [int(s)] on a byte string, base 10: optional white space, an optional
    sign, one or more digits, optional white space.  [None] stands for the
    [ValueError] that [int] raises on anything else.  Python 2 promotes to
    [long] on overflow, so the value is an unbounded integer. *)
Definition int (s : string) : option Z :=
  match strip s with
  | String "-"%char r => Z.opp <$> digits r
  | String "+"%char r => digits r
  | t => digits t
  end.

(** [str(n)] on an integer. *)
Definition str (n : Z) : string := NilZero.string_of_int (Z.to_int n).

(** Slicing [l[k:]], with Python's meaning of a negative start. *)
Definition slice_from {A} (k : Z) (l : list A) : list A :=
  if decide (0 <= k) then drop (Z.to_nat k) l
  else drop (Z.to_nat (Z.of_nat (length l) + k)) l.

End Py.

(* ===================================================================== *)
(** * The file system and the world *)
(* ===================================================================== *)

(** An absolute path, given by its components below the root directory [/].
    For a name that is a single component, [os.path.join dirname name] is
    [dirname ++ [name]]; that is so for the names the module makes itself
    ([checkpoint_<n>], [trainer_<n>], [__model__], [_SUCCESS]).  The names
    that a caller chooses are joined by [joined] below. *)
Definition path := list string.

(** The file system holds directories and regular files; it has no links,
    no permissions and no limit on space or on the length of a name. *)
Inductive node :=
| Dir
| File (content : string).

Global Instance node_eq_dec : EqDecision node.
Proof. solve_decision. Defined.

(** The mutating system calls.  [open(p, 'w')] with the write and the close
    is one step, and so are [open(p, 'a')] and [shutil.rmtree]. *)
Inductive syscall :=
| Mkdir (p : path)
| Write (p : path) (data : string)
| Append (p : path) (data : string)
| Rmtree (p : path)
| Rmdir (p : path).

Global Instance syscall_eq_dec : EqDecision syscall.
Proof. solve_decision. Defined.

Definition old_content (fs : gmap path node) (p : path) : string :=
  match fs !! p with
  | Some (File c) => c
  | _ => EmptyString
  end.

Definition apply_syscall (c : syscall) (fs : gmap path node) : gmap path node :=
  match c with
  | Mkdir p => <[p := Dir]> fs
  | Write p data => <[p := File data]> fs
  | Append p data => <[p := File (old_content fs p +:+ data)]> fs
  | Rmtree p => filter (λ kv, ¬ p `prefix_of` kv.1) fs
  | Rmdir p => delete p fs
  end.

(** The exceptions these functions can end in.  [EnforceNotMet] is the
    executor's error; [KeyboardInterrupt] is the process being stopped. *)
Inductive exn :=
| ValueError
| OSError
| IOError
| AssertionError
| TypeError
| EnforceNotMet
| KeyboardInterrupt.

Global Instance exn_eq_dec : EqDecision exn.
Proof. solve_decision. Defined.

Inductive result (A : Type) :=
| Ok (a : A)
| Raise (e : exn).
Arguments Ok {A} a.
Arguments Raise {A} e.

(** [core.VarDesc.VarType]: the three kinds the checkpoint filter names, and
    the remaining kinds of the framework. *)
Inductive VarType :=
| LOD_TENSOR
| SELECTED_ROWS
| FEED_MINIBATCH
| FETCH_LIST
| STEP_SCOPES
| LOD_RANK_TABLE
| LOD_TENSOR_ARRAY
| PLACE_LIST
| READER
| CHANNEL
| RAW.

Global Instance VarType_eq_dec : EqDecision VarType.
Proof. solve_decision. Defined.

(** A framework variable ([Variable] in the source): its name, the type of
    its [desc] and its [persistable] flag. *)
Record Var := {
  name : string;
  type : VarType;
  persistable : bool
}.

(** A [Program], as the list that [list_vars()] yields. *)
Definition Program := list Var.

(** [os.listdir] returns the entries in arbitrary order: any rearrangement
    of the names. *)
Record dir_order := {
  reorder : list string → list string;
  reorder_perm : ∀ l, reorder l ≡ₚ l
}.

Definition sorted_order : dir_order :=
  {| reorder := λ l, l; reorder_perm := λ l, reflexivity l |}.

(** What the functions read but never change. *)
Record env := {
  default_main_program : Program;
  listdir_order : dir_order;
  ctime : string
}.

(** The state the functions run in: the file system (the root directory
    always exists and is not in the map), the values of the executor's
    scope, the system calls made so far, and how many more system calls
    happen before the process is stopped ([None]: it is not stopped). *)
Record world := {
  files : gmap path node;
  scope : gmap string string;
  trace : list syscall;
  budget : option nat;
  environ : env
}.

Definition M (A : Type) : Type := world → result A * world.

Definition ret {A} (a : A) : M A := λ w, (Ok a, w).
Definition bind {A B} (f : A → M B) (m : M A) : M B := λ w,
  match m w with
  | (Ok a, w') => f a w'
  | (Raise e, w') => (Raise e, w')
  end.

Global Instance M_ret : MRet M := @ret.
Global Instance M_bind : MBind M := @bind.

Definition raise {A} (e : exn) : M A := λ w, (Raise e, w).
Definition gets {A} (f : world → A) : M A := λ w, (Ok (f w), w).

(** [for x in l: body x] *)
Fixpoint for_each {A} (l : list A) (body : A → M unit) : M unit :=
  match l with
  | [] => ret tt
  | x :: l' => body x;; for_each l' body
  end.

(** A loop that carries the variables it assigns. *)
Fixpoint for_fold {A S} (l : list A) (body : S → A → M S) (s : S) : M S :=
  match l with
  | [] => ret s
  | x :: l' => s' ← body s x; for_fold l' body s'
  end.

(** ** System calls *)

(** The world after a system call. *)
Definition do (c : syscall) (w : world) : world :=
  {| files := apply_syscall c (files w);
     scope := scope w;
     trace := trace w ++ [c];
     budget := Nat.pred <$> budget w;
     environ := environ w |}.

(** A mutating system call: the process may be stopped before it. *)
Definition sys (c : syscall) : M unit := λ w,
  match budget w with
  | Some O => (Raise KeyboardInterrupt, w)
  | _ => (Ok tt, do c w)
  end.

Definition node_at (fs : gmap path node) (p : path) : option node :=
  match p with
  | [] => Some Dir
  | _ => fs !! p
  end.

Definition is_dir (fs : gmap path node) (p : path) : bool :=
  bool_decide (node_at fs p = Some Dir).

Definition is_file (fs : gmap path node) (p : path) : bool :=
  match node_at fs p with
  | Some (File _) => true
  | _ => false
  end.

Definition exists_ (fs : gmap path node) (p : path) : bool :=
  bool_decide (is_Some (node_at fs p)).

Definition parent (p : path) : path := removelast p.

(** The name of [q] when it is an entry of directory [p]. *)
Fixpoint child_name (p q : path) : option string :=
  match p, q with
  | [], [n] => Some n
  | a :: p', b :: q' => if decide (a = b) then child_name p' q' else None
  | _, _ => None
  end.

Definition entries (fs : gmap path node) (p : path) : list string :=
  omap (λ kv, child_name p kv.1) (map_to_list fs).

Module os.

Definition isdir (p : path) : M bool := gets (λ w, is_dir (files w) p).
Definition isfile (p : path) : M bool := gets (λ w, is_file (files w) p).

Definition listdir (p : path) : M (list string) := λ w,
  if is_dir (files w) p
  then (Ok (reorder (listdir_order (environ w)) (entries (files w) p)), w)
  else (Raise OSError, w).

Definition mkdir (p : path) : M unit := λ w,
  if exists_ (files w) p then (Raise OSError, w)
  else if is_dir (files w) (parent p) then sys (Mkdir p) w
  else (Raise OSError, w).

(** [os.makedirs] first walks up to the deepest ancestor that exists, then
    makes the directories below it, the leaf last. [rp] is the path
    reversed. *)
Fixpoint missing_dirs (fs : gmap path node) (rp : list string) : list path :=
  match rp with
  | [] => [[]]
  | n :: rparent =>
      (match rparent with
       | [] => []
       | _ => if exists_ fs (rev rparent) then [] else missing_dirs fs rparent
       end) ++ [rev rp]
  end.

Definition makedirs (p : path) : M unit := λ w,
  for_each (missing_dirs (files w) (rev p)) mkdir w.

Definition rmdir (p : path) : M unit := λ w,
  match p with
  | [] => (Raise OSError, w)
  | _ =>
      if is_dir (files w) p && bool_decide (entries (files w) p = [])
      then sys (Rmdir p) w
      else (Raise OSError, w)
  end.

End os.

Module shutil.

Definition rmtree (p : path) : M unit := λ w,
  if is_dir (files w) p then sys (Rmtree p) w else (Raise OSError, w).

End shutil.

(** [with open(p, 'w') as f: f.write(data)] *)
Definition write_file (p : path) (data : string) : M unit := λ w,
  if is_dir (files w) p then (Raise IOError, w)
  else if is_dir (files w) (parent p) then sys (Write p data) w
  else (Raise IOError, w).

(** [with open(p, 'a') as f: f.write(data)] *)
Definition append_file (p : path) (data : string) : M unit := λ w,
  if is_dir (files w) p then (Raise IOError, w)
  else if is_dir (files w) (parent p) then sys (Append p data) w
  else (Raise IOError, w).

(** ** Names chosen by the caller

    [os.path.join dirname name] is the string [dirname/name], and [name]
    alone when it starts with [/].  [open] hands it to the kernel, which
    follows the components from the directory it starts in: an empty
    component and [.] stay where they are, [..] goes to the parent (the root
    is its own parent), a name goes down, and every directory on the way has
    to exist. *)
Definition slash : ascii := "/"%char.
Definition nul : string := String "000"%char EmptyString.

(** A name that is one component of a path. *)
Definition plain (name : string) : bool :=
  negb (bool_decide (name = EmptyString ∨ name = "." ∨ name = ".."))
  && negb (Py.contains "/" name) && negb (Py.contains nul name).

Definition plain_args (items : list (string * string)) : bool :=
  forallb (λ item, plain item.1) items.

(** The directory that the components [cs] lead to from directory [d]. *)
Fixpoint walk (fs : gmap path node) (d : path) (cs : list string) : option path :=
  match cs with
  | [] => Some d
  | c :: cs' =>
      if negb (is_dir fs d) then None
      else if bool_decide (c = EmptyString ∨ c = ".") then walk fs d cs'
      else if bool_decide (c = "..") then walk fs (parent d) cs'
      else walk fs (d ++ [c]) cs'
  end.

(** The path of the file that [os.path.join dirname name] names.  There is
    none when a directory on the way is missing, and when the last component
    is empty (the name is empty or ends in [/]), [.] or [..], which name a
    directory. *)
Definition joined (fs : gmap path node) (dirname : path) (name : string) : option path :=
  let cs := Py.split slash name in
  let base := List.last cs EmptyString in
  match walk fs (if String.prefix "/" name then [] else dirname) (removelast cs) with
  | Some d =>
      if bool_decide (base = EmptyString ∨ base = "." ∨ base = "..") then None
      else Some (d ++ [base])
  | None => None
  end.

(** [with open(os.path.join(dirname, name), 'w') as f: f.write(data)].
    [open] refuses a name with a NUL character with [TypeError], before any
    system call. *)
Definition open_write (dirname : path) (name data : string) : M unit := λ w,
  if Py.contains nul name then (Raise TypeError, w)
  else match joined (files w) dirname name with
       | Some p => write_file p data w
       | None => (Raise IOError, w)
       end.

(* ===================================================================== *)
(** * The executor *)
(* ===================================================================== *)

(** The operators that [save_vars] and [load_vars] append to the program
    they hand to the executor, with the variable and the [file_path]
    attribute. *)
Inductive op :=
| save_op (x : string) (file_path : path)
| load_op (out : string) (file_path : path).

(** The world after the executor has given variable [x] the value [data]. *)
Definition set_var (x data : string) (w : world) : world :=
  {| files := files w;
     scope := <[x := data]> (scope w);
     trace := trace w;
     budget := budget w;
     environ := environ w |}.

(** Modelled from the spec: the executor capability [run(operationGraph)],
    whose operators are not part of this module.  It performs the tensor
    reads and writes in order: a save operator stores the value its variable
    has in the scope into the file, a load operator sets the variable to the
    content of the file; a variable without a value and a file that is
    missing make the executor fail. *)
Definition run_op (o : op) : M unit :=
  match o with
  | save_op x file_path =>
      v ← gets (λ w, scope w !! x);
      match v with
      | Some data => write_file file_path data
      | None => raise EnforceNotMet
      end
  | load_op out file_path =>
      n ← gets (λ w, node_at (files w) file_path);
      match n with
      | Some (File data) => λ w, (Ok tt, set_var out data w)
      | _ => raise EnforceNotMet
      end
  end.

Module executor.
Definition run (program : list op) : M unit := for_each program run_op.
End executor.

(* ===================================================================== *)
(** * The checkpoint functions of [fluid/io.py] *)
(* ===================================================================== *)

Definition SUCCESS_MARK_FILENAME : string := "_SUCCESS".
Definition CHECKPOINT_PREFIX : string := "checkpoint".
Definition MODEL_DIR : string := "__model__".
Definition TRAINER_PREFIX : string := "trainer".
Definition CHECKPOINT_SEPARATOR : string := "_".
(** The separator is one character; [split] takes it as such. *)
Definition separator_char : ascii := "_"%char.

(** [save_vars] with [filename=None], the only way the checkpoint functions
    call it: one [save] operator per variable that is not [RAW], into
    [dirname/<name>].  With [vars=None] the variables are those of the
    program that fit the predicate. *)
Definition save_vars (dirname : path) (main_program : option Program)
    (vars : option (list Var)) (predicate : Var → bool) : M unit :=
  vs ← match vars with
       | Some vs => ret vs
       | None =>
           prog ← match main_program with
                  | Some p => ret p
                  | None => gets (λ w, default_main_program (environ w))
                  end;
           ret (List.filter predicate prog)
       end;
  executor.run
    ((λ each_var, save_op (name each_var) (dirname ++ [name each_var]))
       <$> List.filter (λ each_var, negb (bool_decide (type each_var = RAW))) vs).

(** [load_vars] with [filename=None]. *)
Definition load_vars (dirname : path) (main_program : option Program)
    (vars : option (list Var)) (predicate : Var → bool) : M unit :=
  vs ← match vars with
       | Some vs => ret vs
       | None =>
           prog ← match main_program with
                  | Some p => ret p
                  | None => gets (λ w, default_main_program (environ w))
                  end;
           ret (List.filter predicate prog)
       end;
  executor.run
    ((λ each_var, load_op (name each_var) (dirname ++ [name each_var]))
       <$> List.filter (λ each_var, negb (bool_decide (type each_var = RAW))) vs).

Definition _is_checkpoint_var (var : Var) : bool :=
  if bool_decide (type var = FEED_MINIBATCH)
     || bool_decide (type var = FETCH_LIST)
     || bool_decide (type var = RAW)
  then false
  else if Py.contains "@GRAD" (name var) then false
  else if Py.contains ".trainer_" (name var) then false
  else if Py.contains ".block" (name var) then false
  else persistable var.

(** [_, serial = dirname.split(CHECKPOINT_SEPARATOR)] raises [ValueError]
    unless there are exactly two pieces; only [int(serial)] is inside the
    [try]. *)
Definition _get_dir_serial (dirname : string) : M Z :=
  match Py.split separator_char dirname with
  | [_; serial] =>
      match Py.int serial with
      | Some serial_num => ret serial_num
      | None => ret (-1)
      end
  | _ => raise ValueError
  end.

Definition serial_folder (serial : Z) : string :=
  CHECKPOINT_PREFIX +:+ CHECKPOINT_SEPARATOR +:+ Py.str serial.

Definition _get_serial_dir (dirname : path) (serial : Z) : M path :=
  let serial_dir := dirname ++ [serial_folder serial] in
  b ← os.isdir serial_dir;
  (if negb b then os.makedirs serial_dir else ret tt);;
  ret serial_dir.

Definition _get_model_dir (dirname : path) : M path :=
  let model_dir := dirname ++ [MODEL_DIR] in
  b ← os.isdir model_dir;
  (if negb b then os.makedirs model_dir else ret tt);;
  ret model_dir.

Definition trainer_folder (trainer_id : Z) : string :=
  TRAINER_PREFIX +:+ CHECKPOINT_SEPARATOR +:+ Py.str trainer_id.

Definition _get_trainer_dir (dirname : path) (trainer_id : Z) : M path :=
  let trainer_dir := dirname ++ [trainer_folder trainer_id] in
  b ← os.isdir trainer_dir;
  (if negb b then os.makedirs trainer_dir else ret tt);;
  ret trainer_dir.

Definition _write_success (dirname : path) : M unit :=
  let success_file := dirname ++ [SUCCESS_MARK_FILENAME] in
  now ← gets (λ w, ctime (environ w));
  append_file success_file now.

(** The keys of [serial_map], sorted with [reverse=True]. *)
Definition descending : relation Z := λ a b, b ≤ a.

Global Instance descending_dec : RelDecision descending.
Proof. intros a b. unfold descending. apply _. Defined.

Definition sorted_serials (serial_map : gmap Z string) : list Z :=
  merge_sort descending (map_to_list serial_map).*1.

Definition _scroll_delete (dirname : path) (max_num_checkpoints : Z) : M unit :=
  dirs ← os.listdir dirname;
  serial_map ← for_fold dirs
    (λ (serial_map : gmap Z string) serial,
       serial_num ← _get_dir_serial serial;
       ret (<[serial_num := serial]> serial_map)) ∅;
  if decide (Z.of_nat (size serial_map) ≤ max_num_checkpoints) then ret tt
  else
    let serials := Py.slice_from max_num_checkpoints (sorted_serials serial_map) in
    for_each serials
      (λ serial, cur_dir ← _get_serial_dir dirname serial; shutil.rmtree cur_dir).

(** The inner function of [get_latest_checkpoint_serial]; it returns [None]
    when it falls off its end. *)
Definition has_success (checkpoint_dir : path) (cur_dir : string) : M (option Z) :=
  serial ← _get_dir_serial cur_dir;
  d ← os.isdir (checkpoint_dir ++ [cur_dir]);
  if bool_decide (serial = -1) || negb d then ret (Some (-1))
  else
    serial_dir ← _get_serial_dir checkpoint_dir serial;
    let success_path := serial_dir ++ [MODEL_DIR; SUCCESS_MARK_FILENAME] in
    f ← os.isfile success_path;
    if (f : bool) then ret (Some serial) else ret None.

(** [success_num > current_dir] in Python 2, where [None] is smaller than
    every number. *)
Definition greater (success_num : option Z) (current_dir : Z) : bool :=
  match success_num with
  | Some n => bool_decide (current_dir < n)
  | None => false
  end.

(** [checkpoint_dir] is [None] for Python's [None]. *)
Definition get_latest_checkpoint_serial (checkpoint_dir : option path) : M Z :=
  match checkpoint_dir with
  | None => ret (-1)
  | Some checkpoint_dir =>
      b ← os.isdir checkpoint_dir;
      if negb b then ret (-1)
      else
        dirs ← os.listdir checkpoint_dir;
        for_fold dirs
          (λ current_dir cur_dir,
             success_num ← has_success checkpoint_dir cur_dir;
             ret (if greater success_num current_dir
                   then default current_dir success_num
                   else current_dir)) (-1)
  end.

(** [trainer_args] is [None] for Python's [None] and otherwise the items of
    the dict, the values already passed through [str]. *)
Definition save_trainer_args (dirname : path) (trainer_id : Z)
    (trainer_args : option (list (string * string))) : M unit :=
  match trainer_args with
  | None => raise AssertionError
  | Some items =>
      cur_dir ← _get_trainer_dir dirname trainer_id;
      for_each items (λ item, open_write cur_dir item.1 item.2);;
      _write_success cur_dir
  end.

Definition save_persist_vars_without_grad (dirname : path)
    (program : option Program) : M unit :=
  cur_dir ← _get_model_dir dirname;
  save_vars cur_dir program None _is_checkpoint_var;;
  _write_success cur_dir.

Definition load_persist_vars_without_grad (dirname : path)
    (program : option Program) (has_model_dir : bool) : M unit :=
  dirname ← (if has_model_dir then _get_model_dir dirname else ret dirname);
  load_vars dirname program None _is_checkpoint_var.

Definition save_checkpoint (checkpoint_dir : option path) (trainer_id : Z)
    (trainer_args : option (list (string * string)))
    (main_program : option Program) (max_num_checkpoints : Z) : M unit :=
  match checkpoint_dir with
  | None => raise ValueError
  | Some checkpoint_dir =>
      b ← os.isdir checkpoint_dir;
      (if negb b then os.makedirs checkpoint_dir else ret tt);;
      latest ← get_latest_checkpoint_serial (Some checkpoint_dir);
      let serial := latest + 1 in
      cur_dir ← _get_serial_dir checkpoint_dir serial;
      save_trainer_args cur_dir trainer_id trainer_args;;
      (if bool_decide (trainer_id = 0)
       then save_persist_vars_without_grad cur_dir main_program
       else ret tt);;
      _scroll_delete checkpoint_dir max_num_checkpoints
  end.

Definition load_checkpoint (checkpoint_dir : option path) (serial : option Z)
    (main_program : option Program) : M unit :=
  match checkpoint_dir with
  | None => raise ValueError
  | Some checkpoint_dir =>
      match serial with
      | None => raise ValueError
      | Some serial =>
          if bool_decide (serial < 0) then raise ValueError
          else
            match main_program with
            | None => raise ValueError
            | Some _ =>
                cur_dir ← _get_serial_dir checkpoint_dir serial;
                load_persist_vars_without_grad cur_dir main_program true
            end
      end
  end.

Definition clean_checkpoint (checkpoint_dir : option path) (delete_dir : bool) : M unit :=
  match checkpoint_dir with
  | None => raise ValueError
  | Some checkpoint_dir =>
      _scroll_delete checkpoint_dir 0;;
      if delete_dir
      then
        l ← os.listdir checkpoint_dir;
        match (l : list string) with
        | [] => os.rmdir checkpoint_dir
        | _ => ret tt
        end
      else ret tt
  end.

(** ** Running a function *)

Definition initial (fs : gmap path node) (e : env) : world :=
  {| files := fs; scope := ∅; trace := []; budget := None; environ := e |}.

Definition plain_env : env :=
  {| default_main_program := []; listdir_order := sorted_order; ctime := "Thu Jan  1 00:00:00 1970" |}.

(* ===================================================================== *)
(** * Auxiliary definitions of the proofs *)
(* ===================================================================== *)

(** The characters of a string. *)
Fixpoint chars (s : string) : list ascii :=
  match s with
  | EmptyString => []
  | String c s' => c :: chars s'
  end.

Definition sign_or_digit (c : ascii) : Prop :=
  c ∈ ["-"; "0"; "1"; "2"; "3"; "4"; "5"; "6"; "7"; "8"; "9"]%char.

(** The weakest precondition of a computation: [Q] holds of its outcome,
    a value or an exception, and of the world it leaves. *)
Definition wp {A} (m : M A) (Q : result A → world → Prop) (w : world) : Prop :=
  Q (m w).1 (m w).2.

(** The path a system call acts on. *)
Definition target (c : syscall) : path :=
  match c with
  | Mkdir p | Write p _ | Append p _ | Rmtree p | Rmdir p => p
  end.

(** The condition under which the library makes a system call. *)
Definition legal (c : syscall) (fs : gmap path node) : Prop :=
  match c with
  | Mkdir p => node_at fs p = None ∧ is_dir fs (parent p) = true
  | Write p _ | Append p _ => is_dir fs p = false ∧ is_dir fs (parent p) = true
  | Rmtree p => is_dir fs p = true
  | Rmdir p => p ≠ [] ∧ is_dir fs p = true ∧ entries fs p = []
  end.

(** A property of the world that the system calls in [φ] keep. *)
Definition stable (φ : syscall → Prop) (I : world → Prop) : Prop :=
  ∀ c w, φ c → legal c (files w) → I w → I (do c w).

(** The errors of the environment, as opposed to those the functions raise
    themselves. *)
Definition env_error (e : exn) : Prop := e ≠ ValueError ∧ e ≠ AssertionError.

(** What [_get_serial_dir], [_get_model_dir] and [_get_trainer_dir] do with
    the path they have joined. *)
Definition ensure (d : path) : M path :=
  b ← os.isdir d;
  (if negb b then os.makedirs d else ret tt);;
  ret d.

(** Every node of the file system lies in a directory. *)
Definition closed (fs : gmap path node) : Prop :=
  ∀ p n, is_Some (fs !! (p ++ [n])) → is_dir fs p = true.

Definition do_all (l : list syscall) (w : world) : world := foldl (flip do) w l.

(** The system calls that add a node. *)
Definition creates (c : syscall) : Prop :=
  match c with
  | Mkdir _ | Write _ _ | Append _ _ => True
  | _ => False
  end.

(** [_get_dir_serial] does not touch the world: its outcome as a function of
    the name. *)
Definition dir_serial (dirname : string) : result Z :=
  match Py.split separator_char dirname with
  | [_; serial] =>
      match Py.int serial with
      | Some serial_num => Ok serial_num
      | None => Ok (-1)
      end
  | _ => Raise ValueError
  end.

(** A checkpoint root that holds the serial directories of [S] and nothing
    else. *)
Record serial_root (fs : gmap path node) (root : path) (S : gset Z) : Prop := {
  root_is_dir : is_dir fs root = true;
  root_entries : ∀ n, is_Some (fs !! (root ++ [n])) ↔ ∃ x, x ∈ S ∧ n = serial_folder x;
  root_serial_dirs : ∀ x, x ∈ S → fs !! (root ++ [serial_folder x]) = Some Dir
}.

(** The success mark of a serial: [<root>/checkpoint_<x>/__model__/_SUCCESS]. *)
Definition success_path (root : path) (x : Z) : path :=
  root ++ [serial_folder x; MODEL_DIR; SUCCESS_MARK_FILENAME].

Definition complete (fs : gmap path node) (root : path) (x : Z) : Prop :=
  is_file fs (success_path root x) = true.

(** [v] is the highest complete serial of [S], or -1 when there is none. *)
Definition is_latest (fs : gmap path node) (root : path) (S : gset Z) (v : Z) : Prop :=
  (v = -1 ∨ (v ∈ S ∧ complete fs root v)) ∧
  -1 ≤ v ∧
  ∀ x, x ∈ S → complete fs root x → x ≤ v.

(** The system calls that fill directory [T]: making it, and writing the
    files in it. *)
Definition fills (T : path) (c : syscall) : Prop :=
  match c with
  | Mkdir p => p = T
  | Write p _ | Append p _ => ∃ n, p = T ++ [n]
  | _ => False
  end.

(** What [save_persist_vars_without_grad] does in the directory of a
    serial, and [save_trainer_args] when the names of the arguments are
    single components: make the sub-directory, write one file per item,
    write the success mark. *)
Definition fill (D : path) (sub : string) (items : list (string * string)) : M unit :=
  cur_dir ← ensure (D ++ [sub]);
  for_each items (λ item, write_file (cur_dir ++ [item.1]) item.2);;
  _write_success cur_dir.

(** The variables a checkpoint saves, with the values they have in the
    scope. *)
Definition saved_vars (prog : Program) : list Var :=
  List.filter (λ each_var, negb (bool_decide (type each_var = RAW)))
    (List.filter _is_checkpoint_var prog).

Definition saved_items (sc : gmap string string) (prog : Program) : list (string * string) :=
  (λ v, (name v, default EmptyString (sc !! name v))) <$> saved_vars prog.

Definition program_of (main_program : option Program) (w : world) : Program :=
  match main_program with
  | Some p => p
  | None => default_main_program (environ w)
  end.

(** The directory of a serial. *)
Definition serial_dir (root : path) (x : Z) : path := root ++ [serial_folder x].

(** The serials that the retention pass removes from the set [S], and those
    that it keeps. *)
Definition retired (k : Z) (S : gset Z) : list Z :=
  if decide (Z.of_nat (size S) ≤ k) then []
  else Py.slice_from k (merge_sort descending (elements S)).

Definition retained (k : Z) (S : gset Z) : gset Z := S ∖ list_to_set (retired k S).

(** A system call that adds a node in or below directory [D]. *)
Definition under (D : path) (c : syscall) : Prop :=
  creates c ∧ D `prefix_of` target c.

(** The world [w] while a save builds the serial directory [D], from the
    world [w0] it started in: only nodes in [D] have been added. *)
Record built (w0 : world) (D : path) (w : world) : Prop := {
  built_closed : closed (files w);
  built_outside : ∀ q, ¬ D `prefix_of` q → files w !! q = files w0 !! q;
  built_scope : scope w = scope w0;
  built_environ : environ w = environ w0;
  built_dir : is_dir (files w) D = true;
  built_trace : ∃ l, trace w = trace w0 ++ l ∧ Forall (under D) l
}.

(** A checkpoint root as the saves leave it: serial directories only, none
    above the latest complete serial [v]. *)
Record settled (fs : gmap path node) (root : path) (S : gset Z) (v : Z) : Prop := {
  settled_root : serial_root fs root S;
  settled_closed : closed fs;
  settled_latest : is_latest fs root S v;
  settled_top : ∀ x, x ∈ S → x ≤ v
}.

(** The serials [lo], ..., [hi - 1]. *)
Definition serials (lo hi : Z) : gset Z := list_to_set (seqZ lo (hi - lo)).






(** The save has written the success mark of serial [x]. *)
Definition marked (w0 : world) (root : path) (x : Z) (w : world) : Prop :=
  ∃ l data, trace w = trace w0 ++ l ∧ Append (success_path root x) data ∈ l.

(** The content of the file at [p]. *)
Definition content (fs : gmap path node) (p : path) : string :=
  match node_at fs p with
  | Some (File c) => c
  | _ => EmptyString
  end.

(** The world after the executor has loaded [vars] from directory [T]. *)
Definition load_all (T : path) (vars : list Var) (w : world) : world :=
  foldl (λ w v, set_var (name v) (content (files w) (T ++ [name v])) w) w vars.

(** The trace of [w] is that of [w0] with more system calls, [c] among
    them. *)
Definition called (c : syscall) (w0 w : world) : Prop :=
  ∃ l, trace w = trace w0 ++ l ∧ c ∈ l.

(** From [w0] to [w] directories have been made in [root], and nothing else
    has changed. *)
Record grown (root : path) (w0 w : world) : Prop := {
  grown_dirs : ∀ p, is_dir (files w0) p = true → is_dir (files w) p = true;
  grown_files :
    ∀ p, files w !! p = files w0 !! p ∨
         (files w0 !! p = None ∧ files w !! p = Some Dir ∧
          (∃ x, p = serial_dir root x) ∧ called (Mkdir p) w0 w);
  grown_trace : ∃ l, trace w = trace w0 ++ l ∧ Forall (λ c, ∃ q, c = Mkdir q) l
}.

(** ** Concrete checkpoint roots *)

Definition ckpt : path := ["ckpt"%string].

(** A root that holds one unrelated file. *)
Definition stray_root (entry : string) : gmap path node :=
  <[ckpt ++ [entry] := File EmptyString]> (<[ckpt := Dir]> ∅).

(** A model directory with the file of one variable and no success mark. *)
Definition unmarked_model : gmap path node :=
  <[ckpt ++ [serial_folder 0; MODEL_DIR; "w"%string] := File "tensor"]>
    (<[ckpt ++ [serial_folder 0; MODEL_DIR] := Dir]>
       (<[ckpt ++ [serial_folder 0] := Dir]> (<[ckpt := Dir]> ∅))).

Definition one_var : Program :=
  [{| name := "w"; type := LOD_TENSOR; persistable := true |}].

Definition is_mkdir (c : syscall) : Prop := ∃ q, c = Mkdir q.

(** From [w0] to [w] directories have been made, and no file has been
    written, changed or removed. *)
Record only_dirs (w0 w : world) : Prop := {
  only_dirs_kept : ∀ p, is_dir (files w0) p = true → is_dir (files w) p = true;
  only_dirs_files :
    ∀ p data, files w !! p = Some (File data) ↔ files w0 !! p = Some (File data);
  only_dirs_trace : ∃ l, trace w = trace w0 ++ l ∧ Forall is_mkdir l
}.

(** A root whose only entry is the directory [entry]. *)
Definition dir_root (entry : string) : gmap path node :=
  <[ckpt ++ [entry] := Dir]> (<[ckpt := Dir]> ∅).

(** An empty checkpoint root, and a world in which the variable [w] of
    [one_var] has a value. *)
Definition empty_root : gmap path node := <[ckpt := Dir]> ∅.

Definition tensor_world : world := set_var "w" "tensor" (initial empty_root plain_env).



(** The root [ckpt] with an empty directory for each serial of [xs]. *)
Definition serial_dirs_root (xs : list Z) : gmap path node :=
  foldr (λ x fs, <[serial_dir ckpt x := Dir]> fs) empty_root xs.

(* ===================================================================== *)
(** * The other functions of [fluid/io.py] *)
(* ===================================================================== *)

Definition is_persistable (var : Var) : bool :=
  if bool_decide (type var = FEED_MINIBATCH) || bool_decide (type var = FETCH_LIST)
  then false
  else persistable var.



(** [with open(p, 'r') as f: f.read()] *)
Definition read_file (p : path) : M string :=
  n ← gets (λ w, node_at (files w) p);
  match n with
  | Some (File data) => ret data
  | _ => raise IOError
  end.

(** [with open(os.path.join(dirname, name), 'r') as f: f.read()] *)
Definition open_read (dirname : path) (name : string) : M string := λ w,
  if Py.contains nul name then (Raise TypeError, w)
  else match joined (files w) dirname name with
       | Some p => read_file p w
       | None => (Raise IOError, w)
       end.

(** [trainer_args] is [None] for a value that is not a list. *)
Definition load_trainer_args (checkpoint_dir : path) (serial trainer_id : Z)
    (trainer_args : option (list string)) : M (list string) :=
  match trainer_args with
  | None => raise AssertionError
  | Some args =>
      cur_dir ← _get_serial_dir checkpoint_dir serial;
      cur_dir ← _get_trainer_dir cur_dir trainer_id;
      for_fold args
        (λ ret_values arg,
           contents ← open_read cur_dir arg;
           ret (ret_values ++ [Py.strip contents])) []
  end.

(** ** Auxiliary definitions *)

(** The system calls of a loop that writes one file of [T] per item. *)
Definition writes (T : path) (items : list (string * string)) : list syscall :=
  (λ it, Write (T ++ [it.1]) it.2) <$> items.


(** The items of a list have one value per name. *)
Definition functional (items : list (string * string)) : Prop :=
  ∀ a b, a ∈ items → b ∈ items → a.1 = b.1 → a.2 = b.2.

(** The world after [os.makedirs] on a path whose parent exists. *)
Definition made (T : path) (w : world) : world :=
  if is_dir (files w) T then w else do (Mkdir T) w.

(** The world after the directory [T] has been made, one file written in it
    per item, and the success mark after them. *)
Definition filled (T : path) (items : list (string * string)) (w : world) : world :=
  do (Append (T ++ [SUCCESS_MARK_FILENAME]) (ctime (environ w)))
     (do_all (writes T items) (made T w)).

(** The world after a first chief save with one trainer argument on the
    empty root. *)
Definition saved_once : world :=
  (save_checkpoint (Some ckpt) 0 (Some [("step_id", " 12")]) (Some one_var) 3
     tensor_world).2.

(** The world after a save has built the directory of serial [x] on a root
    that did not have it: the trainer's directory, and for the chief the
    model directory after it. *)
Definition saved (root : path) (x trainer_id : Z) (items mitems : list (string * string))
    (w : world) : world :=
  let wb := filled (serial_dir root x ++ [trainer_folder trainer_id]) items
              (do (Mkdir (serial_dir root x)) w) in
  if bool_decide (trainer_id = 0)
  then filled (serial_dir root x ++ [MODEL_DIR]) mitems wb
  else wb.

(** The world after a first chief save on the empty root. *)
Definition first_saved : world :=
  (save_checkpoint (Some ckpt) 0 (Some []) (Some one_var) 3 tensor_world).2.

(* ===================================================================== *)
(** * Facts about Python strings *)
(* ===================================================================== *)

Section strings.

Lemma chars_app s t : chars (s +:+ t) = chars s ++ chars t.
Proof. induction s as [|c s IH]; simpl; [done|]. by rewrite <- IH. Qed.

Lemma split_nonempty sep s : Py.split sep s ≠ [].
Proof.
  destruct s as [|c s]; simpl; [done|].
  destruct (Ascii.eqb c sep); [done|]. by destruct (Py.split sep s).
Qed.

Lemma split_without sep s : sep ∉ chars s → Py.split sep s = [s].
Proof.
  induction s as [|c s IH]; simpl; intros Hs; [done|].
  apply not_elem_of_cons in Hs as [Hc Hs].
  destruct (Ascii.eqb_spec c sep); [congruence|]. by rewrite IH.
Qed.

Lemma split_app sep s t :
  sep ∉ chars s → Py.split sep (s +:+ String sep t) = s :: Py.split sep t.
Proof.
  induction s as [|c s IH]; simpl; intros Hs.
  - by rewrite Ascii.eqb_refl.
  - apply not_elem_of_cons in Hs as [Hc Hs].
    destruct (Ascii.eqb_spec c sep); [congruence|]. by rewrite IH.
Qed.

(** The number of pieces is one more than the number of separators. *)
Lemma split_length sep s :
  length (Py.split sep s) = S (length (List.filter (Ascii.eqb sep) (chars s))).
Proof.
  induction s as [|c s IH]; simpl; [done|].
  rewrite (Ascii.eqb_sym sep c).
  destruct (Ascii.eqb c sep); simpl; [by rewrite IH|].
  destruct (Py.split sep s) eqn:E; simpl in *; [done|]. done.
Qed.

Lemma uint_chars d : Forall sign_or_digit (chars (NilEmpty.string_of_uint d)).
Proof.
  induction d; simpl; constructor; try done; unfold sign_or_digit; set_solver.
Qed.

Lemma str_chars n : Forall sign_or_digit (chars (Py.str n)).
Proof.
  unfold Py.str. destruct (Z.to_int n) as [d|d]; simpl.
  - destruct d; try apply (uint_chars (_ _)); simpl.
    constructor; [unfold sign_or_digit; set_solver|done].
  - constructor; [unfold sign_or_digit; set_solver|].
    destruct d; try apply (uint_chars (_ _)); simpl.
    constructor; [unfold sign_or_digit; set_solver|done].
Qed.

Lemma sign_or_digit_not_space c : sign_or_digit c → Ascii.is_space c = false.
Proof.
  unfold sign_or_digit. rewrite !elem_of_cons, elem_of_nil.
  intros H. repeat (destruct H as [->|H]; [done|]). done.
Qed.

Lemma sign_or_digit_not_sep c : sign_or_digit c → c ≠ separator_char.
Proof.
  unfold sign_or_digit. rewrite !elem_of_cons, elem_of_nil.
  intros H. repeat (destruct H as [->|H]; [done|]). done.
Qed.

Lemma lstrip_id s : Forall (λ c, Ascii.is_space c = false) (chars s) → Py.lstrip s = s.
Proof. destruct s as [|c s]; simpl; [done|]. intros [-> _]%Forall_cons. done. Qed.

Lemma rstrip_id s : Forall (λ c, Ascii.is_space c = false) (chars s) → Py.rstrip s = s.
Proof.
  induction s as [|c s IH]; simpl; [done|].
  intros [Hc Hs]%Forall_cons. rewrite (IH Hs), Hc. by destruct s.
Qed.

Lemma strip_str n : Py.strip (Py.str n) = Py.str n.
Proof.
  assert (Forall (λ c, Ascii.is_space c = false) (chars (Py.str n))) as H.
  { eapply Forall_impl; [apply str_chars|]. apply sign_or_digit_not_space. }
  unfold Py.strip. by rewrite (lstrip_id _ H), (rstrip_id _ H).
Qed.

Lemma digits_of_uint d :
  Py.digits (NilZero.string_of_uint d) = Some (Z.of_uint d).
Proof.
  destruct d; [reflexivity|..].
  all: unfold Py.digits, NilZero.string_of_uint.
  all: rewrite NilEmpty.usu; reflexivity.
Qed.

(** [int(str(n)) == n] *)
Lemma int_str n : Py.int (Py.str n) = Some n.
Proof.
  unfold Py.int. rewrite strip_str. unfold Py.str.
  rewrite <- (DecimalZ.of_to n) at 2.
  destruct (Z.to_int n) as [d|d]; simpl.
  - rewrite <- digits_of_uint. by destruct d.
  - by rewrite digits_of_uint.
Qed.

Lemma str_inj n m : Py.str n = Py.str m → n = m.
Proof.
  intros H. assert (Py.int (Py.str n) = Py.int (Py.str m)) as E by by rewrite H.
  rewrite !int_str in E. by injection E.
Qed.

Lemma split_serial_folder n :
  Py.split separator_char (serial_folder n) = [CHECKPOINT_PREFIX; Py.str n].
Proof.
  unfold serial_folder, CHECKPOINT_SEPARATOR.
  change ("_" +:+ Py.str n) with (String separator_char (Py.str n)).
  rewrite split_app.
  - f_equal. apply split_without. intros Hin.
    pose proof (str_chars n) as H. rewrite Forall_forall in H.
    by apply (sign_or_digit_not_sep _ (H _ Hin)).
  - intros H%list_elem_of_In. cbv in H. intuition discriminate.
Qed.

Lemma serial_folder_inj n m : serial_folder n = serial_folder m → n = m.
Proof.
  intros H. pose proof (split_serial_folder n) as Hn.
  rewrite H, split_serial_folder in Hn. injection Hn. intros E. symmetry. by apply str_inj.
Qed.

End strings.

(* ===================================================================== *)
(** * The monad and its weakest preconditions *)
(* ===================================================================== *)

Section monad.
Context {A B : Type}.

Lemma bind_eq (m : M A) (f : A → M B) w :
  (m ≫= f) w = match m w with
               | (Ok a, w') => f a w'
               | (Raise e, w') => (Raise e, w')
               end.
Proof. reflexivity. Qed.

Lemma bind_ok (m : M A) (f : A → M B) w a w' :
  m w = (Ok a, w') → (m ≫= f) w = f a w'.
Proof. intros H. by rewrite bind_eq, H. Qed.

Lemma bind_raise (m : M A) (f : A → M B) w e w' :
  m w = (Raise e, w') → (m ≫= f) w = (Raise e, w').
Proof. intros H. by rewrite bind_eq, H. Qed.

Lemma wp_ret (a : A) Q w : Q (Ok a) w → wp (ret a) Q w.
Proof. done. Qed.

Lemma wp_raise e (Q : result A → world → Prop) w : Q (Raise e) w → wp (raise e) Q w.
Proof. done. Qed.

Lemma wp_gets (f : world → A) Q w : Q (Ok (f w)) w → wp (gets f) Q w.
Proof. done. Qed.

Lemma wp_bind (m : M A) (f : A → M B) Q w :
  wp m (λ r w', match r with
                | Ok a => wp (f a) Q w'
                | Raise e => Q (Raise e) w'
                end) w →
  wp (m ≫= f) Q w.
Proof. unfold wp, mbind, M_bind, bind. by destruct (m w) as [[a|e] w']. Qed.

Lemma wp_mono (m : M A) (Q Q' : result A → world → Prop) w :
  wp m Q w → (∀ r w', Q r w' → Q' r w') → wp m Q' w.
Proof. unfold wp. auto. Qed.

Lemma wp_eq (m : M A) Q w r w' : m w = (r, w') → Q r w' → wp m Q w.
Proof. unfold wp. by intros ->. Qed.

Lemma wp_run (m : M A) Q w : wp m Q w → ∀ r w', m w = (r, w') → Q r w'.
Proof. unfold wp. intros H r w' E. by rewrite E in H. Qed.

End monad.

(** A loop keeps an invariant of the elements it has gone through; an
    exception ends it in [E]. *)
Lemma wp_for_each {A} (I : list A → world → Prop) (E : exn → world → Prop)
    (l : list A) (body : A → M unit) w :
  I [] w →
  (∀ done x rest w, l = done ++ x :: rest → I done w →
     wp (body x) (λ r w', match r with
                          | Ok _ => I (done ++ [x]) w'
                          | Raise e => E e w'
                          end) w) →
  wp (for_each l body) (λ r w', match r with
                                | Ok _ => I l w'
                                | Raise e => E e w'
                                end) w.
Proof.
  intros HI Hbody.
  assert (∀ rest done w, l = done ++ rest → I done w →
    wp (for_each rest body) (λ r w', match r with
                                     | Ok _ => I l w'
                                     | Raise e => E e w'
                                     end) w) as H.
  { induction rest as [|x rest IH]; intros done w0 Hl H0; simpl.
    - apply wp_ret. by rewrite Hl, app_nil_r.
    - apply wp_bind. eapply wp_mono; [by eapply Hbody|].
      intros [[]|e] w' H'; [|done].
      apply (IH (done ++ [x])); [|done]. by rewrite <- app_assoc. }
  by apply (H l []).
Qed.

Lemma wp_for_fold {A S} (I : list A → S → world → Prop) (E : exn → world → Prop)
    (l : list A) (body : S → A → M S) s w :
  I [] s w →
  (∀ done x rest s w, l = done ++ x :: rest → I done s w →
     wp (body s x) (λ r w', match r with
                            | Ok s' => I (done ++ [x]) s' w'
                            | Raise e => E e w'
                            end) w) →
  wp (for_fold l body s) (λ r w', match r with
                                  | Ok s' => I l s' w'
                                  | Raise e => E e w'
                                  end) w.
Proof.
  intros HI Hbody.
  assert (∀ rest done s w, l = done ++ rest → I done s w →
    wp (for_fold rest body s) (λ r w', match r with
                                       | Ok s' => I l s' w'
                                       | Raise e => E e w'
                                       end) w) as H.
  { induction rest as [|x rest IH]; intros done s0 w0 Hl H0; simpl.
    - apply wp_ret. by rewrite Hl, app_nil_r.
    - apply wp_bind. eapply wp_mono; [by eapply Hbody|].
      intros [s'|e] w' H'; [|done].
      apply (IH (done ++ [x])); [|done]. by rewrite <- app_assoc. }
  by apply (H l []).
Qed.

(* ===================================================================== *)
(** * The file system *)
(* ===================================================================== *)

Section file_system.
Implicit Types (fs : gmap path node) (p q : path) (n : string).

Lemma child_name_Some p q n : child_name p q = Some n ↔ q = p ++ [n].
Proof.
  revert q. induction p as [|a p IH]; intros q; simpl.
  - destruct q as [|b [|c q]]; naive_solver.
  - destruct q as [|b q]; [naive_solver|].
    destruct (decide (a = b)) as [->|]; [|naive_solver].
    rewrite IH. naive_solver.
Qed.

Lemma elem_of_entries fs p n : n ∈ entries fs p ↔ is_Some (fs !! (p ++ [n])).
Proof.
  unfold entries. rewrite list_elem_of_omap. split.
  - intros ([q x] & Hin & Hq). apply child_name_Some in Hq. simpl in Hq. subst q.
    apply elem_of_map_to_list in Hin. eauto.
  - intros [x Hx]. exists (p ++ [n], x). split.
    + by apply elem_of_map_to_list.
    + by apply child_name_Some.
Qed.

Lemma NoDup_entries fs p : NoDup (entries fs p).
Proof.
  unfold entries. pose proof (NoDup_fst_map_to_list fs) as H.
  induction (map_to_list fs) as [|[q x] l IH]; simpl; [constructor|].
  apply NoDup_cons in H as [Hq Hl]. specialize (IH Hl).
  destruct (child_name p q) as [n|] eqn:E; [|done].
  constructor; [|done]. intros Hin.
  apply list_elem_of_omap in Hin as ([q' x'] & Hin & Hq').
  apply child_name_Some in E, Hq'. simpl in *. subst.
  apply Hq. apply list_elem_of_fmap. by exists (p ++ [n], x').
Qed.

Lemma parent_app p n : parent (p ++ [n]) = p.
Proof. apply removelast_last. Qed.

Lemma node_at_app fs p n : node_at fs (p ++ [n]) = fs !! (p ++ [n]).
Proof. by destruct p. Qed.

Lemma node_at_ne fs p : p ≠ [] → node_at fs p = fs !! p.
Proof. by destruct p. Qed.

Lemma is_dir_true fs p : is_dir fs p = true ↔ node_at fs p = Some Dir.
Proof. unfold is_dir. by rewrite bool_decide_eq_true. Qed.

Lemma is_dir_false fs p : is_dir fs p = false ↔ node_at fs p ≠ Some Dir.
Proof. unfold is_dir. by rewrite bool_decide_eq_false. Qed.

Lemma is_file_true fs p : is_file fs p = true ↔ ∃ c, node_at fs p = Some (File c).
Proof. unfold is_file. destruct (node_at fs p) as [[]|]; naive_solver. Qed.

Lemma exists_false fs p : exists_ fs p = false ↔ node_at fs p = None.
Proof.
  unfold exists_. rewrite bool_decide_eq_false, <- eq_None_not_Some. done.
Qed.

End file_system.

(** ** The system calls of the library functions *)

Section calls.
Implicit Types (w : world) (p : path).

Lemma sys_eq c w :
  sys c w = if bool_decide (budget w = Some O) then (Raise KeyboardInterrupt, w)
            else (Ok tt, do c w).
Proof. unfold sys. by destruct (budget w) as [[|k]|]. Qed.

Lemma sys_run c w : budget w = None → sys c w = (Ok tt, do c w).
Proof. unfold sys. by intros ->. Qed.

Lemma budget_do c w : budget w = None → budget (do c w) = None.
Proof. by intros H; simpl; rewrite H. Qed.

Lemma wp_sys c (Q : result unit → world → Prop) w :
  (budget w = Some O → Q (Raise KeyboardInterrupt) w) →
  (budget w ≠ Some O → Q (Ok tt) (do c w)) →
  wp (sys c) Q w.
Proof.
  intros H0 H1. unfold wp. rewrite sys_eq. case_bool_decide; simpl; auto.
Qed.

Lemma listdir_run p w :
  is_dir (files w) p = true →
  ∃ l, os.listdir p w = (Ok l, w) ∧ l ≡ₚ entries (files w) p.
Proof.
  intros H. unfold os.listdir. rewrite H. eexists; split; [done|].
  apply reorder_perm.
Qed.

End calls.

Section primitives.
Implicit Types (w : world) (p q : path) (fs : gmap path node).

Lemma mkdir_cases p w :
  (∃ e, env_error e ∧ os.mkdir p w = (Raise e, w)) ∨
  (legal (Mkdir p) (files w) ∧ budget w ≠ Some O ∧ os.mkdir p w = (Ok tt, do (Mkdir p) w)).
Proof.
  unfold os.mkdir. destruct (exists_ (files w) p) eqn:E1.
  { left. by exists OSError. }
  destruct (is_dir (files w) (parent p)) eqn:E2.
  - rewrite sys_eq. case_bool_decide.
    + left. by exists KeyboardInterrupt.
    + right. by apply exists_false in E1.
  - left. by exists OSError.
Qed.

Lemma write_file_cases p data w :
  (∃ e, env_error e ∧ write_file p data w = (Raise e, w)) ∨
  (legal (Write p data) (files w) ∧ budget w ≠ Some O ∧
   write_file p data w = (Ok tt, do (Write p data) w)).
Proof.
  unfold write_file. destruct (is_dir (files w) p) eqn:E1.
  { left. by exists IOError. }
  destruct (is_dir (files w) (parent p)) eqn:E2.
  - rewrite sys_eq. case_bool_decide.
    + left. by exists KeyboardInterrupt.
    + by right.
  - left. by exists IOError.
Qed.



Lemma rmdir_cases p w :
  (∃ e, env_error e ∧ os.rmdir p w = (Raise e, w)) ∨
  (legal (Rmdir p) (files w) ∧ budget w ≠ Some O ∧
   os.rmdir p w = (Ok tt, do (Rmdir p) w)).
Proof.
  unfold os.rmdir. destruct p as [|a p]; [left; by exists OSError|].
  destruct (is_dir (files w) (a :: p)) eqn:E1; simpl; [|left; by exists OSError].
  case_bool_decide; simpl; [|left; by exists OSError].
  rewrite sys_eq. case_bool_decide.
  - left. by exists KeyboardInterrupt.
  - right. by repeat split.
Qed.

Lemma mkdir_run p w :
  legal (Mkdir p) (files w) → budget w = None →
  os.mkdir p w = (Ok tt, do (Mkdir p) w).
Proof.
  intros [H1 H2] Hb. unfold os.mkdir.
  apply exists_false in H1. rewrite H1, H2. by apply sys_run.
Qed.

Lemma write_file_run p data w :
  legal (Write p data) (files w) → budget w = None →
  write_file p data w = (Ok tt, do (Write p data) w).
Proof. intros [H1 H2] Hb. unfold write_file. rewrite H1, H2. by apply sys_run. Qed.

Lemma append_file_run p data w :
  legal (Append p data) (files w) → budget w = None →
  append_file p data w = (Ok tt, do (Append p data) w).
Proof. intros [H1 H2] Hb. unfold append_file. rewrite H1, H2. by apply sys_run. Qed.

Lemma rmtree_run p w :
  legal (Rmtree p) (files w) → budget w = None →
  shutil.rmtree p w = (Ok tt, do (Rmtree p) w).
Proof. intros H1 Hb. unfold shutil.rmtree. simpl in H1. rewrite H1. by apply sys_run. Qed.

(** ** [os.makedirs] *)

Lemma missing_dirs_prefix fs rp q : q ∈ os.missing_dirs fs rp → q `prefix_of` rev rp.
Proof.
  induction rp as [|n rp IH]; simpl.
  - intros ->%list_elem_of_singleton. done.
  - rewrite elem_of_app, list_elem_of_singleton. intros [H| ->]; [|done].
    destruct rp as [|m rp]; [by apply elem_of_nil in H|].
    destruct (exists_ fs (rev (m :: rp))); [by apply elem_of_nil in H|].
    etrans; [by apply IH|]. by apply prefix_app_r.
Qed.

Lemma missing_dirs_last fs rp : last (os.missing_dirs fs rp) = Some (rev rp).
Proof. destruct rp; simpl; [done|]. by rewrite last_snoc. Qed.

Lemma missing_dirs_child fs p n :
  is_dir fs p = true → os.missing_dirs fs (rev (p ++ [n])) = [p ++ [n]].
Proof.
  intros H. rewrite rev_app_distr. simpl.
  destruct (rev p) as [|m rp] eqn:E.
  - simpl. rewrite <- (rev_involutive p), E. done.
  - rewrite <- E, rev_involutive.
    assert (exists_ fs p = true) as ->.
    { unfold exists_. apply bool_decide_eq_true. apply is_dir_true in H. by rewrite H. }
    done.
Qed.

Lemma makedirs_child p n w :
  is_dir (files w) p = true →
  os.makedirs (p ++ [n]) w = (os.mkdir (p ++ [n]);; ret tt) w.
Proof. intros H. unfold os.makedirs. by rewrite missing_dirs_child. Qed.

End primitives.
(* ===================================================================== *)
(** * Names chosen by the caller *)
(* ===================================================================== *)

Section names.
Implicit Types (w : world) (d p : path) (fs : gmap path node) (name : string).

Lemma split_without_slash name :
  Py.contains "/" name = false → Py.split slash name = [name].
Proof.
  induction name as [|c name IH]; [done|]. intros H.
  cbn [Py.contains] in H. apply orb_false_elim in H as [H1 H2].
  cbn [Py.split]. rewrite (IH H2).
  destruct (Ascii.eqb_spec c slash) as [->|Hc]; [|done].
  exfalso. unfold slash in H1. simpl in H1. by destruct name.
Qed.

Lemma plain_spec name :
  plain name = true ↔
  name ≠ EmptyString ∧ name ≠ "." ∧ name ≠ ".." ∧
  Py.contains "/" name = false ∧ Py.contains nul name = false.
Proof.
  unfold plain. rewrite !andb_true_iff, !negb_true_iff, bool_decide_eq_false. tauto.
Qed.

Lemma joined_plain fs d name : plain name = true → joined fs d name = Some (d ++ [name]).
Proof.
  intros (H1 & H2 & H3 & H4 & _)%plain_spec. unfold joined.
  rewrite split_without_slash by done. cbn [removelast List.last walk].
  assert (String.prefix "/" name = false) as ->.
  { destruct name; [done|]. cbn [Py.contains] in H4. apply orb_false_elim in H4 as [H4 _]. exact H4. }
  rewrite bool_decide_eq_false_2; [done|tauto].
Qed.

Lemma open_write_plain d name data w :
  plain name = true → open_write d name data w = write_file (d ++ [name]) data w.
Proof.
  intros H. unfold open_write. rewrite joined_plain by done.
  apply plain_spec in H as (_ & _ & _ & _ & ->). done.
Qed.


Lemma plain_args_spec (items : list (string * string)) :
  plain_args items = true ↔ ∀ it, it ∈ items → plain it.1 = true.
Proof.
  unfold plain_args. rewrite forallb_forall. split.
  - intros H it Hit. by apply H, list_elem_of_In.
  - intros H it Hit. by apply H, list_elem_of_In.
Qed.


Lemma for_each_ext {A} (l : list A) (f g : A → M unit) w :
  (∀ x w', x ∈ l → f x w' = g x w') → for_each l f w = for_each l g w.
Proof.
  revert w. induction l as [|x l IH]; intros w H; [done|].
  cbn [for_each]. rewrite !bind_eq, (H x w) by left.
  destruct (g x w) as [[[]|e] w1]; [|done]. apply IH. intros y w' Hy. apply H. by right.
Qed.

Lemma open_each_plain d (items : list (string * string)) w :
  plain_args items = true →
  for_each items (λ item, open_write d item.1 item.2) w =
  for_each items (λ item, write_file (d ++ [item.1]) item.2) w.
Proof.
  intros H. apply for_each_ext. intros it w' Hit. apply open_write_plain.
  by apply (proj1 (plain_args_spec items)).
Qed.

End names.

(** ** The effect of a system call on the file system *)

Section effects.
Implicit Types (w : world) (p q : path) (fs : gmap path node) (c : syscall).

Lemma legal_target_ne c fs : creates c → legal c fs → target c ≠ [].
Proof. destruct c; simpl; try done; intros _ [H _] ->; done. Qed.

Lemma lookup_create c fs q :
  creates c → target c ≠ q → apply_syscall c fs !! q = fs !! q.
Proof. destruct c; simpl; try done; intros _ H; by rewrite lookup_insert_ne. Qed.

Lemma node_at_create c fs q :
  creates c → target c ≠ q → node_at (apply_syscall c fs) q = node_at fs q.
Proof. intros Hc H. destruct q; [done|]. simpl. by apply lookup_create. Qed.


Lemma is_dir_mkdir fs p : is_dir (apply_syscall (Mkdir p) fs) p = true.
Proof.
  apply is_dir_true. destruct p; [done|]. simpl. by rewrite lookup_insert_eq.
Qed.

Lemma is_dir_create c fs q :
  creates c → legal c fs → is_dir fs q = true → is_dir (apply_syscall c fs) q = true.
Proof.
  intros Hc Hl Hq. destruct (decide (target c = q)) as [<-|Hne].
  - destruct c; simpl in *; try done.
    + apply is_dir_mkdir.
    + destruct Hl as [Hl _]. congruence.
    + destruct Hl as [Hl _]. congruence.
  - apply is_dir_true. rewrite node_at_create by done. by apply is_dir_true.
Qed.

Lemma is_dir_create_inv c fs q :
  creates c → target c ≠ q → is_dir (apply_syscall c fs) q = is_dir fs q.
Proof. intros Hc Hne. unfold is_dir. by rewrite node_at_create. Qed.

Lemma is_file_create_other c fs q :
  creates c → target c ≠ q → is_file (apply_syscall c fs) q = is_file fs q.
Proof. intros Hc Hne. unfold is_file. by rewrite node_at_create. Qed.

Lemma closed_create c fs :
  creates c → legal c fs → closed fs → closed (apply_syscall c fs).
Proof.
  intros Hc Hl Hfs p n [x Hx].
  destruct (decide (target c = p ++ [n])) as [E|Hne].
  - apply is_dir_create; [done..|].
    replace p with (parent (target c)) by (by rewrite E, parent_app).
    destruct c; simpl in *; try done; by destruct Hl.
  - rewrite lookup_create in Hx by done.
    apply is_dir_create; [done..|]. apply (Hfs p n). eauto.
Qed.

Lemma closed_absent fs p q :
  closed fs → p ≠ [] → fs !! p = None → p `prefix_of` q → fs !! q = None.
Proof.
  intros Hfs Hp Hnone [k ->]. induction k as [|n k IH] using rev_ind.
  - by rewrite app_nil_r.
  - destruct (fs !! (p ++ k ++ [n])) as [x|] eqn:E; [|done].
    rewrite app_assoc in E.
    assert (is_dir fs (p ++ k) = true) as Hd by (apply (Hfs _ n); eauto).
    apply is_dir_true in Hd. rewrite node_at_ne in Hd by (by destruct p).
    congruence.
Qed.


Lemma do_all_snoc l c w : do_all (l ++ [c]) w = do c (do_all l w).
Proof. unfold do_all. by rewrite foldl_app. Qed.

Lemma stable_weaken (φ ψ : syscall → Prop) I :
  (∀ c, ψ c → φ c) → stable φ I → stable ψ I.
Proof. intros H HI c w Hc. apply HI. auto. Qed.

Lemma stable_and φ I J : stable φ I → stable φ J → stable φ (λ w, I w ∧ J w).
Proof. intros HI HJ c w Hc Hl [??]. split; [by apply HI|by apply HJ]. Qed.

End effects.

(** ** [os.makedirs] and the directories made on demand *)

Section directories.
Implicit Types (w : world) (p q d : path) (φ : syscall → Prop) (I : world → Prop).

Lemma makedirs_keeps φ I p w :
  stable φ I → (∀ q, q `prefix_of` p → φ (Mkdir q)) → I w →
  wp (os.makedirs p)
     (λ r w', I w' ∧ match r with
                     | Ok _ => is_dir (files w') p = true
                     | Raise e => env_error e
                     end) w.
Proof.
  intros HI Hφ Hw. unfold os.makedirs.
  set (l := os.missing_dirs (files w) (rev p)).
  assert (∀ q, q ∈ l → q `prefix_of` p) as Hl.
  { intros q Hq. apply missing_dirs_prefix in Hq. by rewrite rev_involutive in Hq. }
  assert (last l = Some p) as Hlast.
  { unfold l. by rewrite missing_dirs_last, rev_involutive. }
  assert (wp (for_each l os.mkdir)
            (λ r w', match r with
                     | Ok _ => I w' ∧ ∀ q, last l = Some q → is_dir (files w') q = true
                     | Raise e => I w' ∧ env_error e
                     end) w) as H.
  { apply (wp_for_each
      (λ done w', I w' ∧ ∀ q, last done = Some q → is_dir (files w') q = true)
      (λ e w', I w' ∧ env_error e)).
    - split; [done|]. intros q Hq. done.
    - intros done x rest w0 E [H0 _]. unfold wp.
      destruct (mkdir_cases x w0) as [(e & He & ->)|(Hleg & _ & ->)]; simpl.
      + done.
      + split.
        * apply HI; [|done..]. apply Hφ, Hl. rewrite E.
          apply elem_of_app. right. left.
        * intros q. rewrite last_snoc. intros [= <-]. apply is_dir_mkdir. }
  unfold wp in *. cbv beta. fold l.
  destruct (for_each l os.mkdir w) as [[[]|e] w']; simpl in *; [|done].
  destruct H as [H1 H2]. auto.
Qed.

Lemma ensure_keeps φ I d w :
  stable φ I → (∀ q, q `prefix_of` d → φ (Mkdir q)) → I w →
  wp (ensure d)
     (λ r w', I w' ∧ match r with
                     | Ok x => x = d ∧ is_dir (files w') d = true
                     | Raise e => env_error e
                     end) w.
Proof.
  intros HI Hφ Hw. unfold ensure. apply wp_bind, wp_gets.
  destruct (is_dir (files w) d) eqn:E; simpl.
  - apply wp_bind, wp_ret, wp_ret. done.
  - apply wp_bind. eapply wp_mono; [by apply (makedirs_keeps φ)|].
    intros [[]|e] w' [H1 H2]; [|done]. apply wp_ret. done.
Qed.

(** When the parent directory exists, at most the directory itself is
    made. *)
Lemma ensure_child_keeps φ I p n w :
  stable φ I → φ (Mkdir (p ++ [n])) → is_dir (files w) p = true → I w →
  wp (ensure (p ++ [n]))
     (λ r w', I w' ∧ match r with
                     | Ok x => x = p ++ [n] ∧ is_dir (files w') (p ++ [n]) = true
                     | Raise e => env_error e
                     end) w.
Proof.
  intros HI Hφ Hp Hw. unfold ensure. apply wp_bind, wp_gets.
  destruct (is_dir (files w) (p ++ [n])) eqn:E; simpl.
  - apply wp_bind, wp_ret, wp_ret. done.
  - apply wp_bind. unfold wp at 1. rewrite makedirs_child by done.
    rewrite bind_eq.
    destruct (mkdir_cases (p ++ [n]) w) as [(e & He & ->)|(Hleg & _ & ->)]; simpl.
    + done.
    + split; [by apply (HI _ _ Hφ)|]. split; [done|]. apply is_dir_mkdir.
Qed.

Lemma ensure_present d w : is_dir (files w) d = true → ensure d w = (Ok d, w).
Proof. intros H. unfold ensure, os.isdir, gets. rewrite bind_eq, H. done. Qed.

Lemma ensure_fresh p n w :
  node_at (files w) (p ++ [n]) = None → is_dir (files w) p = true →
  budget w = None →
  ensure (p ++ [n]) w = (Ok (p ++ [n]), do (Mkdir (p ++ [n])) w).
Proof.
  intros Hn Hp Hb. unfold ensure, os.isdir, gets. rewrite bind_eq.
  assert (is_dir (files w) (p ++ [n]) = false) as ->.
  { apply is_dir_false. by rewrite Hn. }
  simpl. rewrite bind_eq, makedirs_child by done. rewrite bind_eq.
  rewrite mkdir_run; [done| |done]. split; [done|]. by rewrite parent_app.
Qed.

Lemma get_serial_dir_ensure dirname serial :
  _get_serial_dir dirname serial = ensure (dirname ++ [serial_folder serial]).
Proof. reflexivity. Qed.

Lemma get_model_dir_ensure dirname :
  _get_model_dir dirname = ensure (dirname ++ [MODEL_DIR]).
Proof. reflexivity. Qed.

Lemma get_trainer_dir_ensure dirname trainer_id :
  _get_trainer_dir dirname trainer_id = ensure (dirname ++ [trainer_folder trainer_id]).
Proof. reflexivity. Qed.

End directories.

(* ===================================================================== *)
(** * Serial directories and the latest checkpoint *)
(* ===================================================================== *)

Section resolution.
Implicit Types (w : world) (root : path) (S : gset Z) (fs : gmap path node).

Lemma get_dir_serial_eq dirname w : _get_dir_serial dirname w = (dir_serial dirname, w).
Proof.
  unfold _get_dir_serial, dir_serial.
  destruct (Py.split separator_char dirname) as [|a [|b [|c l]]]; try done.
  by destruct (Py.int b).
Qed.

Lemma dir_serial_folder x : dir_serial (serial_folder x) = Ok x.
Proof. unfold dir_serial. by rewrite split_serial_folder, int_str. Qed.

(** [_get_dir_serial] raises exactly on the names that do not have one
    separator. *)
Lemma dir_serial_raise dirname :
  length (Py.split separator_char dirname) ≠ 2%nat ↔ dir_serial dirname = Raise ValueError.
Proof.
  unfold dir_serial.
  destruct (Py.split separator_char dirname) as [|a [|b [|c l]]]; simpl; try done.
  by destruct (Py.int b).
Qed.

Lemma dir_serial_error dirname e : dir_serial dirname = Raise e → e = ValueError.
Proof.
  unfold dir_serial.
  destruct (Py.split separator_char dirname) as [|a [|b [|c l]]]; simpl; try congruence.
  by destruct (Py.int b).
Qed.

Lemma is_latest_unique fs root S v v' :
  is_latest fs root S v → is_latest fs root S v' → v = v'.
Proof.
  intros (H1 & H2 & H3) (H1' & H2' & H3').
  destruct H1 as [->|[??]], H1' as [->|[??]]; try done.
  - assert (v' ≤ -1) by auto. lia.
  - assert (v ≤ -1) by auto. lia.
  - assert (v ≤ v') by auto. assert (v' ≤ v) by auto. lia.
Qed.

Lemma has_success_serial w root S x :
  serial_root (files w) root S → x ∈ S →
  has_success root (serial_folder x) w =
    (Ok (if bool_decide (x = -1) then Some (-1)
         else if is_file (files w) (success_path root x) then Some x else None), w).
Proof.
  intros Hroot Hx. unfold has_success.
  rewrite bind_eq, get_dir_serial_eq, dir_serial_folder.
  assert (is_dir (files w) (root ++ [serial_folder x]) = true) as Hd.
  { apply is_dir_true. rewrite node_at_app. by apply (root_serial_dirs _ _ _ Hroot). }
  unfold os.isdir, gets. rewrite bind_eq, Hd.
  case_bool_decide; simpl; [done|].
  rewrite get_serial_dir_ensure, bind_eq, ensure_present by done.
  unfold os.isfile, gets. rewrite bind_eq.
  replace ((root ++ [serial_folder x]) ++ [MODEL_DIR; SUCCESS_MARK_FILENAME])
    with (success_path root x) by (unfold success_path; by rewrite <- app_assoc).
  by destruct (is_file (files w) (success_path root x)).
Qed.

Lemma serial_root_listing fs root S l :
  serial_root fs root S → l ≡ₚ entries fs root →
  ∀ n, n ∈ l ↔ ∃ x, x ∈ S ∧ n = serial_folder x.
Proof.
  intros Hroot Hl n. rewrite Hl, elem_of_entries. by apply (root_entries _ _ _ Hroot).
Qed.

(** On a root of serial directories the resolution changes nothing and
    returns the highest complete serial. *)
Lemma latest_serial_root w root S :
  serial_root (files w) root S →
  ∃ v, get_latest_checkpoint_serial (Some root) w = (Ok v, w) ∧
       is_latest (files w) root S v.
Proof.
  intros Hroot. unfold get_latest_checkpoint_serial, os.isdir, gets.
  rewrite bind_eq, (root_is_dir _ _ _ Hroot). simpl.
  destruct (listdir_run root w (root_is_dir _ _ _ Hroot)) as (l & Hl & Hperm).
  rewrite bind_eq, Hl.
  pose proof (serial_root_listing _ _ _ _ Hroot Hperm) as Hin.
  set (body := λ (current_dir : Z) (cur_dir : string),
         success_num ← has_success root cur_dir;
         ret (if greater success_num current_dir
              then default current_dir success_num else current_dir)).
  assert (wp (for_fold l body (-1))
            (λ r w', match r with
                     | Ok v => w' = w ∧
                         (v = -1 ∨ (v ∈ S ∧ complete (files w) root v)) ∧ -1 ≤ v ∧
                         ∀ x, serial_folder x ∈ l → complete (files w) root x → x ≤ v
                     | Raise _ => False
                     end) w) as H.
  { apply (wp_for_fold
      (λ done v w', w' = w ∧
         (v = -1 ∨ (v ∈ S ∧ complete (files w) root v)) ∧ -1 ≤ v ∧
         ∀ x, serial_folder x ∈ done → complete (files w) root x → x ≤ v)
      (λ _ _, False)).
    - repeat split; [by left|done|]. intros x Hx. by apply elem_of_nil in Hx.
    - intros done n rest v w0 E (-> & Hv & Hge & Hmax).
      assert (n ∈ l) as Hn by (rewrite E; apply elem_of_app; right; left).
      apply Hin in Hn as (x & Hx & ->).
      unfold body. apply wp_bind. unfold wp.
      rewrite (has_success_serial _ _ _ _ Hroot Hx). simpl.
      assert (∀ v', (v' = -1 ∨ v' ∈ S ∧ complete (files w) root v') → -1 ≤ v' →
                (∀ y, serial_folder y ∈ done → complete (files w) root y → y ≤ v') →
                (complete (files w) root x → x ≤ v') →
                (v' = -1 ∨ v' ∈ S ∧ complete (files w) root v') ∧ -1 ≤ v' ∧
                ∀ y, serial_folder y ∈ done ++ [serial_folder x] →
                     complete (files w) root y → y ≤ v') as Hstep.
      { intros v' H1 H2 H3 H4. repeat split; [done..|].
        intros y [Hy|Hy%list_elem_of_singleton]%elem_of_app Hc; [auto|].
        apply serial_folder_inj in Hy as ->. auto. }
      case_bool_decide as Hm1.
      + subst x. split; [done|]. simpl. rewrite bool_decide_eq_false_2 by lia.
        apply Hstep; auto.
      + destruct (is_file (files w) (success_path root x)) eqn:Ef; simpl.
        * case_bool_decide; simpl.
          -- split; [done|]. apply Hstep; [by right|lia| |lia].
             intros y Hy Hc. specialize (Hmax y Hy Hc). lia.
          -- split; [done|]. apply Hstep; auto. intros _. lia.
        * split; [done|]. apply Hstep; auto. unfold complete. congruence. }
  unfold wp in H. fold body.
  destruct (for_fold l body (-1) w) as [[v|e] w']; simpl in H; [|done].
  destruct H as (-> & Hv & Hge & Hmax). exists v. split; [done|].
  repeat split; [done..|]. intros x Hx. apply Hmax, Hin. eauto.
Qed.

End resolution.

(* ===================================================================== *)
(** * Writing a directory of a checkpoint *)
(* ===================================================================== *)

Section filling.
Implicit Types (w : world) (T D : path) (φ : syscall → Prop) (I : world → Prop).


Lemma write_each_run I T (items : list (string * string)) w :
  stable (fills T) I → I w →
  is_dir (files w) T = true → (∀ n, is_dir (files w) (T ++ [n]) = false) →
  budget w = None →
  ∃ w', for_each items (λ item, write_file (T ++ [item.1]) item.2) w = (Ok tt, w') ∧
        I w' ∧ is_dir (files w') T = true ∧
        (∀ n, is_dir (files w') (T ++ [n]) = false) ∧ budget w' = None.
Proof.
  intros HI. revert w. induction items as [|it items IH]; intros w Hw HT Hch Hb; simpl.
  - by exists w.
  - assert (legal (Write (T ++ [it.1]) it.2) (files w)) as Hl.
    { split; [apply Hch|]. by rewrite parent_app. }
    rewrite bind_eq, write_file_run by done.
    apply IH.
    + apply HI; [|done..]. simpl. eauto.
    + by apply is_dir_create.
    + intros n. destruct (decide (T ++ [it.1] = T ++ [n])) as [E|Hne].
      * apply is_dir_false. rewrite <- E. simpl.
        rewrite node_at_app, lookup_insert_eq. done.
      * change (files (do ?c w)) with (apply_syscall c (files w)).
        rewrite is_dir_create_inv; [apply Hch|done|done].
    + by apply budget_do.
Qed.

Lemma write_success_eq T w :
  _write_success T w = append_file (T ++ [SUCCESS_MARK_FILENAME]) (ctime (environ w)) w.
Proof. reflexivity. Qed.


(** Filling a directory that does not exist yet succeeds; the last system
    call writes the success mark. *)
Lemma fill_run I D sub items w :
  stable (fills (D ++ [sub])) I → I w →
  is_dir (files w) D = true →
  (∀ q, (D ++ [sub]) `prefix_of` q → files w !! q = None) →
  budget w = None →
  ∃ w1, fill D sub items w =
          (Ok tt, do (Append (D ++ [sub; SUCCESS_MARK_FILENAME]) (ctime (environ w1))) w1) ∧
        I w1 ∧ budget w1 = None ∧
        legal (Append (D ++ [sub; SUCCESS_MARK_FILENAME]) (ctime (environ w1))) (files w1).
Proof.
  intros HI Hw HD Habs Hb. unfold fill.
  assert (D ++ [sub; SUCCESS_MARK_FILENAME] = (D ++ [sub]) ++ [SUCCESS_MARK_FILENAME])
    as -> by (by rewrite <- app_assoc).
  set (T := D ++ [sub]) in *.
  assert (legal (Mkdir T) (files w)) as Hlm.
  { split; [|by unfold T; rewrite parent_app].
    unfold T. rewrite node_at_app. by apply Habs. }
  rewrite bind_eq. unfold T at 1. rewrite ensure_fresh; [|apply Hlm|done|done].
  fold T.
  destruct (write_each_run I T items (do (Mkdir T) w)) as (w1 & Hrun & H1 & HT & Hch & Hb1).
  - done.
  - by apply HI.
  - apply is_dir_mkdir.
  - intros n. apply is_dir_false. simpl. rewrite node_at_app.
    rewrite lookup_insert_ne by (intros E; by apply (f_equal length) in E;
      rewrite length_app in E; simpl in E; lia).
    rewrite Habs; [done|]. by apply prefix_app_r.
  - by apply budget_do.
  - rewrite bind_eq, Hrun. exists w1.
    assert (legal (Append (T ++ [SUCCESS_MARK_FILENAME]) (ctime (environ w1))) (files w1)) as Hl.
    { split; [apply Hch|]. by rewrite parent_app. }
    rewrite write_success_eq, append_file_run by done. done.
Qed.

(** With names that are single components, [save_trainer_args] fills the
    directory of the trainer. *)
Lemma save_trainer_args_fill D trainer_id items w :
  plain_args items = true →
  save_trainer_args D trainer_id (Some items) w =
  fill D (trainer_folder trainer_id) items w.
Proof.
  intros H. unfold save_trainer_args, fill. rewrite get_trainer_dir_ensure, !bind_eq.
  destruct (ensure (D ++ [trainer_folder trainer_id]) w) as [[x|e] w1]; [|done].
  by rewrite !bind_eq, open_each_plain.
Qed.


(** The executor's run of the save operators is the loop that writes the
    values of the scope. *)
Lemma run_save_ops T (vars : list Var) w :
  (∀ v, v ∈ vars → is_Some (scope w !! name v)) →
  executor.run ((λ v, save_op (name v) (T ++ [name v])) <$> vars) w =
  for_each ((λ v, (name v, default EmptyString (scope w !! name v))) <$> vars)
    (λ item, write_file (T ++ [item.1]) item.2) w.
Proof.
  unfold executor.run.
  assert (∀ w', scope w' = scope w →
    (∀ v, v ∈ vars → is_Some (scope w !! name v)) →
    for_each ((λ v, save_op (name v) (T ++ [name v])) <$> vars) run_op w' =
    for_each ((λ v, (name v, default EmptyString (scope w !! name v))) <$> vars)
      (λ item, write_file (T ++ [item.1]) item.2) w') as H; [|by apply H].
  induction vars as [|v vars IH]; intros w' Hsc Hv; simpl; [done|].
  rewrite !bind_eq. unfold gets at 1. simpl. rewrite Hsc.
  destruct (Hv v) as [data Hdata]; [left|]. rewrite Hdata. simpl.
  destruct (write_file_cases (T ++ [name v]) data w') as [(e & He & ->)|(Hl & _ & ->)];
    [done|].
  apply IH; [done|]. intros v' Hv'. apply Hv. by right.
Qed.

Lemma save_vars_eq dirname main_program w :
  save_vars dirname main_program None _is_checkpoint_var w =
  executor.run ((λ v, save_op (name v) (dirname ++ [name v]))
                  <$> saved_vars (program_of main_program w)) w.
Proof. unfold save_vars. rewrite !bind_eq. by destruct main_program. Qed.

Lemma save_persist_fill D main_program w :
  (∀ v, v ∈ saved_vars (program_of main_program w) → is_Some (scope w !! name v)) →
  is_dir (files w) D = true →
  save_persist_vars_without_grad D main_program w =
  fill D MODEL_DIR (saved_items (scope w) (program_of main_program w)) w.
Proof.
  intros Hv HD. unfold save_persist_vars_without_grad, fill.
  rewrite get_model_dir_ensure, !bind_eq.
  pose proof (ensure_child_keeps (λ _, True) (λ w', scope w' = scope w ∧ environ w' = environ w)
                D MODEL_DIR w) as H.
  unfold wp in H.
  destruct (ensure (D ++ [MODEL_DIR]) w) as [[x|e] w1]; simpl in H; [|done].
  destruct H as [[Hsc Henv] [-> _]]; [by intros c w0 _ _ [??]|done..|].
  rewrite !bind_eq, save_vars_eq.
  assert (program_of main_program w1 = program_of main_program w) as ->.
  { destruct main_program; simpl; [done|]. by rewrite Henv. }
  rewrite run_save_ops by (by rewrite Hsc).
  unfold saved_items. by rewrite Hsc.
Qed.

End filling.

(* ===================================================================== *)
(** * The retention pass *)
(* ===================================================================== *)

Section retention.
Implicit Types (w : world) (root p q : path) (S : gset Z) (fs : gmap path node).

Global Instance descending_trans : Transitive descending.
Proof. intros a b c. unfold descending. lia. Qed.
Global Instance descending_antisymm : AntiSymm (=) descending.
Proof. intros a b. unfold descending. lia. Qed.
Global Instance descending_total : Total descending.
Proof. intros a b. unfold descending. lia. Qed.

Lemma lookup_rmtree fs p q :
  apply_syscall (Rmtree p) fs !! q = if decide (p `prefix_of` q) then None else fs !! q.
Proof.
  simpl. case_decide as Hp.
  - apply map_lookup_filter_None. right. intros x _ Hn. by apply Hn.
  - destruct (fs !! q) as [x|] eqn:E.
    + by apply map_lookup_filter_Some.
    + apply map_lookup_filter_None. by left.
Qed.

Lemma do_all_cons c l w : do_all (c :: l) w = do_all l (do c w).
Proof. reflexivity. Qed.

Lemma lookup_rmtrees (ps : list path) w q :
  files (do_all (Rmtree <$> ps) w) !! q =
    if decide (Exists (λ p, p `prefix_of` q) ps) then None else files w !! q.
Proof.
  revert w. induction ps as [|p ps IH]; intros w.
  - case_decide as He; [by apply Exists_nil in He|done].
  - rewrite fmap_cons, do_all_cons, IH.
    change (files (do ?c w)) with (apply_syscall c (files w)).
    rewrite lookup_rmtree.
    destruct (decide (p `prefix_of` q)) as [Hp|Hp].
    + rewrite (decide_True (P := Exists _ (p :: ps))) by (by left). by case_decide.
    + destruct (decide (Exists (λ p, p `prefix_of` q) ps)) as [He|He].
      * rewrite decide_True; [done|]. by right.
      * rewrite decide_False; [done|]. by intros [?|?]%Exists_cons.
Qed.

Lemma serial_dir_inj root x y : serial_dir root x = serial_dir root y → x = y.
Proof.
  unfold serial_dir. intros H%app_inv_head.
  apply (f_equal head) in H. cbn [head] in H. apply (inj Some) in H.
  by apply serial_folder_inj.
Qed.

Lemma serial_dir_prefix root x y :
  serial_dir root x `prefix_of` serial_dir root y → x = y.
Proof.
  intros [k Hk]. apply (serial_dir_inj root).
  assert (k = []) as ->; [|by rewrite app_nil_r in Hk].
  apply (f_equal length) in Hk. unfold serial_dir in Hk.
  rewrite !length_app in Hk. simpl in Hk. destruct k; [done|simpl in Hk; lia].
Qed.

Lemma serial_dir_not_prefix_root root x : ¬ serial_dir root x `prefix_of` root.
Proof.
  intros [k Hk]. apply (f_equal length) in Hk. unfold serial_dir in Hk.
  rewrite !length_app in Hk. simpl in Hk. lia.
Qed.

Lemma serial_dir_prefix_entry root x n :
  serial_dir root x `prefix_of` root ++ [n] → n = serial_folder x.
Proof.
  intros [k Hk]. assert (k = []) as ->.
  { apply (f_equal length) in Hk. unfold serial_dir in Hk.
    rewrite !length_app in Hk. simpl in Hk. destruct k; [done|simpl in Hk; lia]. }
  rewrite app_nil_r in Hk. unfold serial_dir in Hk. apply app_inv_head in Hk.
  apply (f_equal head) in Hk. cbn [head] in Hk. by apply (inj Some) in Hk.
Qed.

Lemma closed_rmtree fs p : closed fs → closed (apply_syscall (Rmtree p) fs).
Proof.
  intros Hfs q n [x Hx]. rewrite lookup_rmtree in Hx.
  case_decide as Hp; [done|].
  assert (is_dir fs q = true) as Hq by (apply (Hfs q n); eauto).
  apply is_dir_true. apply is_dir_true in Hq.
  destruct q as [|a q]; [done|]. simpl in *. rewrite <- Hq.
  change (filter _ fs) with (apply_syscall (Rmtree p) fs).
  rewrite lookup_rmtree, decide_False; [done|].
  intros Hpq. apply Hp. by apply (prefix_app_r p (a :: q) [n]).
Qed.

Lemma closed_rmtrees (ps : list path) w :
  closed (files w) → closed (files (do_all (Rmtree <$> ps) w)).
Proof.
  revert w. induction ps as [|p ps IH]; intros w Hw; [done|].
  rewrite fmap_cons, do_all_cons. apply IH. by apply closed_rmtree.
Qed.

Lemma budget_do_all l w : budget w = None → budget (do_all l w) = None.
Proof.
  revert w. induction l as [|c l IH]; intros w Hw; [done|].
  rewrite do_all_cons. by apply IH, budget_do.
Qed.

Lemma scope_do_all l w : scope (do_all l w) = scope w.
Proof. revert w. induction l as [|c l IH]; intros w; [done|]. by rewrite do_all_cons, IH. Qed.

Lemma environ_do_all l w : environ (do_all l w) = environ w.
Proof. revert w. induction l as [|c l IH]; intros w; [done|]. by rewrite do_all_cons, IH. Qed.

Lemma trace_do_all l w : trace (do_all l w) = trace w ++ l.
Proof.
  revert w. induction l as [|c l IH]; intros w; [by rewrite app_nil_r|].
  rewrite do_all_cons, IH. simpl. by rewrite <- app_assoc.
Qed.

(** Removing the directories of the serials [xs]. *)
Lemma rmtree_each_run root (xs : list Z) w :
  NoDup xs →
  (∀ x, x ∈ xs → is_dir (files w) (serial_dir root x) = true) →
  budget w = None →
  for_each xs (λ serial, cur_dir ← _get_serial_dir root serial; shutil.rmtree cur_dir) w =
    (Ok tt, do_all (Rmtree <$> (serial_dir root <$> xs)) w).
Proof.
  revert w. induction xs as [|x xs IH]; intros w Hnd Hd Hb; [done|].
  apply NoDup_cons in Hnd as [Hx Hnd].
  cbn [for_each]. rewrite !bind_eq, get_serial_dir_ensure.
  fold (serial_dir root x). rewrite ensure_present by (apply Hd; left).
  rewrite rmtree_run; [|apply Hd; left|done].
  rewrite !fmap_cons, do_all_cons. apply IH; [done| |by apply budget_do].
  intros y Hy. apply is_dir_true. rewrite node_at_ne by (by destruct root).
  change (files (do ?c w)) with (apply_syscall c (files w)).
  rewrite lookup_rmtree, decide_False.
  - rewrite <- (node_at_ne _ (serial_dir root y)) by (by destruct root).
    apply is_dir_true, Hd. by right.
  - intros ->%serial_dir_prefix. done.
Qed.

(** The file system after the directories of [xs] are removed. *)
Lemma serial_root_retire w root S (xs : list Z) :
  serial_root (files w) root S →
  serial_root (files (do_all (Rmtree <$> (serial_dir root <$> xs)) w)) root
    (S ∖ list_to_set xs).
Proof.
  intros Hroot.
  assert (∀ q, ¬ Exists (λ p, p `prefix_of` q) (serial_dir root <$> xs) ↔
               ∀ x, x ∈ xs → ¬ serial_dir root x `prefix_of` q) as Hex.
  { intros q. rewrite Exists_exists. split.
    - intros H x Hx Hp. apply H. exists (serial_dir root x). split; [|done].
      apply list_elem_of_fmap. eauto.
    - intros H (p & Hp & Hpq). apply list_elem_of_fmap in Hp as (x & -> & Hx).
      by apply (H x). }
  split.
  - apply is_dir_true. destruct root as [|a root]; [done|].
    simpl. rewrite lookup_rmtrees, decide_False.
    + pose proof (root_is_dir _ _ _ Hroot) as H. by apply is_dir_true in H.
    + apply Hex. intros x _. apply serial_dir_not_prefix_root.
  - intros n. rewrite lookup_rmtrees. case_decide as He.
    + split; [by intros [? ?]|]. intros (x & Hx & ->).
      apply Exists_exists in He as (p & Hp & Hpq).
      apply list_elem_of_fmap in Hp as (y & -> & Hy).
      apply serial_dir_prefix_entry, serial_folder_inj in Hpq as ->. set_solver.
    + rewrite (root_entries _ _ _ Hroot). split.
      * intros (x & Hx & ->). exists x. split; [|done].
        apply elem_of_difference. split; [done|]. intros Hin%elem_of_list_to_set.
        apply He, Exists_exists. exists (serial_dir root x). split; [|done].
        apply list_elem_of_fmap. eauto.
      * intros (x & Hx & ->). exists x. split; [set_solver|done].
  - intros x [Hx Hnx]%elem_of_difference. rewrite lookup_rmtrees, decide_False.
    + by apply (root_serial_dirs _ _ _ Hroot).
    + apply Hex. intros y Hy ->%serial_dir_prefix. apply Hnx. by apply elem_of_list_to_set.
Qed.

Lemma complete_retire w root (xs : list Z) x :
  x ∉ xs →
  complete (files (do_all (Rmtree <$> (serial_dir root <$> xs)) w)) root x ↔
  complete (files w) root x.
Proof.
  intros Hx. unfold complete, is_file.
  assert (success_path root x ≠ []) as Hne by (unfold success_path; by destruct root).
  rewrite !node_at_ne by done. rewrite lookup_rmtrees, decide_False; [done|].
  intros (p & Hp & Hpq)%Exists_exists.
  apply list_elem_of_fmap in Hp as (y & -> & Hy).
  assert (serial_dir root y `prefix_of` serial_dir root x) as ->%serial_dir_prefix; [|done].
  destruct Hpq as [k Hk]. unfold success_path, serial_dir in *.
  rewrite <- app_assoc in Hk. apply app_inv_head in Hk.
  apply (f_equal head) in Hk. cbn [head app] in Hk. apply (inj Some) in Hk.
  by rewrite Hk.
Qed.

End retention.

Section scroll_delete.
Implicit Types (w : world) (root p q : path) (S : gset Z) (fs : gmap path node).

Lemma slice_from_sublist {A} k (l : list A) : Py.slice_from k l `sublist_of` l.
Proof. unfold Py.slice_from. case_decide; apply sublist_drop. Qed.

Lemma retired_NoDup k S : NoDup (retired k S).
Proof.
  unfold retired. case_decide; [constructor|].
  eapply sublist_NoDup; [|apply slice_from_sublist].
  rewrite merge_sort_Permutation. apply NoDup_elements.
Qed.

Lemma retired_elem_of k S x : x ∈ retired k S → x ∈ S.
Proof.
  unfold retired. case_decide; [by intros ?%elem_of_nil|].
  intros Hx. eapply elem_of_sublist in Hx; [|apply slice_from_sublist].
  rewrite merge_sort_Permutation in Hx. by apply elem_of_elements in Hx.
Qed.

Lemma sorted_serials_dom (m : gmap Z string) :
  sorted_serials m = merge_sort descending (elements (dom m)).
Proof.
  unfold sorted_serials.
  apply (Sorted_unique descending); [apply Sorted_merge_sort, _..|].
  rewrite !merge_sort_Permutation.
  rewrite (dom_alt m). symmetry. apply elements_list_to_set, NoDup_fst_map_to_list.
Qed.

(** The loop that fills [serial_map] on a root of serial directories. *)
Lemma serial_map_run w root S l :
  (∀ n, n ∈ l ↔ ∃ x, x ∈ S ∧ n = serial_folder x) →
  ∃ m : gmap Z string,
    for_fold l (λ (serial_map : gmap Z string) serial,
                  serial_num ← _get_dir_serial serial;
                  ret (<[serial_num := serial]> serial_map)) ∅ w = (Ok m, w) ∧
    dom m = S.
Proof.
  intros Hin.
  set (body := λ (serial_map : gmap Z string) serial,
                 serial_num ← _get_dir_serial serial;
                 ret (<[serial_num := serial]> serial_map)).
  assert (wp (for_fold l body ∅)
            (λ r w', match r with
                     | Ok m => w' = w ∧ ∀ x, x ∈ dom m ↔ serial_folder x ∈ l
                     | Raise _ => False
                     end) w) as H.
  { apply (wp_for_fold (λ done m w', w' = w ∧ ∀ x, x ∈ dom m ↔ serial_folder x ∈ done)
                       (λ _ _, False)).
    - split; [done|]. intros x. rewrite dom_empty_L. set_solver.
    - intros done n rest m w0 E [-> Hm].
      assert (n ∈ l) as Hn by (rewrite E; apply elem_of_app; right; left).
      apply Hin in Hn as (x & Hx & ->).
      unfold body. apply wp_bind. unfold wp.
      rewrite get_dir_serial_eq, dir_serial_folder. simpl. split; [done|].
      intros y. rewrite dom_insert_L, elem_of_union, elem_of_singleton, Hm, elem_of_app,
        list_elem_of_singleton.
      split.
      + intros [->|H]; auto.
      + intros [H|H%serial_folder_inj]; auto. }
  unfold wp in H. destruct (for_fold l body ∅ w) as [[m|e] w']; simpl in H; [|done].
  destruct H as [-> Hm]. exists m. split; [done|].
  apply set_eq. intros x. rewrite Hm, Hin. split.
  - by intros (y & Hy & ->%serial_folder_inj).
  - eauto.
Qed.

(** On a root of serial directories the retention pass removes the
    directories of the retired serials, in order. *)
Lemma scroll_delete_run w root S k :
  serial_root (files w) root S → budget w = None →
  _scroll_delete root k w =
    (Ok tt, do_all (Rmtree <$> (serial_dir root <$> retired k S)) w).
Proof.
  intros Hroot Hb. unfold _scroll_delete.
  destruct (listdir_run root w (root_is_dir _ _ _ Hroot)) as (l & Hl & Hperm).
  rewrite bind_eq, Hl.
  pose proof (serial_root_listing _ _ _ _ Hroot Hperm) as Hin.
  destruct (serial_map_run w root S l Hin) as (m & Hm & Hdom).
  rewrite bind_eq, Hm. rewrite <- size_dom, Hdom.
  pose proof (retired_NoDup k S) as Hnd.
  pose proof (retired_elem_of k S) as Hel.
  unfold retired in *. case_decide; [done|].
  rewrite sorted_serials_dom, Hdom.
  apply rmtree_each_run; [done|intros x Hx%Hel|done].
  - apply is_dir_true. unfold serial_dir. rewrite node_at_app.
    by apply (root_serial_dirs _ _ _ Hroot).
Qed.


End scroll_delete.

(* ===================================================================== *)
(** * A save on a settled root *)
(* ===================================================================== *)

Section building.
Implicit Types (w : world) (root D p q : path) (S : gset Z) (fs : gmap path node).

Lemma fills_under D sub c : fills (D ++ [sub]) c → under D c.
Proof.
  destruct c; simpl; try done.
  - intros ->. split; [done|]. by apply prefix_app_r.
  - intros [n ->]. split; [done|]. rewrite <- app_assoc. by apply prefix_app_r.
  - intros [n ->]. split; [done|]. rewrite <- app_assoc. by apply prefix_app_r.
Qed.

Lemma built_stable w0 D : stable (under D) (built w0 D).
Proof.
  intros c w [Hc HD] Hl [H1 H2 H3 H4 H5 [l [H6 H7]]]. split; simpl.
  - by apply closed_create.
  - intros q Hq. rewrite lookup_create; [by apply H2|done|]. by intros <-.
  - done.
  - done.
  - by apply is_dir_create.
  - exists (l ++ [c]). split; [by rewrite H6, <- app_assoc|].
    apply Forall_app. split; [done|]. by constructor.
Qed.

Lemma trainer_folder_ne_model trainer_id : trainer_folder trainer_id ≠ MODEL_DIR.
Proof. done. Qed.

(** Two different entries of a directory have disjoint subtrees. *)
Lemma entry_prefix_ne D a b q : a ≠ b → (D ++ [a]) `prefix_of` q → ¬ (D ++ [b]) `prefix_of` q.
Proof.
  intros Hab [k ->] [k' Hk]. rewrite <- !app_assoc in Hk.
  apply app_inv_head in Hk. simpl in Hk. congruence.
Qed.

Lemma absent_stable D a b :
  a ≠ b →
  stable (fills (D ++ [a])) (λ w, ∀ q, (D ++ [b]) `prefix_of` q → files w !! q = None).
Proof.
  intros Hab c w Hc Hl H q Hq. simpl.
  rewrite lookup_create; [by apply H|..].
  - by apply (fills_under D a c).
  - intros <-. eapply (entry_prefix_ne D a b); [done| |done].
    destruct c; simpl in *; try done.
    + by subst.
    + destruct Hc as [n ->]. by apply prefix_app_r.
    + destruct Hc as [n ->]. by apply prefix_app_r.
Qed.

Lemma success_path_eq root x :
  success_path root x = serial_dir root x ++ [MODEL_DIR; SUCCESS_MARK_FILENAME].
Proof. unfold success_path, serial_dir. by rewrite <- app_assoc. Qed.

(** The root of serial directories when the directory of serial [x] has
    been added, the rest of the file system left as it was. *)
Lemma serial_root_add fs0 fs root S x :
  serial_root fs0 root S →
  (∀ q, ¬ serial_dir root x `prefix_of` q → fs !! q = fs0 !! q) →
  fs !! serial_dir root x = Some Dir →
  serial_root fs root (S ∪ {[x]}).
Proof.
  intros Hroot Hagree HD. unfold serial_dir in HD.
  assert (∀ n, n ≠ serial_folder x → fs !! (root ++ [n]) = fs0 !! (root ++ [n])) as Hout.
  { intros n Hn. apply Hagree. intros H%serial_dir_prefix_entry. done. }
  split.
  - apply is_dir_true. destruct root as [|a root]; [done|]. simpl.
    rewrite Hagree by apply serial_dir_not_prefix_root.
    pose proof (root_is_dir _ _ _ Hroot) as H. by apply is_dir_true in H.
  - intros n. destruct (decide (n = serial_folder x)) as [->|Hn].
    + split; [|intros _; exists Dir; exact HD].
      intros _. exists x. split; [set_solver|done].
    + rewrite Hout by done. rewrite (root_entries _ _ _ Hroot). split.
      * intros (y & Hy & ->). exists y. split; [set_solver|done].
      * intros (y & [Hy|Hy%elem_of_singleton]%elem_of_union & ->);
          [eauto|by subst].
  - intros y [Hy|Hy%elem_of_singleton]%elem_of_union.
    + destruct (decide (y = x)) as [->|Hne]; [done|].
      rewrite Hout; [by apply (root_serial_dirs _ _ _ Hroot)|].
      by intros ?%serial_folder_inj.
    + by subst.
Qed.


Lemma complete_outside fs0 fs root x y :
  (∀ q, ¬ serial_dir root x `prefix_of` q → fs !! q = fs0 !! q) → y ≠ x →
  complete fs root y ↔ complete fs0 root y.
Proof.
  intros Hagree Hne. unfold complete, is_file.
  assert (success_path root y ≠ []) as H by (unfold success_path; by destruct root).
  rewrite !node_at_ne by done. rewrite Hagree; [done|].
  intros Hp. apply Hne. symmetry. apply (serial_dir_prefix root).
  rewrite success_path_eq in Hp. destruct Hp as [k Hk].
  unfold serial_dir in *. rewrite <- !app_assoc in Hk. apply app_inv_head in Hk.
  apply (f_equal head) in Hk. cbn [head app] in Hk. apply (inj Some) in Hk.
  by rewrite Hk.
Qed.

Lemma built_serial_root w0 w root S x :
  serial_root (files w0) root S → built w0 (serial_dir root x) w →
  serial_root (files w) root (S ∪ {[x]}).
Proof.
  intros Hroot Hb. apply (serial_root_add (files w0)); [done|apply Hb|].
  pose proof (built_dir _ _ _ Hb) as H. apply is_dir_true in H.
  unfold serial_dir in *. by rewrite node_at_app in H.
Qed.


End building.

Global Arguments get_latest_checkpoint_serial : simpl never.
Global Arguments _scroll_delete : simpl never.
Global Arguments save_trainer_args : simpl never.
Global Arguments save_persist_vars_without_grad : simpl never.
Global Arguments ensure : simpl never.

Section save_run.
Implicit Types (w : world) (root D p q : path) (S : gset Z) (fs : gmap path node).

Lemma settled_fresh fs root S v :
  settled fs root S v → fs !! serial_dir root (v + 1) = None.
Proof.
  intros Hs. destruct (fs !! serial_dir root (v + 1)) as [x|] eqn:E; [|done].
  assert (is_Some (fs !! (root ++ [serial_folder (v + 1)]))) as H by eauto.
  apply (root_entries _ _ _ (settled_root _ _ _ _ Hs)) in H as (y & Hy & Heq).
  apply serial_folder_inj in Heq as <-.
  pose proof (settled_top _ _ _ _ Hs _ Hy). lia.
Qed.

(** A save on a settled root allocates the serial after the latest one,
    builds its directory and then runs the retention pass: [w1] is the world
    before the retention pass. *)
Lemma save_checkpoint_run w root S v trainer_id items main_program k :
  settled (files w) root S v → budget w = None → plain_args items = true →
  (trainer_id = 0 →
   ∀ x, x ∈ saved_vars (program_of main_program w) → is_Some (scope w !! name x)) →
  ∃ w1, built w (serial_dir root (v + 1)) w1 ∧ budget w1 = None ∧
        (complete (files w1) root (v + 1) ↔ trainer_id = 0) ∧
        (trainer_id = 0 →
         ∃ l, trace w1 =
                trace w ++ l ++ [Append (success_path root (v + 1)) (ctime (environ w))]) ∧
        save_checkpoint (Some root) trainer_id (Some items) main_program k w =
          (Ok tt, do_all (Rmtree <$> (serial_dir root <$> retired k (S ∪ {[v + 1]}))) w1).
Proof.
  intros Hs Hb Hplain Hvars.
  pose proof (settled_root _ _ _ _ Hs) as Hroot.
  set (D := serial_dir root (v + 1)).
  assert (files w !! D = None) as HDabs by by apply settled_fresh with S.
  assert (D ≠ []) as HDne by (unfold D, serial_dir; by destruct root).
  (* the serial directory *)
  set (wa := do (Mkdir D) w).
  assert (legal (Mkdir D) (files w)) as Hla.
  { split; [by rewrite node_at_ne|]. unfold D, serial_dir.
    rewrite parent_app. apply (root_is_dir _ _ _ Hroot). }
  assert (built w D wa) as Hba.
  { split; simpl.
    - apply (closed_create (Mkdir D)); [done..|]. apply (settled_closed _ _ _ _ Hs).
    - intros q Hq. apply lookup_insert_ne. by intros <-.
    - done.
    - done.
    - apply is_dir_mkdir.
    - exists [Mkdir D]. split; [done|]. constructor; [|done]. by split. }
  assert (∀ sub q, (D ++ [sub]) `prefix_of` q → files wa !! q = None) as Habs.
  { intros sub q Hq. simpl. rewrite lookup_insert_ne.
    - apply (closed_absent _ D); [apply (settled_closed _ _ _ _ Hs)|done..|].
      etrans; [|done]. by apply prefix_app_r.
    - intros <-. destruct Hq as [k' Hk']. apply (f_equal length) in Hk'.
      rewrite !length_app in Hk'. simpl in Hk'. lia. }
  (* the trainer arguments *)
  destruct (fill_run
              (λ w', built w D w' ∧
                     ∀ q, (D ++ [MODEL_DIR]) `prefix_of` q → files w' !! q = None)
              D (trainer_folder trainer_id) items wa)
    as (wb & Hfill & [Hbb Hbabs] & Hbbud & Hlb).
  { apply stable_and.
    - eapply stable_weaken; [|apply built_stable]. apply fills_under.
    - apply absent_stable. apply trainer_folder_ne_model. }
  { split; [done|]. apply Habs. }
  { apply is_dir_mkdir. }
  { apply Habs. }
  { by apply budget_do. }
  set (T := D ++ [trainer_folder trainer_id; SUCCESS_MARK_FILENAME]) in *.
  set (wc := do (Append T (ctime (environ wb))) wb) in *.
  assert (fills (D ++ [trainer_folder trainer_id]) (Append T (ctime (environ wb)))) as Hfc.
  { exists SUCCESS_MARK_FILENAME. unfold T. by rewrite <- app_assoc. }
  assert (built w D wc) as Hbc.
  { apply built_stable; [by apply (fills_under D (trainer_folder trainer_id))|done..]. }
  assert (∀ q, (D ++ [MODEL_DIR]) `prefix_of` q → files wc !! q = None) as Hcabs.
  { apply (absent_stable D (trainer_folder trainer_id) MODEL_DIR
             (trainer_folder_ne_model trainer_id) _ wb Hfc Hlb Hbabs). }
  assert (budget wc = None) as Hcbud by by apply budget_do.
  (* the head of the function *)
  destruct (latest_serial_root w root S Hroot) as (v' & Hlatest & Hv').
  assert (v' = v) as ->.
  { eapply is_latest_unique; [done|]. apply (settled_latest _ _ _ _ Hs). }
  assert (∀ rest : M unit,
    save_checkpoint (Some root) trainer_id (Some items) main_program k w =
    ((if bool_decide (trainer_id = 0)
      then save_persist_vars_without_grad D main_program else ret tt);;
     _scroll_delete root k) wc) as Hhead.
  { intros _. unfold save_checkpoint, os.isdir, gets.
    rewrite bind_eq, (root_is_dir _ _ _ Hroot). simpl. rewrite !bind_eq.
    simpl. rewrite bind_eq, Hlatest. rewrite bind_eq, get_serial_dir_ensure.
    fold (serial_dir root (v + 1)). fold D. unfold D at 1, serial_dir at 1.
    rewrite ensure_fresh; [|by rewrite node_at_app|apply (root_is_dir _ _ _ Hroot)|done].
    fold (serial_dir root (v + 1)). fold D. fold wa.
    rewrite bind_eq, save_trainer_args_fill, Hfill by done. done. }
  rewrite (Hhead (ret tt)). clear Hhead.
  assert (success_path root (v + 1) = D ++ [MODEL_DIR; SUCCESS_MARK_FILENAME]) as Hsp
    by apply success_path_eq.
  case_bool_decide as Htid.
  - (* the chief writes the model directory *)
    assert (program_of main_program wc = program_of main_program w) as Hprog.
    { destruct main_program; [done|]. simpl. by rewrite (built_environ _ _ _ Hbb). }
    rewrite bind_eq, save_persist_fill; cycle 1.
    { rewrite Hprog. simpl. rewrite (built_scope _ _ _ Hbb). by apply Hvars. }
    { apply (built_dir _ _ _ Hbc). }
    destruct (fill_run (built w D) D MODEL_DIR
                (saved_items (scope wc) (program_of main_program wc)) wc)
      as (wd & Hfill2 & Hbd & Hdbud & Hld).
    { eapply stable_weaken; [|apply built_stable]. apply fills_under. }
    { done. }
    { apply (built_dir _ _ _ Hbc). }
    { done. }
    { done. }
    rewrite Hfill2. rewrite <- Hsp.
    set (we := do (Append (success_path root (v + 1)) (ctime (environ wd))) wd).
    assert (built w D we) as Hbe.
    { apply built_stable; [|by rewrite Hsp|done]. split; [done|]. simpl.
      rewrite Hsp. by apply prefix_app_r. }
    exists we. split; [done|]. split; [by apply budget_do|]. split; [|split].
    + split; [done|]. intros _. unfold complete. apply is_file_true.
      rewrite node_at_ne by (rewrite Hsp; by destruct D). simpl.
      rewrite lookup_insert_eq. eauto.
    + intros _. destruct (built_trace _ _ _ Hbd) as (l & Hl & _). exists l.
      simpl. by rewrite Hl, (built_environ _ _ _ Hbd), <- app_assoc.
    + apply scroll_delete_run; [|by apply budget_do].
      by apply (built_serial_root w).
  - (* another trainer is done *)
    rewrite bind_eq. simpl. exists wc. split; [done|]. split; [done|]. split; [|split].
    + split; [|done]. unfold complete. intros H. apply is_file_true in H as [c Hc].
      rewrite node_at_ne in Hc by (rewrite Hsp; by destruct D).
      rewrite Hsp, Hcabs in Hc; [done|].
      exists [SUCCESS_MARK_FILENAME]. by rewrite <- app_assoc.
    + done.
    + apply scroll_delete_run; [|done]. by apply (built_serial_root w).
Qed.

End save_run.

(* ===================================================================== *)
(** * Which serials the retention pass keeps *)
(* ===================================================================== *)

Section retired.
Implicit Types (S : gset Z) (k x : Z).

Lemma elem_of_drop_sorted (l : list Z) (n : nat) x :
  StronglySorted descending l → NoDup l →
  x ∈ drop n l ↔ x ∈ l ∧ (n ≤ length (filter (λ y, (x < y)%Z) l))%nat.
Proof.
  intros Hs Hnd. revert n. induction l as [|h t IH]; intros n.
  - rewrite drop_nil. split; [by intros ?%elem_of_nil|by intros [?%elem_of_nil _]].
  - apply StronglySorted_inv in Hs as [Hs Hh]. apply NoDup_cons in Hnd as [Hht Hnd].
    assert (∀ y, y ∈ t → y < h) as Hlt.
    { intros y Hy. rewrite Forall_forall in Hh. specialize (Hh y Hy).
      unfold descending in Hh. assert (y ≠ h) by (by intros ->). lia. }
    destruct n as [|n].
    + rewrite drop_0. split; [intros H; split; [done|lia]|by intros []].
    + simpl. rewrite (IH Hs Hnd). split.
      * intros [Hx Hn]. split; [by right|].
        rewrite filter_cons_True by auto. simpl. lia.
      * intros [Hx Hn]. apply elem_of_cons in Hx as [->|Hx].
        -- exfalso. rewrite filter_cons_False in Hn by lia.
           assert (filter (λ y, h < y) t = []) as E.
           { destruct (filter (λ y, h < y) t) as [|y l'] eqn:E; [done|].
             assert (y ∈ filter (λ y, h < y) t) as Hy by (rewrite E; left).
             apply list_elem_of_filter in Hy as [Hy1 Hy2].
             specialize (Hlt y Hy2). lia. }
           rewrite E in Hn. simpl in Hn. lia.
        -- split; [done|]. rewrite filter_cons_True in Hn by auto. simpl in Hn. lia.
Qed.

Lemma size_filter_elements (P : Z → Prop) `{!∀ x, Decision (P x)} S :
  size (filter P S) = length (filter P (elements S)).
Proof.
  unfold size, set_size. simpl. apply Permutation_length, NoDup_Permutation.
  - apply NoDup_elements.
  - apply NoDup_filter, NoDup_elements.
  - intros x. rewrite elem_of_elements, elem_of_filter, list_elem_of_filter,
      elem_of_elements. done.
Qed.

Lemma retired_drop k S :
  0 ≤ k → retired k S = drop (Z.to_nat k) (merge_sort descending (elements S)).
Proof.
  intros Hk. unfold retired, Py.slice_from.
  case_decide as Hsz; [|by rewrite decide_True]. symmetry. apply drop_ge.
  rewrite (Permutation_length (merge_sort_Permutation _ _)).
  change (length (elements S)) with (size S). lia.
Qed.

(** The retired serials are those with at least [k] serials above them: the
    retention pass keeps exactly the [k] highest. *)
Lemma elem_of_retired k S x :
  0 ≤ k →
  x ∈ retired k S ↔ x ∈ S ∧ k ≤ Z.of_nat (size (filter (λ y, x < y) S)).
Proof.
  intros Hk. rewrite retired_drop by done.
  rewrite elem_of_drop_sorted.
  - rewrite merge_sort_Permutation, elem_of_elements, size_filter_elements.
    split; intros [? ?]; (split; [done|lia]).
  - apply StronglySorted_merge_sort; apply _.
  - rewrite merge_sort_Permutation. apply NoDup_elements.
Qed.

Lemma elem_of_retained k S x :
  0 ≤ k →
  x ∈ retained k S ↔ x ∈ S ∧ Z.of_nat (size (filter (λ y, x < y) S)) < k.
Proof.
  intros Hk. unfold retained.
  rewrite elem_of_difference, elem_of_list_to_set, elem_of_retired by done.
  split; [intros [? H]; split; [done|]|intros [? ?]; split; [done|intros [_ ?]; lia]].
  destruct (decide (Z.of_nat (size (filter (λ y : Z, x < y) S)) < k)); [done|].
  exfalso. apply H. split; [done|lia].
Qed.

(** With room for one checkpoint or more, the highest serial stays. *)
Lemma retained_top k S x :
  1 ≤ k → x ∈ S → (∀ y, y ∈ S → y ≤ x) → x ∈ retained k S.
Proof.
  intros Hk Hx Hmax. apply elem_of_retained; [lia|]. split; [done|].
  assert (filter (λ y, x < y) S = ∅) as ->.
  { apply set_eq. intros y. rewrite elem_of_filter. split; [|by intros ?%elem_of_empty].
    intros [Hlt Hy]. specialize (Hmax y Hy). lia. }
  rewrite size_empty. lia.
Qed.

Lemma retained_zero S : retained 0 S = ∅.
Proof.
  apply set_eq. intros x. rewrite elem_of_retained by done.
  split; [lia|by intros ?%elem_of_empty].
Qed.

Lemma retained_subseteq k S : retained k S ⊆ S.
Proof. unfold retained. set_solver. Qed.





End retired.

(* ===================================================================== *)
(** * Chief saves on a settled root *)
(* ===================================================================== *)

Section chief_saves.
Implicit Types (w : world) (root : path) (S : gset Z) (k v : Z).

Lemma save_settled w root S v items main_program k :
  settled (files w) root S v → budget w = None → plain_args items = true → 0 ≤ k →
  (∀ x, x ∈ saved_vars (program_of main_program w) → is_Some (scope w !! name x)) →
  ∃ w', save_checkpoint (Some root) 0 (Some items) main_program k w = (Ok tt, w') ∧
        settled (files w') root (retained k (S ∪ {[v + 1]}))
          (if decide (k = 0) then -1 else v + 1) ∧
        budget w' = None ∧ scope w' = scope w ∧ environ w' = environ w ∧
        ∃ l, trace w' = trace w ++ l ∧
             Append (success_path root (v + 1)) (ctime (environ w)) ∈ l.
Proof.
  intros Hs Hb Hplain Hk Hvars.
  destruct (save_checkpoint_run w root S v 0 items main_program k Hs Hb Hplain)
    as (w1 & Hb1 & Hbud1 & Hc1 & Hlast & Hrun); [by intros _|].
  eexists. split; [exact Hrun|].
  set (S' := S ∪ {[v + 1]}) in *.
  pose proof (settled_latest _ _ _ _ Hs) as (Hv1 & Hv2 & Hv3).
  assert (∀ y, y ∈ S' → y ≤ v + 1) as Htop.
  { intros y [Hy|Hy%elem_of_singleton]%elem_of_union; [|lia].
    pose proof (settled_top _ _ _ _ Hs y Hy). lia. }
  assert (serial_root (files w1) root S') as Hroot1.
  { apply (built_serial_root w); [apply (settled_root _ _ _ _ Hs)|done]. }
  split; [|split; [by apply budget_do_all|split; [|split]]].
  - split.
    + apply (serial_root_retire _ _ _ _ Hroot1).
    + apply closed_rmtrees, (built_closed _ _ _ Hb1).
    + case_decide as Hk0.
      * subst k. rewrite retained_zero.
        split; [by left|]. split; [done|]. by intros x ?%elem_of_empty.
      * assert (v + 1 ∈ retained k S') as Hin.
        { apply retained_top; [lia|set_solver|done]. }
        split; [right; split; [done|]|split; [lia|]].
        -- apply complete_retire; [|by apply Hc1].
           intros Hr. unfold retained in Hin. set_solver.
        -- intros x Hx _. apply Htop. by apply (retained_subseteq k S').
    + intros x Hx. case_decide as Hk0.
      * subst k. rewrite retained_zero in Hx. by apply elem_of_empty in Hx.
      * apply Htop. by apply (retained_subseteq k S').
  - rewrite scope_do_all. apply (built_scope _ _ _ Hb1).
  - rewrite environ_do_all. apply (built_environ _ _ _ Hb1).
  - rewrite trace_do_all. destruct (Hlast eq_refl) as (l & Hl).
    eexists. rewrite Hl, <- !app_assoc. split; [done|].
    apply elem_of_app. right. apply elem_of_app. left. left.
Qed.

End chief_saves.

Section series.
Implicit Types (w : world) (root : path) (S : gset Z) (k v n : Z).



(** An empty checkpoint root is settled. *)
Lemma settled_empty (fs : gmap path node) root :
  closed fs → is_dir fs root = true → (∀ e : string, fs !! (root ++ [e]) = None) →
  settled fs root ∅ (-1).
Proof.
  intros Hc Hd He. split; [split|..]; try done.
  - intros e. rewrite He. split; [by intros [??]|]. by intros (x & ?%elem_of_empty & _).
  - split; [by left|]. split; [done|]. by intros x ?%elem_of_empty.
Qed.


End series.

(* ===================================================================== *)
(** * A save that stops before the success mark *)
(* ===================================================================== *)

Section stopping.
Implicit Types (w : world) (root D p q : path) (S : gset Z).







End stopping.

(* ===================================================================== *)
(** * What the functions do on any file system *)
(* ===================================================================== *)

Section anywhere.
Implicit Types (w : world) (root D p q : path) (φ : syscall → Prop) (I : world → Prop).


Lemma called_stable c w0 : stable (λ _, True) (called c w0).
Proof.
  intros c' w _ _ (l & H1 & H2). exists (l ++ [c']). simpl.
  split; [by rewrite H1, <- app_assoc|]. apply elem_of_app. by left.
Qed.

Lemma called_do c w : called c w (do c w).
Proof. exists [c]. split; [done|]. left. Qed.

Lemma called_trans c w0 w1 w2 :
  (∃ l, trace w1 = trace w0 ++ l) → called c w1 w2 → called c w0 w2.
Proof.
  intros (l1 & H1) (l2 & H2 & H3). exists (l1 ++ l2).
  split; [by rewrite H2, H1, <- app_assoc|]. apply elem_of_app. by right.
Qed.


(** The inner function of the resolution: it makes at most the directory of
    the serial it has parsed, and a directory entry with a serial has that
    directory afterwards. *)
Lemma has_success_keeps φ I root cur_dir w :
  stable φ I → (∀ x, φ (Mkdir (serial_dir root x))) →
  is_dir (files w) root = true → I w →
  wp (has_success root cur_dir)
     (λ r w', I w' ∧ match r with
                     | Ok _ =>
                         ∀ n, dir_serial cur_dir = Ok n → n ≠ -1 →
                              is_dir (files w) (root ++ [cur_dir]) = true →
                              is_dir (files w') (serial_dir root n) = true
                     | Raise e => e = ValueError ∨ env_error e
                     end) w.
Proof.
  intros HI Hφ Hroot Hw. unfold has_success. apply wp_bind. unfold wp at 1.
  rewrite get_dir_serial_eq.
  destruct (dir_serial cur_dir) as [n|e] eqn:E; simpl.
  2:{ split; [done|]. left. by apply dir_serial_error in E. }
  apply wp_bind, wp_gets.
  destruct (bool_decide (n = -1)) eqn:E1; simpl.
  { apply wp_ret. split; [done|]. intros n' [= <-] Hn. by apply bool_decide_eq_true in E1. }
  destruct (is_dir (files w) (root ++ [cur_dir])) eqn:E2; simpl.
  2:{ apply wp_ret. split; [done|]. by intros n' _ _ ?. }
  apply wp_bind. rewrite get_serial_dir_ensure.
  eapply wp_mono; [by apply (ensure_child_keeps φ I); [|apply (Hφ n)|..]|].
  intros [d|e] w1 [H1 H2]; [|split; [done|by right]]. destruct H2 as [-> H2].
  apply wp_bind, wp_gets.
  assert (∀ n', Ok n = Ok n' → n' ≠ -1 → true = true →
                is_dir (files w1) (serial_dir root n') = true) as H.
  { by intros n' [= <-] _ _. }
  by destruct (is_file (files w1) _); apply wp_ret.
Qed.

Lemma get_latest_keeps φ I root w :
  stable φ I → (∀ x, φ (Mkdir (serial_dir root x))) → I w →
  wp (get_latest_checkpoint_serial (Some root))
     (λ r w', I w' ∧ match r with
                     | Ok _ => True
                     | Raise e => e = ValueError ∨ env_error e
                     end) w.
Proof.
  intros HI Hφ Hw. unfold get_latest_checkpoint_serial. apply wp_bind, wp_gets.
  destruct (is_dir (files w) root) eqn:Hroot; simpl; [|by apply wp_ret].
  apply wp_bind. destruct (listdir_run root w Hroot) as (l & Hl & _).
  eapply wp_eq; [exact Hl|].
  set (φ' := λ c, ∃ x, c = Mkdir (serial_dir root x)).
  set (I' := λ w', I w' ∧ is_dir (files w') root = true).
  assert (stable φ' I') as HI'.
  { intros c w0 [x ->] Hleg [H1 H2]. split; [by apply HI|by apply is_dir_create]. }
  eapply wp_mono.
  { apply (wp_for_fold (λ _ _ w', I' w') (λ e w', I w' ∧ (e = ValueError ∨ env_error e)));
      [done|].
    intros done x rest cur w0 _ [H1 H2]. apply wp_bind.
    eapply wp_mono; [apply (has_success_keeps φ' I'); [done|by eexists|done|done]|].
    intros [s|e] w1 [[H3 H4] H5]; [|done]. by apply wp_ret. }
  intros [s|e] w1; [by intros [? _]|done].
Qed.

Lemma run_load_ops_keeps T (vars : list Var) w :
  wp (executor.run ((λ v, load_op (name v) (T ++ [name v])) <$> vars))
     (λ r w', files w' = files w ∧ trace w' = trace w ∧
              match r with Ok _ => True | Raise e => env_error e end) w.
Proof.
  unfold executor.run.
  assert (∀ w', files w' = files w → trace w' = trace w →
    wp (for_each ((λ v, load_op (name v) (T ++ [name v])) <$> vars) run_op)
       (λ r w'', files w'' = files w ∧ trace w'' = trace w ∧
                 match r with Ok _ => True | Raise e => env_error e end) w') as H;
    [|by apply H].
  induction vars as [|v vars IH]; intros w' Hf Ht; simpl; [done|].
  apply wp_bind, wp_bind, wp_gets.
  destruct (node_at (files w') (T ++ [name v])) as [[|data]|]; try (by apply wp_raise).
  unfold wp at 1. simpl. by apply IH.
Qed.

Lemma run_load_ops T (vars : list Var) w :
  (∀ v, v ∈ vars → is_file (files w) (T ++ [name v]) = true) →
  executor.run ((λ v, load_op (name v) (T ++ [name v])) <$> vars) w =
    (Ok tt, load_all T vars w).
Proof.
  unfold executor.run, load_all. revert w.
  induction vars as [|v vars IH]; intros w Hv; simpl; [done|].
  rewrite !bind_eq. unfold gets at 1. cbn [fst snd].
  assert (is_file (files w) (T ++ [name v]) = true) as Hf by (apply Hv; left).
  apply is_file_true in Hf as [data Hdata].
  rewrite Hdata.
  replace (content (files w) (T ++ [name v])) with data
    by (unfold content; by rewrite Hdata).
  apply IH.
  intros v' Hv'. simpl. apply Hv. by right.
Qed.


Lemma trace_load_all T vars w : trace (load_all T vars w) = trace w.
Proof.
  unfold load_all. revert w. induction vars as [|v vars IH]; intros w; [done|].
  simpl. by rewrite IH.
Qed.

Lemma load_vars_eq dirname main_program w :
  load_vars dirname main_program None _is_checkpoint_var w =
  executor.run ((λ v, load_op (name v) (dirname ++ [name v]))
                  <$> saved_vars (program_of main_program w)) w.
Proof. unfold load_vars. rewrite !bind_eq. by destruct main_program. Qed.


End anywhere.

(* ===================================================================== *)
(** * The claims *)
(* ===================================================================== *)

Section unrelated_entries.
Implicit Types (w : world) (e : env).

Lemma listdir_single p n w :
  is_dir (files w) p = true → entries (files w) p = [n] →
  os.listdir p w = (Ok [n], w).
Proof.
  intros Hd He. unfold os.listdir. rewrite Hd. do 2 f_equal.
  apply Permutation_singleton_r. rewrite <- He. apply reorder_perm.
Qed.

Lemma stray_root_dir entry : is_dir (stray_root entry) ckpt = true.
Proof.
  apply is_dir_true. unfold stray_root, ckpt. simpl.
  rewrite lookup_insert_ne by (intros E; by apply (f_equal length) in E).
  by rewrite lookup_insert_eq.
Qed.

Lemma stray_root_entries entry : entries (stray_root entry) ckpt = [entry].
Proof.
  apply Permutation_singleton_r. apply NoDup_Permutation.
  - apply NoDup_entries.
  - apply NoDup_singleton.
  - intros n. rewrite elem_of_entries, list_elem_of_singleton. unfold stray_root.
    destruct (decide (n = entry)) as [->|Hne].
    + rewrite lookup_insert_eq. split; [done|eauto].
    + rewrite lookup_insert_ne by (intros E%app_inv_head; congruence).
      rewrite lookup_insert_ne by (intros E; by apply (f_equal length) in E).
      rewrite lookup_empty. split; [by intros [??]|done].
Qed.

Lemma stray_root_closed entry : closed (stray_root entry).
Proof.
  intros p n [x Hx]. unfold stray_root in Hx.
  apply lookup_insert_Some in Hx as [[E _]|[_ Hx]].
  - apply app_inj_tail in E as [<- _]. apply stray_root_dir.
  - apply lookup_insert_Some in Hx as [[E _]|[_ Hx]]; [|by rewrite lookup_empty in Hx].
    unfold ckpt in E. destruct p as [|a [|b p]]; [done|discriminate E|discriminate E].
Qed.

(** Making a directory that is missing and removing it again leaves the file
    system as it was. *)
Lemma rmtree_mkdir (fs : gmap path node) D :
  closed fs → D ≠ [] → fs !! D = None →
  apply_syscall (Rmtree D) (apply_syscall (Mkdir D) fs) = fs.
Proof.
  intros Hc Hne Habs. apply map_eq. intros q. rewrite lookup_rmtree.
  case_decide as Hp.
  - symmetry. by apply (closed_absent fs D).
  - apply lookup_insert_ne. by intros <-.
Qed.

End unrelated_entries.

(** C5: [_get_dir_serial] raises [ValueError] on the name [notes.txt]: the
    name has no separator, [split] returns one piece, and the unpacking into
    two names fails outside the [try] that turns a bad number into -1. *)
Theorem get_dir_serial_notes_txt (w : world) :
  _get_dir_serial "notes.txt" w = (Raise ValueError, w).
Proof. by rewrite get_dir_serial_eq. Qed.

(** C1: on a checkpoint root whose only entry is the file [notes.txt], in
    whatever order the directory is listed, the resolution raises
    [ValueError] instead of returning -1. *)
Theorem latest_serial_stray_file (e : env) :
  get_latest_checkpoint_serial (Some ckpt) (initial (stray_root "notes.txt") e) =
    (Raise ValueError, initial (stray_root "notes.txt") e).
Proof.
  unfold get_latest_checkpoint_serial, os.isdir, gets.
  rewrite bind_eq. cbn [files initial]. rewrite stray_root_dir. cbn [negb].
  rewrite bind_eq, (listdir_single ckpt "notes.txt");
    [|apply stray_root_dir|apply stray_root_entries].
  cbn [for_fold]. rewrite bind_eq. unfold has_success at 1.
  by rewrite !bind_eq, get_dir_serial_eq.
Qed.

(** C3: on the same root the retention pass raises [ValueError] instead of
    skipping the entry and changing nothing. *)
Theorem scroll_delete_stray_file (e : env) :
  _scroll_delete ckpt 3 (initial (stray_root "notes.txt") e) =
    (Raise ValueError, initial (stray_root "notes.txt") e).
Proof.
  unfold _scroll_delete.
  rewrite bind_eq, (listdir_single ckpt "notes.txt");
    [|apply stray_root_dir|apply stray_root_entries].
  cbn [for_fold]. by rewrite !bind_eq, get_dir_serial_eq.
Qed.

(** C8: [clean_checkpoint] with [delete_dir=True] on a root that holds the
    unrelated file [train_log] returns normally and leaves the root and the
    file in place: the retention pass takes the name for serial -1, and the
    listing that follows is not empty, so [os.rmdir] is not called and
    nothing is raised. *)
Theorem clean_checkpoint_stray_file (e : env) :
  ∃ w', clean_checkpoint (Some ckpt) true (initial (stray_root "train_log") e) = (Ok tt, w') ∧
        files w' = stray_root "train_log" ∧
        is_dir (files w') ckpt = true ∧
        entries (files w') ckpt = ["train_log"%string].
Proof.
  set (w := initial (stray_root "train_log") e).
  set (D := ckpt ++ [serial_folder (-1)]).
  set (w2 := do (Rmtree D) (do (Mkdir D) w)).
  assert (files w2 = stray_root "train_log") as Hfiles.
  { apply rmtree_mkdir; [apply stray_root_closed|done|by vm_compute]. }
  assert (_scroll_delete ckpt 0 w = (Ok tt, w2)) as Hdel.
  { unfold _scroll_delete.
    rewrite bind_eq, (listdir_single ckpt "train_log");
      [|apply stray_root_dir|apply stray_root_entries].
    cbn [for_fold]. rewrite !bind_eq, get_dir_serial_eq.
    replace (dir_serial "train_log") with (Ok (-1) : result Z) by (by vm_compute).
    cbn [ret]. rewrite decide_False
      by (rewrite map_size_insert_None, map_size_empty by done; lia).
    replace (Py.slice_from 0 (sorted_serials (<[-1:="train_log"%string]> ∅)))
      with [-1] by (by vm_compute).
    cbn [for_each]. rewrite !bind_eq, get_serial_dir_ensure.
    rewrite ensure_fresh; [|by vm_compute|apply stray_root_dir|done].
    rewrite rmtree_run; [done|apply is_dir_mkdir|done]. }
  exists w2. rewrite Hfiles. split; [|split; [done|split]].
  - unfold clean_checkpoint. rewrite bind_eq, Hdel.
    rewrite bind_eq, (listdir_single ckpt "train_log"); [done|..]; rewrite Hfiles.
    + apply stray_root_dir.
    + apply stray_root_entries.
  - apply stray_root_dir.
  - apply stray_root_entries.
Qed.

(** On a root of serial directories [clean_checkpoint] removes them all, and
    with [delete_dir=True] the root after them. *)
Lemma clean_checkpoint_serial_root w root S :
  serial_root (files w) root S → root ≠ [] → budget w = None →
  clean_checkpoint (Some root) true w =
    (Ok tt, do (Rmdir root) (do_all (Rmtree <$> (serial_dir root <$> retired 0 S)) w)).
Proof.
  intros Hroot Hne Hb. unfold clean_checkpoint.
  rewrite bind_eq, (scroll_delete_run _ _ S) by done.
  set (w1 := do_all _ w).
  assert (serial_root (files w1) root ∅) as Hroot1.
  { pose proof (serial_root_retire w root S (retired 0 S) Hroot) as H.
    fold (retained 0 S) in H. by rewrite retained_zero in H. }
  assert (entries (files w1) root = []) as He.
  { destruct (entries (files w1) root) as [|n l] eqn:E; [done|].
    assert (n ∈ entries (files w1) root) as Hn by (rewrite E; left).
    apply elem_of_entries, (root_entries _ _ _ Hroot1) in Hn as (x & Hx & _).
    by apply elem_of_empty in Hx. }
  destruct (listdir_run root w1 (root_is_dir _ _ _ Hroot1)) as (l & Hl & Hperm).
  rewrite He in Hperm. apply Permutation_nil_r in Hperm as ->.
  rewrite bind_eq, Hl. unfold os.rmdir. destruct root as [|a root]; [done|].
  rewrite (root_is_dir _ _ _ Hroot1), He. simpl.
  apply sys_run. by apply budget_do_all.
Qed.

(** C6: [_is_checkpoint_var] is false for the three excluded types and for
    the three excluded substrings of the name, and the persistable flag
    otherwise; it is a function of the variable; it is false for a
    persistable [w@GRAD] and true for a plain persistable [w]. *)
Theorem is_checkpoint_var_spec (var : Var) :
  _is_checkpoint_var var =
    negb (bool_decide (type var ∈ [FEED_MINIBATCH; FETCH_LIST; RAW])) &&
    negb (Py.contains "@GRAD" (name var)) &&
    negb (Py.contains ".trainer_" (name var)) &&
    negb (Py.contains ".block" (name var)) &&
    persistable var ∧
  _is_checkpoint_var var = _is_checkpoint_var var ∧
  (∀ t, _is_checkpoint_var {| name := "w@GRAD"; type := t; persistable := true |} = false) ∧
  _is_checkpoint_var {| name := "w"; type := LOD_TENSOR; persistable := true |} = true.
Proof.
  split; [|split; [done|split; [by intros []|done]]].
  unfold _is_checkpoint_var. destruct var as [n t b]. simpl.
  destruct t; simpl;
    destruct (Py.contains "@GRAD" n), (Py.contains ".trainer_" n),
      (Py.contains ".block" n); done.
Qed.

Section loading.
Implicit Types (w : world) (root : path).

Lemma load_persist_eq D main_program w :
  is_dir (files w) (D ++ [MODEL_DIR]) = true →
  load_persist_vars_without_grad D main_program true w =
    executor.run ((λ v, load_op (name v) ((D ++ [MODEL_DIR]) ++ [name v]))
                    <$> saved_vars (program_of main_program w)) w.
Proof.
  intros Hd. unfold load_persist_vars_without_grad.
  rewrite bind_eq, get_model_dir_ensure, ensure_present by done.
  apply load_vars_eq.
Qed.

Lemma load_after_guards root s prog w :
  wp (cur_dir ← _get_serial_dir root s;
      load_persist_vars_without_grad cur_dir (Some prog) true)
     (λ r _, match r with Ok _ => True | Raise e => env_error e end) w.
Proof.
  apply wp_bind. rewrite get_serial_dir_ensure.
  eapply wp_mono; [by apply (ensure_keeps (λ _, True) (λ _, True))|].
  intros [d|e] w1 [_ H]; [|done]. destruct H as [-> _].
  unfold load_persist_vars_without_grad. apply wp_bind.
  rewrite get_model_dir_ensure.
  eapply wp_mono; [by apply (ensure_keeps (λ _, True) (λ _, True))|].
  intros [d|e] w2 [_ H]; [|done]. destruct H as [-> _].
  unfold wp at 1. rewrite load_vars_eq.
  pose proof (run_load_ops_keeps ((serial_dir root s) ++ [MODEL_DIR])
                (saved_vars (program_of (Some prog) w2)) w2) as H.
  unfold wp in H. unfold serial_dir in H.
  destruct (executor.run _ w2) as [[[]|e] w3]; simpl in *; [done|]. apply H.
Qed.

End loading.

(** C7: [load_checkpoint] raises [ValueError] exactly when the directory is
    [None], the serial is [None] or negative, or the program is [None], and
    then it leaves the world as it is; otherwise it loads the variables of
    the checkpoint from the files of the model directory of the serial, and
    the success mark plays no part in that. *)
Theorem load_checkpoint_spec checkpoint_dir serial main_program w :
  ((load_checkpoint checkpoint_dir serial main_program w).1 = Raise ValueError ↔
   checkpoint_dir = None ∨ serial = None ∨ (∃ s, serial = Some s ∧ s < 0) ∨
   main_program = None) ∧
  ((load_checkpoint checkpoint_dir serial main_program w).1 = Raise ValueError →
   (load_checkpoint checkpoint_dir serial main_program w).2 = w) ∧
  (∀ root s prog,
     checkpoint_dir = Some root → serial = Some s → 0 ≤ s → main_program = Some prog →
     is_dir (files w) (serial_dir root s) = true →
     is_dir (files w) (serial_dir root s ++ [MODEL_DIR]) = true →
     (∀ v, v ∈ saved_vars prog →
           is_file (files w) (serial_dir root s ++ [MODEL_DIR; name v]) = true) →
     load_checkpoint checkpoint_dir serial main_program w =
       (Ok tt, load_all (serial_dir root s ++ [MODEL_DIR]) (saved_vars prog) w)).
Proof.
  assert (checkpoint_dir = None ∨ serial = None ∨ (∃ s, serial = Some s ∧ s < 0) ∨
          main_program = None →
          load_checkpoint checkpoint_dir serial main_program w = (Raise ValueError, w)) as Hg.
  { unfold load_checkpoint. intros [-> | [-> | [(s & -> & Hs) | ->]]].
    - done.
    - by destruct checkpoint_dir.
    - destruct checkpoint_dir; [|done]. by rewrite bool_decide_eq_true_2.
    - destruct checkpoint_dir; [|done]. destruct serial; [|done]. by case_bool_decide. }
  assert ((load_checkpoint checkpoint_dir serial main_program w).1 = Raise ValueError →
          checkpoint_dir = None ∨ serial = None ∨ (∃ s, serial = Some s ∧ s < 0) ∨
          main_program = None) as Hv.
  { destruct checkpoint_dir as [root|]; [|by left].
    destruct serial as [s|]; [|by right; left].
    destruct (decide (s < 0)); [by right; right; left; eauto|].
    destruct main_program as [prog|]; [|by right; right; right].
    unfold load_checkpoint. rewrite bool_decide_eq_false_2 by done.
    pose proof (load_after_guards root s prog w) as H. unfold wp in H.
    intros E. rewrite E in H. by destruct H. }
  split; [split; [done|intros H; by rewrite Hg]|]. split.
  - intros H. by rewrite Hg by auto.
  - intros root s prog -> -> Hs -> HD HM Hfiles. unfold load_checkpoint.
    rewrite bool_decide_eq_false_2 by lia.
    rewrite bind_eq, get_serial_dir_ensure. fold (serial_dir root s).
    rewrite ensure_present by done. rewrite load_persist_eq by done.
    apply run_load_ops. intros v Hv'. rewrite <- app_assoc. by apply Hfiles.
Qed.

(** The variable of a checkpoint without a success mark is loaded. *)
Lemma load_checkpoint_unmarked :
  is_file unmarked_model (success_path ckpt 0) = false ∧
  load_checkpoint (Some ckpt) (Some 0) (Some one_var) (initial unmarked_model plain_env) =
    (Ok tt, load_all (serial_dir ckpt 0 ++ [MODEL_DIR]) (saved_vars one_var)
              (initial unmarked_model plain_env)) ∧
  scope (load_all (serial_dir ckpt 0 ++ [MODEL_DIR]) (saved_vars one_var)
           (initial unmarked_model plain_env)) !! "w"%string = Some "tensor"%string.
Proof.
  split; [by vm_compute|]. split; [|by vm_compute].
  apply (load_checkpoint_spec (Some ckpt) (Some 0) (Some one_var)
           (initial unmarked_model plain_env)).
  - reflexivity.
  - reflexivity.
  - lia.
  - reflexivity.
  - vm_compute; reflexivity.
  - vm_compute; reflexivity.
  - intros v Hv. change (saved_vars one_var) with one_var in Hv.
    apply list_elem_of_singleton in Hv as ->. vm_compute; reflexivity.
Defined.

Section without_arguments.
Implicit Types (w : world) (root : path).

Lemma only_dirs_refl w : only_dirs w w.
Proof.
  split; [done|done|]. exists []. by rewrite app_nil_r.
Qed.

Lemma only_dirs_stable w0 : stable is_mkdir (only_dirs w0).
Proof.
  intros c w [q ->] [Hq Hpar] [H1 H2 (l & H3 & H4)].
  assert (q ≠ []) as Hne by (by intros ->).
  rewrite node_at_ne in Hq by done.
  split.
  - intros p Hp. apply (is_dir_create (Mkdir q)); [done|by split; [rewrite node_at_ne|]|].
    by apply H1.
  - intros p data. rewrite <- H2. simpl.
    destruct (decide (q = p)) as [->|Hqp].
    + rewrite lookup_insert_eq, Hq. split; intros; discriminate.
    + by rewrite lookup_insert_ne.
  - exists (l ++ [Mkdir q]). simpl. split; [by rewrite H3, <- app_assoc|].
    apply Forall_app. split; [done|]. constructor; [by eexists|done].
Qed.

Lemma save_checkpoint_eq root trainer_id trainer_args main_program k w :
  save_checkpoint (Some root) trainer_id trainer_args main_program k w =
    (ensure root ≫= λ _,
     latest ← get_latest_checkpoint_serial (Some root);
     cur_dir ← _get_serial_dir root (latest + 1);
     save_trainer_args cur_dir trainer_id trainer_args;;
     (if bool_decide (trainer_id = 0)
      then save_persist_vars_without_grad cur_dir main_program
      else ret tt);;
     _scroll_delete root k) w.
Proof.
  unfold save_checkpoint, ensure. rewrite !bind_eq.
  destruct (os.isdir root w) as [[b|e] w1]; [|done].
  rewrite !bind_eq.
  destruct ((if negb b then os.makedirs root else ret tt) w1) as [[[]|e] w2]; done.
Qed.

End without_arguments.

(** C9, as the code has it: a call of [save_checkpoint] on a directory
    without trainer arguments, in which making the root, finding the latest
    serial and making the serial directory go through, raises
    [AssertionError]; the root and the serial directory are there, every
    system call made is a [mkdir], and no file has been written. *)
Theorem save_checkpoint_without_trainer_args
    root trainer_id main_program k w w1 v w2 cur_dir w3 :
  ensure root w = (Ok root, w1) →
  get_latest_checkpoint_serial (Some root) w1 = (Ok v, w2) →
  _get_serial_dir root (v + 1) w2 = (Ok cur_dir, w3) →
  save_checkpoint (Some root) trainer_id None main_program k w =
    (Raise AssertionError, w3) ∧
  cur_dir = serial_dir root (v + 1) ∧
  is_dir (files w3) root = true ∧
  is_dir (files w3) cur_dir = true ∧
  only_dirs w w3.
Proof.
  intros H1 H2 H3.
  split.
  { rewrite save_checkpoint_eq, bind_eq, H1, bind_eq, H2, bind_eq, H3. done. }
  set (I := λ w', only_dirs w w' ∧ is_dir (files w') root = true).
  assert (stable is_mkdir I) as HI.
  { apply stable_and; [apply only_dirs_stable|].
    intros c w0 [q ->] Hl Hw0. by apply (is_dir_create (Mkdir q)). }
  assert (I w1) as I1.
  { assert (wp (ensure root) (λ r w', only_dirs w w' ∧
              match r with
              | Ok x => x = root ∧ is_dir (files w') root = true
              | Raise e => env_error e
              end) w) as H.
    { apply (ensure_keeps is_mkdir); [apply only_dirs_stable|by eexists|].
      apply only_dirs_refl. }
    apply (wp_run _ _ _ H) in H1. by destruct H1 as [? [_ ?]]. }
  assert (I w2) as I2.
  { assert (wp (get_latest_checkpoint_serial (Some root)) (λ r w', I w' ∧
              match r with
              | Ok _ => True
              | Raise e => e = ValueError ∨ env_error e
              end) w1) as H.
    { apply (get_latest_keeps is_mkdir); [done|by eexists|done]. }
    apply (wp_run _ _ _ H) in H2. by destruct H2. }
  rewrite get_serial_dir_ensure in H3.
  assert (wp (ensure (root ++ [serial_folder (v + 1)])) (λ r w', I w' ∧
            match r with
            | Ok x => x = root ++ [serial_folder (v + 1)] ∧
                      is_dir (files w') (root ++ [serial_folder (v + 1)]) = true
            | Raise e => env_error e
            end) w2) as H.
  { apply (ensure_keeps is_mkdir); [done|by eexists|done]. }
  apply (wp_run _ _ _ H) in H3. destruct H3 as [[Ho Hr] [-> Hd]]. done.
Qed.

(** Without a directory the call ends in [ValueError]. *)
Lemma save_checkpoint_without_directory :
  save_checkpoint None 0 None None 3 (initial ∅ plain_env) =
    (Raise ValueError, initial ∅ plain_env) ∧
  (save_checkpoint None 0 None None 3 (initial ∅ plain_env)).1 ≠ Raise AssertionError.
Proof. split; [reflexivity|discriminate]. Qed.

(** The first call on a file system without the root. *)
Lemma save_checkpoint_without_trainer_args_fresh :
  save_checkpoint (Some ckpt) 0 None None 3 (initial ∅ plain_env) =
    (Raise AssertionError,
     do (Mkdir (serial_dir ckpt 0)) (do (Mkdir ckpt) (initial ∅ plain_env))) ∧
  only_dirs (initial ∅ plain_env)
    (do (Mkdir (serial_dir ckpt 0)) (do (Mkdir ckpt) (initial ∅ plain_env))).
Proof.
  pose proof (save_checkpoint_without_trainer_args ckpt 0 None 3
                (initial ∅ plain_env) (do (Mkdir ckpt) (initial ∅ plain_env)) (-1)
                (do (Mkdir ckpt) (initial ∅ plain_env)) (serial_dir ckpt 0)
                (do (Mkdir (serial_dir ckpt 0)) (do (Mkdir ckpt) (initial ∅ plain_env))))
    as H.
  destruct H as (H1 & _ & _ & _ & H2).
  - vm_compute; reflexivity.
  - vm_compute; reflexivity.
  - vm_compute; reflexivity.
  - split; [exact H1|exact H2].
Defined.

Section resolution_writes.
Implicit Types (w : world) (root : path).

Lemma grown_refl root w : grown root w w.
Proof.
  split; [done|by left|]. exists []. by rewrite app_nil_r.
Qed.

Lemma grown_stable root w0 :
  stable (λ c, ∃ x, c = Mkdir (serial_dir root x)) (grown root w0).
Proof.
  intros c w [x ->] [Hq Hpar] [H1 H2 (l & H3 & H4)].
  set (D := serial_dir root x) in *.
  assert (D ≠ []) as Hne by (by intros E; rewrite E in Hq).
  rewrite node_at_ne in Hq by done.
  split.
  - intros p Hp. apply (is_dir_create (Mkdir D)); [done|by split; [rewrite node_at_ne|]|].
    by apply H1.
  - intros p. simpl. destruct (decide (D = p)) as [<-|Hqp].
    + right. rewrite lookup_insert_eq. destruct (H2 D) as [E|(E & E' & _)].
      * split; [by rewrite <- E|]. split; [done|]. split; [by exists x|].
        exists (l ++ [Mkdir D]). simpl. split; [by rewrite H3, <- app_assoc|].
        apply elem_of_app. right. left.
      * exfalso. exact (eq_ind (Some Dir) (λ o, match o with Some _ => True | None => False end)
                          Logic.I None (eq_trans (eq_sym E') Hq)).
    + rewrite lookup_insert_ne by done.
      destruct (H2 p) as [E|(E & E' & Ex & Hc)]; [by left|right].
      split; [done|]. split; [done|]. split; [done|].
      apply (called_stable (Mkdir p) w0 (Mkdir D) w);
        [done|by split; [rewrite node_at_ne|]|done].
  - exists (l ++ [Mkdir D]). simpl. split; [by rewrite H3, <- app_assoc|].
    apply Forall_app. split; [done|]. constructor; [by eexists|done].
Qed.

(** The resolution makes the directory of every serial that the name of a
    directory under the root parses to. *)
Lemma get_latest_grows root w :
  is_dir (files w) root = true →
  wp (get_latest_checkpoint_serial (Some root))
     (λ r w', match r with
              | Ok _ =>
                  grown root w w' ∧
                  ∀ e n, e ∈ entries (files w) root → dir_serial e = Ok n → n ≠ -1 →
                         is_dir (files w) (root ++ [e]) = true →
                         is_dir (files w') (serial_dir root n) = true
              | Raise _ => True
              end) w.
Proof.
  intros Hroot. unfold get_latest_checkpoint_serial. apply wp_bind, wp_gets.
  rewrite Hroot. simpl. apply wp_bind.
  destruct (listdir_run root w Hroot) as (l & Hl & Hperm).
  eapply wp_eq; [exact Hl|].
  set (φ' := λ c, ∃ x, c = Mkdir (serial_dir root x)).
  set (J := λ (done : list string) (_ : Z) w',
         grown root w w' ∧ is_dir (files w') root = true ∧
         ∀ e n, e ∈ done → dir_serial e = Ok n → n ≠ -1 →
                is_dir (files w) (root ++ [e]) = true →
                is_dir (files w') (serial_dir root n) = true).
  assert (∀ done cur, stable φ' (J done cur)) as HJ.
  { intros done cur c w1 [y ->] Hleg (G1 & R1 & K1). split; [|split].
    - apply grown_stable; [by eexists|done..].
    - by apply (is_dir_create (Mkdir (serial_dir root y))).
    - intros e n He Hn Hn1 Hd. apply (is_dir_create (Mkdir (serial_dir root y))); [done..|].
      by apply (K1 e n). }
  eapply wp_mono.
  { apply (wp_for_fold J (λ _ _, True)).
    - split; [apply grown_refl|]. split; [done|]. by intros e n H%elem_of_nil.
    - intros done x rest cur w0 _ HJ0. apply wp_bind.
      pose proof HJ0 as (G & R & K).
      eapply wp_mono; [apply (has_success_keeps φ' (J done cur));
                       [apply HJ|by eexists|done|done]|].
      intros [s|e] w1 [(G1 & R1 & K1) H5]; [|done]. apply wp_ret.
      split; [done|]. split; [done|].
      intros e n [He|He]%elem_of_app Hn Hn1 Hd.
      + by apply (K1 e n).
      + apply list_elem_of_singleton in He as ->. apply H5; [done|done|].
        by apply (grown_dirs _ _ _ G). }
  intros [s|e] w1; [|done]. intros (G & R & K). split; [done|].
  intros e n He. apply K. by rewrite Hperm.
Qed.

Lemma dir_root_closed entry : closed (dir_root entry).
Proof.
  assert (is_dir (dir_root entry) ckpt = true) as Hd.
  { apply is_dir_true. unfold dir_root, ckpt. simpl.
    rewrite lookup_insert_ne by (intros E; by apply (f_equal length) in E).
    by rewrite lookup_insert_eq. }
  intros p n [x Hx]. unfold dir_root in Hx.
  apply lookup_insert_Some in Hx as [[E _]|[_ Hx]].
  - by apply app_inj_tail in E as [<- _].
  - apply lookup_insert_Some in Hx as [[E _]|[_ Hx]]; [|by rewrite lookup_empty in Hx].
    unfold ckpt in E. destruct p as [|a [|b p]]; [done|discriminate E|discriminate E].
Qed.

(** [has_success] leaves an entry alone when its name parses to -1 and when
    it is not a directory. *)
Lemma has_success_skips root cur_dir n w :
  _get_dir_serial cur_dir w = (Ok n, w) →
  n = -1 ∨ is_dir (files w) (root ++ [cur_dir]) = false →
  has_success root cur_dir w = (Ok (Some (-1)), w).
Proof.
  intros Hn H. unfold has_success. rewrite bind_eq, Hn, bind_eq.
  unfold os.isdir, gets. destruct H as [E|E]; rewrite E; [done|].
  by rewrite orb_true_r.
Qed.

Lemma latest_skips root w :
  is_dir (files w) root = true →
  (∀ e, e ∈ entries (files w) root →
        ∃ n, _get_dir_serial e w = (Ok n, w) ∧
             (n = -1 ∨ is_dir (files w) (root ++ [e]) = false)) →
  get_latest_checkpoint_serial (Some root) w = (Ok (-1), w).
Proof.
  intros Hroot H. unfold get_latest_checkpoint_serial, os.isdir, gets.
  rewrite bind_eq. cbn [fst snd]. rewrite Hroot. cbn [negb].
  destruct (listdir_run root w Hroot) as (l & Hl & Hperm).
  rewrite bind_eq, Hl.
  assert (∀ e, e ∈ l → has_success root e w = (Ok (Some (-1)), w)) as Hl'.
  { intros e He. rewrite Hperm in He. destruct (H e He) as (n & Hn & Hd).
    by apply (has_success_skips root e n). }
  clear Hl Hperm H. induction l as [|e l IH]; [done|].
  cbn [for_fold]. rewrite !bind_eq, Hl' by left. apply IH.
  intros e' He'. apply Hl'. by right.
Qed.

Lemma makes_directory root cur_dir n w v w' :
  closed (files w) →
  is_dir (files w) (root ++ [cur_dir]) = true →
  _get_dir_serial cur_dir w = (Ok n, w) → n ≠ -1 →
  get_latest_checkpoint_serial (Some root) w = (Ok v, w') →
  is_dir (files w') (serial_dir root n) = true ∧
  (files w !! serial_dir root n = None →
   cur_dir ≠ serial_folder n ∧
   called (Mkdir (serial_dir root n)) w w' ∧
   entries (files w') (serial_dir root n) = []).
Proof.
  intros Hc Hd Hn Hn1 Hrun.
  rewrite get_dir_serial_eq in Hn. apply (f_equal fst) in Hn. simpl in Hn.
  assert (files w !! (root ++ [cur_dir]) = Some Dir) as Hlook.
  { apply is_dir_true in Hd. rewrite node_at_ne in Hd; [done|by destruct root]. }
  assert (is_dir (files w) root = true) as Hroot.
  { apply (Hc root cur_dir). by rewrite Hlook. }
  pose proof (get_latest_grows root w Hroot) as H.
  apply (wp_run _ _ _ H) in Hrun. destruct Hrun as [G K].
  assert (is_dir (files w') (serial_dir root n) = true) as Hafter.
  { apply (K cur_dir n); [|done..]. apply elem_of_entries. by rewrite Hlook. }
  split; [done|]. intros Habs.
  assert (serial_dir root n ≠ []) as Hne by (unfold serial_dir; by destruct root).
  split; [|split].
  - intros ->. unfold serial_dir in Habs.
    exact (eq_ind (Some Dir) (λ o, match o with Some _ => True | None => False end)
             Logic.I None (eq_trans (eq_sym Hlook) Habs)).
  - destruct (grown_files _ _ _ G (serial_dir root n)) as [E|(_ & _ & _ & Hcall)]; [|done].
    apply is_dir_true in Hafter. rewrite node_at_ne in Hafter by done.
    exfalso.
    exact (eq_ind (Some Dir) (λ o, match o with Some _ => True | None => False end)
             Logic.I None (eq_trans (eq_sym Hafter) (eq_trans E Habs))).
  - destruct (entries (files w') (serial_dir root n)) as [|m ms] eqn:E; [done|].
    assert (m ∈ entries (files w') (serial_dir root n)) as Hm by (rewrite E; left).
    apply elem_of_entries in Hm as [x Hx].
    destruct (grown_files _ _ _ G (serial_dir root n ++ [m])) as [E'|(_ & _ & [y Hy] & _)].
    + assert (files w !! (serial_dir root n ++ [m]) = None) as Hnone.
      { apply (closed_absent (files w) (serial_dir root n)); [done..|].
        by apply prefix_app_r. }
      pose proof (eq_trans (eq_sym Hx) (eq_trans E' Hnone)) as F. discriminate F.
    + apply (f_equal length) in Hy. unfold serial_dir in Hy.
      rewrite !length_app in Hy. simpl in Hy. lia.
Qed.
End resolution_writes.

(** C10, as the code has it: for a listed entry that is a directory and
    whose name parses to a serial [n] other than -1, a resolution that
    returns leaves a directory [checkpoint_n] under the root; when there was
    none before (so the entry is not literally [checkpoint_n]), the
    resolution has made it with [mkdir], and it is empty.  For an entry whose
    name parses to -1, and for an entry whose name parses and that is not a
    directory, [has_success] returns -1 with the world as it was; on a root
    where every entry is one of these, the resolution returns -1 and leaves
    the world as it was. *)
Theorem latest_serial_makes_directory :
  (∀ root cur_dir n w v w',
     closed (files w) →
     is_dir (files w) (root ++ [cur_dir]) = true →
     _get_dir_serial cur_dir w = (Ok n, w) → n ≠ -1 →
     get_latest_checkpoint_serial (Some root) w = (Ok v, w') →
     is_dir (files w') (serial_dir root n) = true ∧
     (files w !! serial_dir root n = None →
      cur_dir ≠ serial_folder n ∧
      called (Mkdir (serial_dir root n)) w w' ∧
      entries (files w') (serial_dir root n) = [])) ∧
  (∀ root cur_dir n w,
     _get_dir_serial cur_dir w = (Ok n, w) →
     n = -1 ∨ is_dir (files w) (root ++ [cur_dir]) = false →
     has_success root cur_dir w = (Ok (Some (-1)), w)) ∧
  (∀ root w,
     is_dir (files w) root = true →
     (∀ e, e ∈ entries (files w) root →
           ∃ n, _get_dir_serial e w = (Ok n, w) ∧
                (n = -1 ∨ is_dir (files w) (root ++ [e]) = false)) →
     get_latest_checkpoint_serial (Some root) w = (Ok (-1), w)).
Proof.
  split; [|split].
  - apply makes_directory.
  - apply has_success_skips.
  - apply latest_skips.
Qed.

(** A regular file named [checkpoint_007] parses to serial 7 and is not
    [checkpoint_7], and the resolution changes nothing. *)
Lemma latest_serial_padded_file :
  _get_dir_serial "checkpoint_007" (initial (stray_root "checkpoint_007") plain_env) =
    (Ok 7, initial (stray_root "checkpoint_007") plain_env) ∧
  "checkpoint_007"%string ≠ serial_folder 7 ∧
  entries (stray_root "checkpoint_007") ckpt = ["checkpoint_007"%string] ∧
  get_latest_checkpoint_serial (Some ckpt) (initial (stray_root "checkpoint_007") plain_env) =
    (Ok (-1), initial (stray_root "checkpoint_007") plain_env).
Proof.
  split; [by rewrite get_dir_serial_eq|]. split; [by vm_compute|].
  split; [apply stray_root_entries|].
  unfold get_latest_checkpoint_serial. rewrite bind_eq. unfold os.isdir at 1, gets at 1.
  cbn [fst snd files initial]. rewrite stray_root_dir. cbn [negb].
  rewrite bind_eq, (listdir_single ckpt "checkpoint_007");
    [|apply stray_root_dir|apply stray_root_entries].
  reflexivity.
Qed.

(** A directory named [checkpoint_007]: the resolution makes
    [checkpoint_7].  A directory named [checkpoint_x], whose name parses to
    -1: the resolution returns -1 and makes nothing. *)
Lemma latest_serial_padded_directory :
  (is_dir (files (get_latest_checkpoint_serial (Some ckpt)
                    (initial (dir_root "checkpoint_007") plain_env)).2)
          (serial_dir ckpt 7) = true ∧
   (files (initial (dir_root "checkpoint_007") plain_env) !! serial_dir ckpt 7 = None →
    "checkpoint_007"%string ≠ serial_folder 7 ∧
    called (Mkdir (serial_dir ckpt 7)) (initial (dir_root "checkpoint_007") plain_env)
      (get_latest_checkpoint_serial (Some ckpt)
         (initial (dir_root "checkpoint_007") plain_env)).2 ∧
    entries (files (get_latest_checkpoint_serial (Some ckpt)
                      (initial (dir_root "checkpoint_007") plain_env)).2)
            (serial_dir ckpt 7) = [])) ∧
  has_success ckpt "checkpoint_x" (initial (dir_root "checkpoint_x") plain_env) =
    (Ok (Some (-1)), initial (dir_root "checkpoint_x") plain_env) ∧
  get_latest_checkpoint_serial (Some ckpt) (initial (dir_root "checkpoint_x") plain_env) =
    (Ok (-1), initial (dir_root "checkpoint_x") plain_env).
Proof.
  destruct latest_serial_makes_directory as (H1 & H2 & H3).
  split; [|split].
  - apply (H1 ckpt "checkpoint_007" 7 (initial (dir_root "checkpoint_007") plain_env) (-1)).
    + apply dir_root_closed.
    + vm_compute; reflexivity.
    + vm_compute; reflexivity.
    + lia.
    + vm_compute; reflexivity.
  - apply (H2 ckpt "checkpoint_x" (-1)).
    + vm_compute; reflexivity.
    + by left.
  - apply (H3 ckpt (initial (dir_root "checkpoint_x") plain_env)).
    + vm_compute; reflexivity.
    + intros e He.
      assert (entries (files (initial (dir_root "checkpoint_x") plain_env)) ckpt =
                ["checkpoint_x"%string]) as E by (vm_compute; reflexivity).
      rewrite E in He. apply list_elem_of_singleton in He as ->.
      exists (-1). split; [vm_compute; reflexivity|by left].
Defined.

Section complete_and_pending.
Implicit Types (w : world) (root : path) (S : gset Z).

Lemma empty_root_settled : settled empty_root ckpt ∅ (-1).
Proof.
  apply settled_empty.
  - intros p n [x Hx]. unfold empty_root in Hx.
    apply lookup_insert_Some in Hx as [[E _]|[_ Hx]]; [|by rewrite lookup_empty in Hx].
    unfold ckpt in E. destruct p as [|a [|b p]]; [done|discriminate E|discriminate E].
  - reflexivity.
  - intros e. unfold empty_root.
    rewrite lookup_insert_ne by (intros E; by apply (f_equal length) in E).
    apply lookup_empty.
Qed.

Lemma one_var_valued x :
  x ∈ saved_vars (program_of (Some one_var) tensor_world) →
  is_Some (scope tensor_world !! name x).
Proof.
  change (saved_vars (program_of (Some one_var) tensor_world)) with one_var.
  intros ->%list_elem_of_singleton. by eexists.
Qed.


(** The latest serial after a chief save that keeps at least one
    checkpoint. *)
Lemma latest_after_save w root S v items main_program k :
  settled (files w) root S v → budget w = None → plain_args items = true → 1 ≤ k →
  (∀ x, x ∈ saved_vars (program_of main_program w) → is_Some (scope w !! name x)) →
  ∃ w', save_checkpoint (Some root) 0 (Some items) main_program k w = (Ok tt, w') ∧
        marked w root (v + 1) w' ∧
        settled (files w') root (retained k (S ∪ {[v + 1]})) (v + 1) ∧
        budget w' = None ∧ scope w' = scope w ∧ environ w' = environ w ∧
        get_latest_checkpoint_serial (Some root) w' = (Ok (v + 1), w').
Proof.
  intros Hs Hb Hplain Hk Hvars.
  destruct (save_settled w root S v items main_program k Hs Hb Hplain) as
    (w' & Hrun & Hs' & Hb' & Hsc' & Henv' & l & Hl & Hin); [lia|done|].
  rewrite decide_False in Hs' by lia.
  exists w'. split; [done|]. split; [by exists l, (ctime (environ w))|].
  split; [done|]. split; [done|]. split; [done|]. split; [done|].
  destruct (latest_serial_root w' root _ (settled_root _ _ _ _ Hs')) as (v' & Hlat & Hv').
  rewrite Hlat. do 2 f_equal.
  eapply is_latest_unique; [done|]. apply (settled_latest _ _ _ _ Hs').
Qed.

End complete_and_pending.



Section allocation.
Implicit Types (w : world) (root : path) (S : gset Z).


End allocation.
Section chief_series.
Implicit Types (w : world) (root : path) (S : gset Z).

Lemma program_of_environ main_program w w' :
  environ w' = environ w → program_of main_program w' = program_of main_program w.
Proof. intros H. destruct main_program; simpl; [done|by rewrite H]. Qed.



End chief_series.



(* ===================================================================== *)
(** * Further properties of the checkpoint functions *)
(* ===================================================================== *)

Section serial_names.
Implicit Types (w : world) (root dirname : path).

Lemma get_serial_dir_result dirname serial w d w' :
  _get_serial_dir dirname serial w = (Ok d, w') → d = serial_dir dirname serial.
Proof.
  intros H. rewrite get_serial_dir_ensure in H.
  assert (wp (ensure (dirname ++ [serial_folder serial])) (λ r w', True ∧
            match r with
            | Ok x => x = dirname ++ [serial_folder serial] ∧
                      is_dir (files w') (dirname ++ [serial_folder serial]) = true
            | Raise e => env_error e
            end) w) as Hw by (by apply (ensure_keeps (λ _, True) (λ _, True))).
  apply (wp_run _ _ _ Hw) in H. by destruct H as [_ [? _]].
Qed.

Lemma split_one_separator a b :
  separator_char ∉ chars a → separator_char ∉ chars b →
  Py.split separator_char (a +:+ String separator_char b) = [a; b].
Proof. intros Ha Hb. by rewrite split_app, split_without. Qed.

End serial_names.

(** X1: the directory that [_get_serial_dir] returns for a serial is an entry
    of [dirname] whose name [_get_dir_serial] parses back to that serial,
    negative serials included; two serials never share a directory. *)
Theorem serial_dir_name_parses dirname serial w d w' :
  _get_serial_dir dirname serial w = (Ok d, w') →
  ∃ n, d = dirname ++ [n] ∧
       (∀ w0, _get_dir_serial n w0 = (Ok serial, w0)) ∧
       (∀ serial2 w2 w2', _get_serial_dir dirname serial2 w2 = (Ok d, w2') →
                          serial2 = serial).
Proof.
  intros H. apply get_serial_dir_result in H as ->.
  exists (serial_folder serial). split; [done|]. split.
  - intros w0. by rewrite get_dir_serial_eq, dir_serial_folder.
  - intros serial2 w2 w2' H2. apply get_serial_dir_result in H2.
    symmetry. by apply (serial_dir_inj dirname).
Qed.

Lemma serial_dir_name_parses_minus_five :
  ∃ n, serial_dir ckpt (-5) = ckpt ++ [n] ∧
       (∀ w0, _get_dir_serial n w0 = (Ok (-5), w0)) ∧
       (∀ serial2 w2 w2',
          _get_serial_dir ckpt serial2 w2 = (Ok (serial_dir ckpt (-5)), w2') →
          serial2 = -5).
Proof.
  apply (serial_dir_name_parses ckpt (-5) (initial empty_root plain_env)
           (serial_dir ckpt (-5))
           (do (Mkdir (serial_dir ckpt (-5))) (initial empty_root plain_env))).
  vm_compute; reflexivity.
Defined.

(** X2: [_get_dir_serial] raises [ValueError] exactly on the names in which
    the separator does not occur once, and raises nothing else; on a name
    with one separator it returns the integer written after it, whatever
    stands before it, and -1 when what follows is not an integer.  It never
    changes the world. *)
Theorem get_dir_serial_cases dirname w :
  (_get_dir_serial dirname w = (Raise ValueError, w) ↔
   length (List.filter (Ascii.eqb separator_char) (chars dirname)) ≠ 1%nat) ∧
  (∀ e w', _get_dir_serial dirname w = (Raise e, w') → e = ValueError) ∧
  (_get_dir_serial dirname w).2 = w ∧
  (∀ a b, separator_char ∉ chars a → separator_char ∉ chars b →
          dirname = a +:+ String separator_char b →
          _get_dir_serial dirname w = (Ok (default (-1) (Py.int b)), w)).
Proof.
  rewrite get_dir_serial_eq. split; [|split; [|split]].
  - split.
    + intros E. apply (f_equal fst) in E. simpl in E. apply dir_serial_raise in E.
      rewrite split_length in E. lia.
    + intros H. f_equal. apply dir_serial_raise. rewrite split_length. lia.
  - intros e w' E. apply (f_equal fst) in E. simpl in E. by apply dir_serial_error in E.
  - done.
  - intros a b Ha Hb ->. f_equal. unfold dir_serial.
    rewrite split_one_separator by done. by destruct (Py.int b).
Qed.

Lemma get_dir_serial_cases_trainer :
  _get_dir_serial "trainer_0" (initial ∅ plain_env) = (Ok 0, initial ∅ plain_env) ∧
  _get_dir_serial "checkpoint_x" (initial ∅ plain_env) = (Ok (-1), initial ∅ plain_env).
Proof.
  split.
  - apply (get_dir_serial_cases "trainer_0" (initial ∅ plain_env)) with (a := "trainer"%string)
      (b := "0"%string).
    + intros H%list_elem_of_In. cbv in H. intuition discriminate.
    + intros H%list_elem_of_In. cbv in H. intuition discriminate.
    + reflexivity.
  - apply (get_dir_serial_cases "checkpoint_x" (initial ∅ plain_env))
      with (a := "checkpoint"%string) (b := "x"%string).
    + intros H%list_elem_of_In. cbv in H. intuition discriminate.
    + intros H%list_elem_of_In. cbv in H. intuition discriminate.
    + reflexivity.
Defined.

Section serial_roots.
Implicit Types (w : world) (root : path) (S : gset Z).

Lemma closed_insert_dir (fs : gmap path node) p :
  closed fs → is_dir fs (parent p) = true → closed (<[p := Dir]> fs).
Proof.
  intros Hc Hp q n [x Hx].
  assert (is_dir fs q = true) as Hq.
  { apply lookup_insert_Some in Hx as [[-> _]|[_ Hx]].
    - by rewrite parent_app in Hp.
    - apply (Hc q n). by exists x. }
  apply is_dir_true. apply is_dir_true in Hq. destruct q as [|a q]; [done|].
  simpl in *. destruct (decide (p = a :: q)) as [->|Hne].
  - by rewrite lookup_insert_eq.
  - by rewrite lookup_insert_ne.
Qed.

Lemma serial_dirs_root_spec xs :
  serial_root (serial_dirs_root xs) ckpt (list_to_set xs) ∧ closed (serial_dirs_root xs).
Proof.
  induction xs as [|x xs [IH1 IH2]]; simpl.
  - split; [apply (settled_root _ _ _ _ empty_root_settled)|].
    apply (settled_closed _ _ _ _ empty_root_settled).
  - split.
    + rewrite (union_comm_L {[x]}).
      apply (serial_root_add (serial_dirs_root xs)); [done| |by rewrite lookup_insert_eq].
      intros q Hq. apply lookup_insert_ne. by intros <-.
    + apply closed_insert_dir; [done|]. unfold serial_dir. rewrite parent_app.
      apply (root_is_dir _ _ _ IH1).
Qed.

End serial_roots.

Section on_serial_roots.
Implicit Types (w : world) (root : path) (S : gset Z).

Lemma retired_not_retained k S x : x ∈ S → x ∉ retained k S → x ∈ retired k S.
Proof.
  intros Hx Hn. unfold retained in Hn.
  destruct (decide (x ∈ retired k S)) as [|Hr]; [done|].
  exfalso. apply Hn. apply elem_of_difference. split; [done|].
  by rewrite elem_of_list_to_set.
Qed.

Lemma retained_not_retired k S x : x ∈ retained k S → x ∉ retired k S.
Proof.
  unfold retained. intros [_ H]%elem_of_difference. by rewrite elem_of_list_to_set in H.
Qed.

Lemma exists_retired_prefix root k S q :
  Exists (λ p, p `prefix_of` q) (serial_dir root <$> retired k S) ↔
  ∃ x, x ∈ retired k S ∧ serial_dir root x `prefix_of` q.
Proof.
  rewrite Exists_exists. split.
  - intros (p & (x & -> & Hx)%list_elem_of_fmap & Hp). eauto.
  - intros (x & Hx & Hp). exists (serial_dir root x). split; [|done].
    apply list_elem_of_fmap. eauto.
Qed.

End on_serial_roots.

(** X3: without a directory, or when the directory does not exist,
    [get_latest_checkpoint_serial] returns -1; on a root that holds serial
    directories only it returns the highest serial that has the success mark
    of the model, -1 when none has; in all three cases it changes
    nothing. *)
Theorem latest_serial_of_serial_root root S w :
  serial_root (files w) root S →
  get_latest_checkpoint_serial None w = (Ok (-1), w) ∧
  (∀ other, is_dir (files w) other = false →
            get_latest_checkpoint_serial (Some other) w = (Ok (-1), w)) ∧
  ∃ v, get_latest_checkpoint_serial (Some root) w = (Ok v, w) ∧
       (v = -1 ∨ (v ∈ S ∧ complete (files w) root v)) ∧
       (∀ x, x ∈ S → complete (files w) root x → x ≤ v) ∧
       (v = -1 ↔ ∀ x, x ∈ S → complete (files w) root x → x ≤ -1).
Proof.
  intros Hroot. split; [done|]. split.
  - intros other Hd. unfold get_latest_checkpoint_serial, os.isdir, gets.
    by rewrite bind_eq, Hd.
  - destruct (latest_serial_root w root S Hroot) as (v & Hrun & H1 & H2 & H3).
    exists v. split; [done|]. split; [done|]. split; [done|]. split.
    + intros ->. done.
    + intros H. destruct H1 as [->|[Hv Hc]]; [done|]. pose proof (H v Hv Hc). lia.
Qed.

(** X4: on a root that holds the serial directories of [S] only, the
    retention pass with a limit [k >= 0] returns and leaves exactly the
    directories of the [k] highest serials of [S]: a serial stays when fewer
    than [k] serials of [S] are above it.  Every path in a removed directory
    is gone, every other path is as it was, and with at most [k] serials
    nothing is done at all. *)
Theorem scroll_delete_keeps_highest root S k w :
  serial_root (files w) root S → budget w = None → 0 ≤ k →
  ∃ w', _scroll_delete root k w = (Ok tt, w') ∧
        serial_root (files w') root (retained k S) ∧
        (∀ x, x ∈ retained k S ↔
              x ∈ S ∧ Z.of_nat (size (filter (λ y, x < y) S)) < k) ∧
        (∀ x q, x ∈ S → x ∉ retained k S → serial_dir root x `prefix_of` q →
                files w' !! q = None) ∧
        (∀ q, (∀ x, x ∈ S → x ∉ retained k S → ¬ serial_dir root x `prefix_of` q) →
              files w' !! q = files w !! q) ∧
        (Z.of_nat (size S) ≤ k → w' = w).
Proof.
  intros Hroot Hb Hk. eexists. split; [by apply (scroll_delete_run w root S k)|].
  split; [apply (serial_root_retire _ _ _ _ Hroot)|].
  split; [intros x; by apply elem_of_retained|].
  split; [|split].
  - intros x q Hx Hn Hp. rewrite lookup_rmtrees, decide_True; [done|].
    apply exists_retired_prefix. exists x. split; [by apply retired_not_retained|done].
  - intros q Hq. rewrite lookup_rmtrees, decide_False; [done|].
    intros (x & Hx & Hp)%exists_retired_prefix.
    apply (Hq x); [by apply (retired_elem_of k)| |done].
    intros Hin. by apply (retained_not_retired k S x).
  - intros Hsize. unfold retired. by rewrite decide_True.
Qed.

Lemma scroll_delete_keeps_highest_two :
  ∃ w', _scroll_delete ckpt 2 (initial (serial_dirs_root [1; 5; 2]) plain_env) = (Ok tt, w') ∧
        serial_root (files w') ckpt (retained 2 (list_to_set [1; 5; 2])) ∧
        (∀ x, x ∈ retained 2 (list_to_set [1; 5; 2] : gset Z) ↔
              x ∈ (list_to_set [1; 5; 2] : gset Z) ∧
              Z.of_nat (size (filter (λ y, x < y) (list_to_set [1; 5; 2] : gset Z))) < 2) ∧
        (∀ x q, x ∈ (list_to_set [1; 5; 2] : gset Z) →
                x ∉ retained 2 (list_to_set [1; 5; 2] : gset Z) →
                serial_dir ckpt x `prefix_of` q → files w' !! q = None) ∧
        (∀ q, (∀ x, x ∈ (list_to_set [1; 5; 2] : gset Z) →
                    x ∉ retained 2 (list_to_set [1; 5; 2] : gset Z) →
                    ¬ serial_dir ckpt x `prefix_of` q) →
              files w' !! q = files (initial (serial_dirs_root [1; 5; 2]) plain_env) !! q) ∧
        (Z.of_nat (size (list_to_set [1; 5; 2] : gset Z)) ≤ 2 →
         w' = initial (serial_dirs_root [1; 5; 2]) plain_env).
Proof.
  apply (scroll_delete_keeps_highest ckpt (list_to_set [1; 5; 2]) 2
           (initial (serial_dirs_root [1; 5; 2]) plain_env)).
  - apply (serial_dirs_root_spec [1; 5; 2]).
  - reflexivity.
  - lia.
Defined.

Lemma latest_serial_of_serial_root_three :
  get_latest_checkpoint_serial None (initial (serial_dirs_root [1; 5; 2]) plain_env) =
    (Ok (-1), initial (serial_dirs_root [1; 5; 2]) plain_env) ∧
  (∀ other, is_dir (serial_dirs_root [1; 5; 2]) other = false →
            get_latest_checkpoint_serial (Some other)
              (initial (serial_dirs_root [1; 5; 2]) plain_env) =
              (Ok (-1), initial (serial_dirs_root [1; 5; 2]) plain_env)) ∧
  ∃ v, get_latest_checkpoint_serial (Some ckpt)
         (initial (serial_dirs_root [1; 5; 2]) plain_env) =
         (Ok v, initial (serial_dirs_root [1; 5; 2]) plain_env) ∧
       (v = -1 ∨ (v ∈ (list_to_set [1; 5; 2] : gset Z) ∧
                  complete (serial_dirs_root [1; 5; 2]) ckpt v)) ∧
       (∀ x, x ∈ (list_to_set [1; 5; 2] : gset Z) →
             complete (serial_dirs_root [1; 5; 2]) ckpt x → x ≤ v) ∧
       (v = -1 ↔ ∀ x, x ∈ (list_to_set [1; 5; 2] : gset Z) →
                      complete (serial_dirs_root [1; 5; 2]) ckpt x → x ≤ -1).
Proof.
  apply (latest_serial_of_serial_root ckpt (list_to_set [1; 5; 2])
           (initial (serial_dirs_root [1; 5; 2]) plain_env)).
  apply (serial_dirs_root_spec [1; 5; 2]).
Defined.
Section whole_roots.
Implicit Types (w : world) (root : path) (S : gset Z).


Lemma retired_zero S x : x ∈ retired 0 S ↔ x ∈ S.
Proof. rewrite elem_of_retired by done. split; [by intros [? _]|]. intros ?. split; [done|lia]. Qed.

(** What [clean_checkpoint] leaves of a root of serial directories, before
    it looks at [delete_dir]. *)
Lemma lookup_cleaned root S w q :
  serial_root (files w) root S → closed (files w) →
  files (do_all (Rmtree <$> (serial_dir root <$> retired 0 S)) w) !! q =
    if decide (root `prefix_of` q ∧ q ≠ root) then None else files w !! q.
Proof.
  intros Hroot Hc. rewrite lookup_rmtrees. case_decide as He; case_decide as Hq; try done.
  - exfalso. apply exists_retired_prefix in He as (x & Hx & Hp). apply Hq. split.
    + etrans; [|done]. by apply prefix_app_r.
    + intros ->. by apply serial_dir_not_prefix_root in Hp.
  - destruct Hq as [[l ->] Hne]. destruct l as [|n l]; [by rewrite app_nil_r in Hne|].
    destruct (files w !! (root ++ [n])) as [y|] eqn:E.
    + exfalso. apply He, exists_retired_prefix.
      assert (is_Some (files w !! (root ++ [n]))) as H by (by exists y).
      apply (root_entries _ _ _ Hroot) in H as (x & Hx & ->).
      exists x. split; [by apply retired_zero|]. unfold serial_dir.
      exists l. by rewrite <- app_assoc.
    + apply (closed_absent _ (root ++ [n])); [done|by destruct root|done|].
      exists l. by rewrite <- app_assoc.
Qed.

End whole_roots.



(** X6: on a root that holds serial directories only, [clean_checkpoint]
    returns and removes every one of them with all it contains; with
    [delete_dir=True] it then removes the root too, otherwise the root stays
    as an empty directory.  Nothing outside the root is touched. *)
Theorem clean_checkpoint_removes_all root S delete_dir w :
  serial_root (files w) root S → closed (files w) → root ≠ [] → budget w = None →
  ∃ w', clean_checkpoint (Some root) delete_dir w = (Ok tt, w') ∧
        (∀ q, root `prefix_of` q → q ≠ root → files w' !! q = None) ∧
        files w' !! root = (if delete_dir then None else Some Dir) ∧
        (∀ q, ¬ root `prefix_of` q → files w' !! q = files w !! q).
Proof.
  intros Hroot Hc Hne Hb.
  assert (files w !! root = Some Dir) as Hd.
  { pose proof (root_is_dir _ _ _ Hroot) as H. apply is_dir_true in H.
    by rewrite node_at_ne in H. }
  destruct delete_dir.
  - eexists. split; [by apply (clean_checkpoint_serial_root w root S)|].
    change (files (do (Rmdir root) ?w0)) with (delete root (files w0)).
    split; [|split].
    + intros q Hp Hq. rewrite lookup_delete_ne by done.
      rewrite (lookup_cleaned root S) by done. by rewrite decide_True.
    + apply lookup_delete_eq.
    + intros q Hq. rewrite lookup_delete_ne by (by intros <-).
      rewrite (lookup_cleaned root S) by done. rewrite decide_False; [done|by intros [? _]].
  - exists (do_all (Rmtree <$> (serial_dir root <$> retired 0 S)) w). split.
    + unfold clean_checkpoint. by rewrite bind_eq, (scroll_delete_run _ _ S).
    + split; [|split].
      * intros q Hp Hq. rewrite (lookup_cleaned root S) by done. by rewrite decide_True.
      * rewrite (lookup_cleaned root S) by done. rewrite decide_False; [done|by intros [_ ?]].
      * intros q Hq.
        rewrite (lookup_cleaned root S) by done. rewrite decide_False; [done|by intros [? _]].
Qed.

Lemma clean_checkpoint_removes_all_three :
  ∃ w', clean_checkpoint (Some ckpt) true (initial (serial_dirs_root [1; 5; 2]) plain_env) =
          (Ok tt, w') ∧
        (∀ q, ckpt `prefix_of` q → q ≠ ckpt → files w' !! q = None) ∧
        files w' !! ckpt = None ∧
        (∀ q, ¬ ckpt `prefix_of` q →
              files w' !! q = files (initial (serial_dirs_root [1; 5; 2]) plain_env) !! q).
Proof.
  apply (clean_checkpoint_removes_all ckpt (list_to_set [1; 5; 2]) true
           (initial (serial_dirs_root [1; 5; 2]) plain_env)).
  - apply (serial_dirs_root_spec [1; 5; 2]).
  - apply (serial_dirs_root_spec [1; 5; 2]).
  - discriminate.
  - reflexivity.
Defined.



(* ===================================================================== *)
(** * Saving and loading variables *)
(* ===================================================================== *)

Section writing.
Implicit Types (w : world) (T q : path) (items : list (string * string)).

Lemma writes_cons T it items :
  writes T (it :: items) = Write (T ++ [it.1]) it.2 :: writes T items.
Proof. reflexivity. Qed.

Lemma write_each_explicit T items w :
  is_dir (files w) T = true → (∀ n, is_dir (files w) (T ++ [n]) = false) →
  budget w = None →
  for_each items (λ item, write_file (T ++ [item.1]) item.2) w =
    (Ok tt, do_all (writes T items) w).
Proof.
  revert w. induction items as [|it items IH]; intros w HT Hch Hb; [done|].
  assert (legal (Write (T ++ [it.1]) it.2) (files w)) as Hl.
  { split; [apply Hch|]. by rewrite parent_app. }
  cbn [for_each]. rewrite bind_eq, write_file_run by done.
  rewrite writes_cons, do_all_cons. apply IH.
  - by apply is_dir_create.
  - intros n. change (files (do ?c w)) with (apply_syscall c (files w)).
    destruct (decide (T ++ [it.1] = T ++ [n])) as [E|Hne].
    + apply is_dir_false. rewrite <- E. simpl. by rewrite node_at_app, lookup_insert_eq.
    + rewrite is_dir_create_inv; [apply Hch|done|done].
  - by apply budget_do.
Qed.

Lemma lookup_writes_other T items w q :
  (∀ it, it ∈ items → q ≠ T ++ [it.1]) →
  files (do_all (writes T items) w) !! q = files w !! q.
Proof.
  revert w. induction items as [|it items IH]; intros w Hq; [done|].
  rewrite writes_cons, do_all_cons, IH by (intros it' ?; apply Hq; by right).
  simpl. apply lookup_insert_ne. intros E. by apply (Hq it); [left|].
Qed.

(** After the loop a path is a file that the loop has written, with the
    value of one of the items of that name, or it is no target of the loop
    and is as it was. *)
Lemma lookup_writes_cases T items w q :
  ((∀ it, it ∈ items → q ≠ T ++ [it.1]) ∧
   files (do_all (writes T items) w) !! q = files w !! q) ∨
  ∃ it, it ∈ items ∧ q = T ++ [it.1] ∧
        files (do_all (writes T items) w) !! q = Some (File it.2).
Proof.
  revert w. induction items as [|a items IH]; intros w.
  - left. split; [by intros it ?%elem_of_nil|done].
  - rewrite writes_cons, do_all_cons.
    destruct (IH (do (Write (T ++ [a.1]) a.2) w)) as [[Hno E]|(it & Hit & -> & E)].
    + rewrite E. simpl. destruct (decide (T ++ [a.1] = q)) as [<-|Hne].
      * right. exists a. split; [left|]. split; [done|]. by rewrite lookup_insert_eq.
      * left. split; [|by rewrite lookup_insert_ne].
        intros it [->|Hit]%elem_of_cons; [done|by apply Hno].
    + right. exists it. split; [by right|done].
Qed.

Lemma lookup_writes T items w it :
  functional items → it ∈ items →
  files (do_all (writes T items) w) !! (T ++ [it.1]) = Some (File it.2).
Proof.
  intros Hf Hit.
  destruct (lookup_writes_cases T items w (T ++ [it.1])) as [[Hno _]|(b & Hb & Eb & E)].
  - by destruct (Hno it Hit).
  - etrans; [exact E|]. do 2 f_equal. apply app_inv_head in Eb.
    apply Hf; [done|done|]. by injection Eb.
Qed.

Lemma is_dir_writes T items w q :
  (∀ n, is_dir (files w) (T ++ [n]) = false) →
  is_dir (files (do_all (writes T items) w)) q = is_dir (files w) q.
Proof.
  intros Hch. destruct q as [|a q]; [done|].
  destruct (lookup_writes_cases T items w (a :: q)) as [[_ E]|(it & Hit & Eq & E)].
  - unfold is_dir. simpl. by rewrite E.
  - rewrite Eq, Hch. apply is_dir_false. rewrite <- Eq. simpl. by rewrite E.
Qed.

End writing.
Section variables.
Implicit Types (w : world) (T dirname : path) (vars : list Var).








End variables.



Section filled_directories.
Implicit Types (w : world) (D T q : path) (items : list (string * string)).

Lemma ensure_made D sub w :
  is_dir (files w) D = true →
  node_at (files w) (D ++ [sub]) = None ∨ is_dir (files w) (D ++ [sub]) = true →
  budget w = None →
  ensure (D ++ [sub]) w = (Ok (D ++ [sub]), made (D ++ [sub]) w).
Proof.
  intros HD HT Hb. unfold made. destruct (is_dir (files w) (D ++ [sub])) eqn:E.
  - by apply ensure_present.
  - destruct HT as [HT|HT]; [|done]. by apply ensure_fresh.
Qed.

Lemma lookup_made T w q : q ≠ T → files (made T w) !! q = files w !! q.
Proof.
  intros Hq. unfold made. destruct (is_dir (files w) T); [done|].
  simpl. by rewrite lookup_insert_ne.
Qed.

Lemma is_dir_made_self D sub w : is_dir (files (made (D ++ [sub]) w)) (D ++ [sub]) = true.
Proof.
  unfold made. destruct (is_dir (files w) (D ++ [sub])) eqn:E; [done|]. apply is_dir_mkdir.
Qed.

Lemma is_dir_made T w q : q ≠ T → is_dir (files (made T w)) q = is_dir (files w) q.
Proof.
  intros Hq. unfold is_dir. destruct q as [|a q]; [done|]. simpl. by rewrite lookup_made.
Qed.

Lemma budget_made T w : budget w = None → budget (made T w) = None.
Proof. intros H. unfold made. destruct (is_dir (files w) T); [done|]. by apply budget_do. Qed.

Lemma environ_made T w : environ (made T w) = environ w.
Proof. unfold made. by destruct (is_dir (files w) T). Qed.

Lemma scope_made T w : scope (made T w) = scope w.
Proof. unfold made. by destruct (is_dir (files w) T). Qed.

Lemma child_ne_self T (n : string) : T ++ [n] ≠ T.
Proof. intros E. apply (f_equal length) in E. rewrite length_app in E. simpl in E. lia. Qed.

(** Filling a directory whose parent exists and in which no entry is a
    directory. *)
Lemma fill_explicit D sub items w :
  is_dir (files w) D = true →
  node_at (files w) (D ++ [sub]) = None ∨ is_dir (files w) (D ++ [sub]) = true →
  (∀ n, is_dir (files w) ((D ++ [sub]) ++ [n]) = false) →
  budget w = None →
  fill D sub items w = (Ok tt, filled (D ++ [sub]) items w).
Proof.
  intros HD HT Hch Hb. unfold fill, filled. set (T := D ++ [sub]) in *.
  assert (∀ n, is_dir (files (made T w)) (T ++ [n]) = false) as Hch'.
  { intros n. rewrite is_dir_made; [done|apply child_ne_self]. }
  rewrite bind_eq. unfold T at 1. rewrite ensure_made by done. fold T.
  rewrite bind_eq, write_each_explicit;
    [|apply is_dir_made_self|done|by apply budget_made].
  rewrite write_success_eq, environ_do_all, environ_made.
  apply append_file_run; [|by apply budget_do_all, budget_made].
  split.
  - by rewrite is_dir_writes.
  - rewrite parent_app, is_dir_writes by done. apply is_dir_made_self.
Qed.

Lemma lookup_filled_item T items w it :
  functional items → it ∈ items → it.1 ≠ SUCCESS_MARK_FILENAME →
  files (filled T items w) !! (T ++ [it.1]) = Some (File it.2).
Proof.
  intros Hf Hit Hne. unfold filled.
  change (files (do ?c ?w0)) with (apply_syscall c (files w0)). simpl.
  rewrite lookup_insert_ne by (intros E%app_inv_head; by injection E).
  by apply lookup_writes.
Qed.

Lemma lookup_filled_other T items w q :
  q ≠ T → (∀ n, q ≠ T ++ [n]) → files (filled T items w) !! q = files w !! q.
Proof.
  intros H1 H2. unfold filled.
  change (files (do ?c ?w0)) with (apply_syscall c (files w0)). simpl.
  rewrite lookup_insert_ne by (intros E; by apply (H2 SUCCESS_MARK_FILENAME)).
  rewrite lookup_writes_other by (intros it _; apply H2). by apply lookup_made.
Qed.

Lemma is_dir_filled D sub items w q :
  (∀ n, is_dir (files w) ((D ++ [sub]) ++ [n]) = false) →
  is_dir (files (filled (D ++ [sub]) items w)) q =
    is_dir (files w) q || bool_decide (q = D ++ [sub]).
Proof.
  intros Hch. set (T := D ++ [sub]) in *.
  assert (∀ n, is_dir (files (made T w)) (T ++ [n]) = false) as Hch'.
  { intros n. rewrite is_dir_made; [done|apply child_ne_self]. }
  assert (is_dir (files (do_all (writes T items) (made T w))) q =
          is_dir (files w) q || bool_decide (q = T)) as Hw.
  { rewrite is_dir_writes by done. case_bool_decide as E.
    - subst q. unfold T. rewrite is_dir_made_self. by rewrite orb_true_r.
    - rewrite is_dir_made by done. by rewrite orb_false_r. }
  unfold filled. change (files (do ?c ?w0)) with (apply_syscall c (files w0)).
  rewrite <- Hw. destruct (decide (T ++ [SUCCESS_MARK_FILENAME] = q)) as [<-|Hne].
  - rewrite is_dir_writes, Hch' by done. apply is_dir_false. simpl.
    rewrite node_at_app, lookup_insert_eq. done.
  - by apply is_dir_create_inv.
Qed.

Lemma budget_filled T items w : budget w = None → budget (filled T items w) = None.
Proof. intros H. unfold filled. by apply budget_do, budget_do_all, budget_made. Qed.

Lemma scope_filled T items w : scope (filled T items w) = scope w.
Proof. unfold filled. simpl. by rewrite scope_do_all, scope_made. Qed.

Lemma environ_filled T items w : environ (filled T items w) = environ w.
Proof. unfold filled. simpl. by rewrite environ_do_all, environ_made. Qed.

Lemma open_read_plain T name w :
  plain name = true → open_read T name w = read_file (T ++ [name]) w.
Proof.
  intros H. unfold open_read. rewrite joined_plain by done.
  apply plain_spec in H as (_ & _ & _ & _ & ->). done.
Qed.

Lemma read_each T items w (acc : list string) :
  plain_args items = true →
  (∀ it, it ∈ items → files w !! (T ++ [it.1]) = Some (File it.2)) →
  for_fold items.*1
    (λ ret_values arg,
       contents ← open_read T arg;
       ret (ret_values ++ [Py.strip contents])) acc w =
    (Ok (acc ++ (Py.strip <$> items.*2)), w).
Proof.
  revert acc. induction items as [|it items IH]; intros acc Hplain Hfiles.
  - simpl. by rewrite app_nil_r.
  - cbn [plain_args forallb] in Hplain. apply andb_true_iff in Hplain as [Hit Hplain].
    cbn [fmap list_fmap for_fold]. rewrite !bind_eq, open_read_plain by done.
    unfold read_file at 1.
    rewrite bind_eq. unfold gets at 1. cbn [fst snd].
    rewrite node_at_app, (Hfiles it) by left. cbn.
    rewrite IH; [by rewrite <- app_assoc|done|].
    intros it' ?; apply Hfiles; by right.
Qed.

Lemma NoDup_fst_functional items : NoDup items.*1 → functional items.
Proof.
  induction items as [|a items IH]; intros Hnd x y Hx Hy E; [by apply elem_of_nil in Hx|].
  rewrite fmap_cons in Hnd. apply NoDup_cons in Hnd as [Hna Hnd].
  apply elem_of_cons in Hx as [->|Hx]; apply elem_of_cons in Hy as [->|Hy].
  - done.
  - exfalso. apply Hna. rewrite E. apply list_elem_of_fmap. by exists y.
  - exfalso. apply Hna. rewrite <- E. apply list_elem_of_fmap. by exists x.
  - by apply IH.
Qed.

End filled_directories.

(** X10: when the directory of a serial exists, the directory of the trainer
    in it is missing or holds no directory, the names of the arguments are
    single components of a path, different from each other, and none is
    [_SUCCESS], [save_trainer_args] returns when the process is not stopped,
    and a [load_trainer_args] of the names of its arguments then returns
    their values in order, with the white space at both ends stripped off,
    and changes nothing. *)
Theorem trainer_args_round_trip root serial trainer_id items w :
  is_dir (files w) (serial_dir root serial) = true →
  node_at (files w) (serial_dir root serial ++ [trainer_folder trainer_id]) = None ∨
  is_dir (files w) (serial_dir root serial ++ [trainer_folder trainer_id]) = true →
  (∀ n, is_dir (files w)
          ((serial_dir root serial ++ [trainer_folder trainer_id]) ++ [n]) = false) →
  budget w = None →
  plain_args items = true → NoDup items.*1 → SUCCESS_MARK_FILENAME ∉ items.*1 →
  ∃ w1, save_trainer_args (serial_dir root serial) trainer_id (Some items) w = (Ok tt, w1) ∧
        load_trainer_args root serial trainer_id (Some items.*1) w1 =
          (Ok (Py.strip <$> items.*2), w1).
Proof.
  intros HD HT Hch Hb Hplain Hnd Hmark.
  set (D := serial_dir root serial) in *.
  set (T := D ++ [trainer_folder trainer_id]) in *.
  pose proof (NoDup_fst_functional items Hnd) as Hf.
  exists (filled T items w). split.
  - rewrite save_trainer_args_fill by done. by apply fill_explicit.
  - unfold load_trainer_args. rewrite bind_eq, get_serial_dir_ensure.
    fold (serial_dir root serial). fold D.
    rewrite ensure_present; [|unfold T; rewrite is_dir_filled, HD by done; done].
    rewrite bind_eq, get_trainer_dir_ensure. fold T.
    rewrite ensure_present;
      [|unfold T; rewrite is_dir_filled by done; rewrite bool_decide_eq_true_2 by done;
        apply orb_true_r].
    apply (read_each T items (filled T items w) []); [done|].
    intros it Hit. apply lookup_filled_item; [done|done|].
    intros E. apply Hmark. rewrite <- E. apply list_elem_of_fmap. by exists it.
Qed.

Lemma trainer_args_round_trip_padded :
  ∃ w1, save_trainer_args (serial_dir ckpt 0) 1
          (Some [("epoch_id", " 3"); ("step_id", "12 ")])
          (initial (serial_dirs_root [0]) plain_env) = (Ok tt, w1) ∧
        load_trainer_args ckpt 0 1 (Some ["epoch_id"; "step_id"]) w1 =
          (Ok ["3"; "12"], w1).
Proof.
  apply (trainer_args_round_trip ckpt 0 1 [("epoch_id", " 3"); ("step_id", "12 ")]
           (initial (serial_dirs_root [0]) plain_env)).
  - vm_compute; reflexivity.
  - left. vm_compute; reflexivity.
  - intros n. apply is_dir_false.
    rewrite node_at_app.
    rewrite (closed_absent (serial_dirs_root [0]) (serial_dir ckpt 0 ++ [trainer_folder 1]));
      [done|apply (serial_dirs_root_spec [0])|done|vm_compute; reflexivity|
       by apply prefix_app_r].
  - reflexivity.
  - reflexivity.
  - apply NoDup_cons. split; [|apply NoDup_singleton].
    intros H%list_elem_of_singleton. discriminate H.
  - intros H%list_elem_of_In. cbv in H. intuition discriminate.
Defined.

Section loading_what_is_missing.
Implicit Types (w : world) (root D : path).

(** Two directories made one in the other, on a file system where the outer
    one is missing. *)
Lemma ensure_two root (a b : string) w :
  is_dir (files w) root = true → closed (files w) →
  files w !! (root ++ [a]) = None → budget w = None →
  let w2 := do (Mkdir ((root ++ [a]) ++ [b])) (do (Mkdir (root ++ [a])) w) in
  ensure (root ++ [a]) w = (Ok (root ++ [a]), do (Mkdir (root ++ [a])) w) ∧
  ensure ((root ++ [a]) ++ [b]) (do (Mkdir (root ++ [a])) w) = (Ok ((root ++ [a]) ++ [b]), w2) ∧
  budget w2 = None ∧
  ∀ n, node_at (files w2) (((root ++ [a]) ++ [b]) ++ [n]) = None.
Proof.
  intros Hroot Hc Habs Hb. cbn zeta.
  assert (root ++ [a] ≠ []) as Hne by (by destruct root).
  assert (∀ q, (root ++ [a]) `prefix_of` q → files w !! q = None) as Hunder.
  { intros q. by apply closed_absent. }
  split; [|split; [|split]].
  - apply ensure_fresh; [by rewrite node_at_app|done|done].
  - apply ensure_fresh; [| |by apply budget_do].
    + rewrite node_at_app. simpl. rewrite lookup_insert_ne by (symmetry; apply child_ne_self).
      apply Hunder. by apply prefix_app_r.
    + change (files (do ?c w)) with (apply_syscall c (files w)). apply is_dir_mkdir.
  - by apply budget_do, budget_do.
  - intros n. rewrite node_at_app. simpl.
    rewrite lookup_insert_ne by (symmetry; apply child_ne_self).
    rewrite lookup_insert_ne.
    + apply Hunder. by apply prefix_app_r, prefix_app_r.
    + intros E. apply (f_equal length) in E. rewrite !length_app in E. simpl in E. lia.
Qed.

Lemma read_file_missing p w :
  node_at (files w) p = None → read_file p w = (Raise IOError, w).
Proof. intros H. unfold read_file, gets. rewrite bind_eq. cbn beta iota. by rewrite H. Qed.


End loading_what_is_missing.

(** X11: [load_trainer_args] is not read-only.  For a serial that has no
    directory under an existing root it makes the directory of the serial
    and the directory of the trainer in it when the process is not stopped,
    and then raises [IOError] at the first argument when its name is a
    single component of a path, or returns the empty list when no argument
    is asked for. *)
Theorem load_trainer_args_missing root serial trainer_id (args : list string) w :
  is_dir (files w) root = true → closed (files w) →
  files w !! serial_dir root serial = None → budget w = None →
  (∀ arg, head args = Some arg → plain arg = true) →
  load_trainer_args root serial trainer_id (Some args) w =
    (match args with [] => Ok [] | _ => Raise IOError end,
     do (Mkdir (serial_dir root serial ++ [trainer_folder trainer_id]))
        (do (Mkdir (serial_dir root serial)) w)).
Proof.
  intros Hroot Hc Habs Hb Hplain.
  destruct (ensure_two root (serial_folder serial) (trainer_folder trainer_id) w
              Hroot Hc Habs Hb) as (E1 & E2 & Hb2 & Hnone).
  unfold load_trainer_args.
  rewrite bind_eq, get_serial_dir_ensure, E1, bind_eq, get_trainer_dir_ensure, E2.
  destruct args as [|arg args]; [done|].
  cbn [for_fold]. rewrite bind_eq, bind_eq, open_read_plain by (by apply Hplain).
  by rewrite read_file_missing.
Qed.

Lemma load_trainer_args_missing_seven :
  load_trainer_args ckpt 7 0 (Some ["epoch_id"%string]) (initial empty_root plain_env) =
    (Raise IOError,
     do (Mkdir (serial_dir ckpt 7 ++ [trainer_folder 0]))
        (do (Mkdir (serial_dir ckpt 7)) (initial empty_root plain_env))).
Proof.
  apply (load_trainer_args_missing ckpt 7 0 ["epoch_id"%string]
           (initial empty_root plain_env)).
  - reflexivity.
  - apply (settled_closed _ _ _ _ empty_root_settled).
  - vm_compute; reflexivity.
  - reflexivity.
  - by intros arg [= <-].
Defined.

(** Names that are not single components lead elsewhere: on the root with
    the complete serial 0, asked for serial 7, [load_trainer_args] makes the
    directories of serial 7 and then reads a file of serial 0, and the model
    file named from the root; [..] alone names a directory. *)
Lemma load_trainer_args_elsewhere :
  (load_trainer_args ckpt 7 0 (Some ["../../checkpoint_0/trainer_0/step_id"%string])
     saved_once).1 = Ok ["12"%string] ∧
  (load_trainer_args ckpt 7 0 (Some ["/ckpt/checkpoint_0/__model__/w"%string])
     saved_once).1 = Ok ["tensor"%string] ∧
  (load_trainer_args ckpt 7 0 (Some [".."%string]) saved_once).1 = Raise IOError ∧
  (load_trainer_args ckpt 7 0 (Some ["step_id"%string]) saved_once).1 = Raise IOError.
Proof. repeat split; vm_compute; reflexivity. Qed.

(** [save_trainer_args] with such names: a missing directory on the way and
    a name of a directory raise [IOError], a NUL character [TypeError], and
    a name that leads out of the root is written there. *)
Lemma save_trainer_args_elsewhere :
  (save_trainer_args (serial_dir ckpt 0) 0 (Some [("a/b", "1")]) saved_once).1 =
    Raise IOError ∧
  (save_trainer_args (serial_dir ckpt 0) 0 (Some [(EmptyString, "1")]) saved_once).1 =
    Raise IOError ∧
  (save_trainer_args (serial_dir ckpt 0) 0 (Some [("x/", "1")]) saved_once).1 =
    Raise IOError ∧
  (save_trainer_args (serial_dir ckpt 0) 0 (Some [(nul, "1")]) saved_once).1 =
    Raise TypeError ∧
  trace (save_trainer_args (serial_dir ckpt 0) 0 (Some [("../../../outside", "1")])
           (initial (files saved_once) plain_env)).2 =
    [Write ["outside"%string] "1";
     Append (serial_dir ckpt 0 ++ [trainer_folder 0; SUCCESS_MARK_FILENAME])
       (ctime plain_env)].
Proof. repeat split; vm_compute; reflexivity. Qed.



Section again.
Implicit Types (w : world) (d : path).

Lemma ensure_twice d w : (ensure d;; ensure d) w = ensure d w.
Proof.
  rewrite bind_eq.
  assert (wp (ensure d) (λ r w', True ∧
            match r with
            | Ok x => x = d ∧ is_dir (files w') d = true
            | Raise e => env_error e
            end) w) as H by (by apply (ensure_keeps (λ _, True) (λ _, True))).
  unfold wp in H. destruct (ensure d w) as [[x|e] w1]; [|done].
  destruct H as [_ [-> Hd]]. by apply ensure_present.
Qed.

End again.

(** X13: the three functions that return a directory of a checkpoint make it
    when it is missing, so calling one a second time does nothing more: the
    call made twice is the call made once, whether it returns or raises. *)
Theorem get_dir_twice dirname serial trainer_id w :
  (_get_serial_dir dirname serial;; _get_serial_dir dirname serial) w =
    _get_serial_dir dirname serial w ∧
  (_get_model_dir dirname;; _get_model_dir dirname) w = _get_model_dir dirname w ∧
  (_get_trainer_dir dirname trainer_id;; _get_trainer_dir dirname trainer_id) w =
    _get_trainer_dir dirname trainer_id w.
Proof.
  rewrite get_serial_dir_ensure, get_model_dir_ensure, get_trainer_dir_ensure.
  split; [|split]; apply ensure_twice.
Qed.

(** X9: a variable that the checkpoint functions save is one that
    [save_persistables] saves, so the variables of a program that go into a
    checkpoint are among its persistable ones, in the same order; a
    persistable variable is left out of the checkpoint only for the type
    [RAW] or for one of the three substrings in its name. *)
Theorem checkpoint_vars_persistable (prog : Program) :
  (∀ var, _is_checkpoint_var var = true → is_persistable var = true) ∧
  List.filter _is_checkpoint_var prog `sublist_of` List.filter is_persistable prog ∧
  (∀ var, is_persistable var = true → _is_checkpoint_var var = false →
          type var = RAW ∨ Py.contains "@GRAD" (name var) = true ∨
          Py.contains ".trainer_" (name var) = true ∨
          Py.contains ".block" (name var) = true).
Proof.
  assert (∀ var, _is_checkpoint_var var = true → is_persistable var = true) as H.
  { intros [n t p]. unfold _is_checkpoint_var, is_persistable. simpl.
    destruct t; simpl; try done;
      destruct (Py.contains "@GRAD" n), (Py.contains ".trainer_" n),
        (Py.contains ".block" n); done. }
  split; [done|]. split.
  - induction prog as [|v prog IH]; simpl; [done|].
    destruct (_is_checkpoint_var v) eqn:E.
    + rewrite (H v E). by apply sublist_skip.
    + destruct (is_persistable v); [by apply sublist_cons|done].
  - intros [n t p]. unfold _is_checkpoint_var, is_persistable. simpl.
    destruct t; simpl; try done; try (by left);
      destruct (Py.contains "@GRAD" n), (Py.contains ".trainer_" n),
        (Py.contains ".block" n); intros; subst; auto; discriminate.
Qed.

Lemma checkpoint_vars_persistable_grad :
  is_persistable {| name := "w@GRAD"; type := LOD_TENSOR; persistable := true |} = true ∧
  (type {| name := "w@GRAD"; type := LOD_TENSOR; persistable := true |} = RAW ∨
   Py.contains "@GRAD" "w@GRAD" = true ∨
   Py.contains ".trainer_" "w@GRAD" = true ∨
   Py.contains ".block" "w@GRAD" = true).
Proof.
  split; [reflexivity|].
  destruct (checkpoint_vars_persistable []) as (_ & _ & H).
  apply (H {| name := "w@GRAD"; type := LOD_TENSOR; persistable := true |});
    reflexivity.
Defined.

(* ===================================================================== *)
(** * What a save has written *)
(* ===================================================================== *)

Section explicit_save.
Implicit Types (w : world) (root D T q : path) (S : gset Z).

Lemma prefix_same_length {A} (p1 p2 q : list A) :
  p1 `prefix_of` q → p2 `prefix_of` q → length p1 = length p2 → p1 = p2.
Proof.
  intros [k1 ->] [k2 E] Hl.
  apply (f_equal (take (length p1))) in E.
  rewrite take_app_length in E. rewrite Hl, take_app_length in E. done.
Qed.

(** The retention pass leaves the directories of the serials it keeps as
    they are. *)
Lemma lookup_kept root k S x w q :
  x ∉ retired k S → serial_dir root x `prefix_of` q →
  files (do_all (Rmtree <$> (serial_dir root <$> retired k S)) w) !! q = files w !! q.
Proof.
  intros Hx Hq. rewrite lookup_rmtrees, decide_False; [done|].
  intros (y & Hy & Hp)%exists_retired_prefix.
  assert (serial_dir root y = serial_dir root x) as E%serial_dir_inj; [|by subst].
  apply (prefix_same_length _ _ q); [done..|]. unfold serial_dir.
  by rewrite !length_app.
Qed.

Lemma fresh_serial_dir (fs : gmap path node) root S v q :
  settled fs root S v → serial_dir root (v + 1) `prefix_of` q → fs !! q = None.
Proof.
  intros Hs Hq. apply (closed_absent fs (serial_dir root (v + 1)));
    [apply (settled_closed _ _ _ _ Hs)|unfold serial_dir; by destruct root| |done].
  by apply settled_fresh with S.
Qed.

Lemma save_checkpoint_explicit root S v trainer_id items main_program k w :
  settled (files w) root S v → budget w = None → plain_args items = true →
  (trainer_id = 0 →
   ∀ x, x ∈ saved_vars (program_of main_program w) → is_Some (scope w !! name x)) →
  save_checkpoint (Some root) trainer_id (Some items) main_program k w =
    (Ok tt, do_all (Rmtree <$> (serial_dir root <$> retired k (S ∪ {[v + 1]})))
              (saved root (v + 1) trainer_id items
                 (saved_items (scope w) (program_of main_program w)) w)) ∧
  serial_root (files (saved root (v + 1) trainer_id items
                        (saved_items (scope w) (program_of main_program w)) w))
    root (S ∪ {[v + 1]}) ∧
  (∀ q, ¬ serial_dir root (v + 1) `prefix_of` q →
        files (saved root (v + 1) trainer_id items
                 (saved_items (scope w) (program_of main_program w)) w) !! q =
        files w !! q).
Proof.
  intros Hs Hb Hplain Hvars.
  pose proof (settled_root _ _ _ _ Hs) as Hroot.
  set (D := serial_dir root (v + 1)).
  set (T := D ++ [trainer_folder trainer_id]).
  set (M := D ++ [MODEL_DIR]).
  set (mitems := saved_items (scope w) (program_of main_program w)).
  set (wa := do (Mkdir D) w).
  set (wb := filled T items wa).
  assert (D ≠ []) as HDne by (unfold D, serial_dir; by destruct root).
  assert (∀ q, D `prefix_of` q → q ≠ D → files wa !! q = None) as Hunder.
  { intros q Hq Hne. simpl. rewrite lookup_insert_ne by done.
    by apply (fresh_serial_dir _ root S v). }
  assert (is_dir (files wa) D = true) as HDa by apply is_dir_mkdir.
  assert (∀ sub (n : string), is_dir (files wa) ((D ++ [sub]) ++ [n]) = false) as Hcha.
  { intros sub n. apply is_dir_false. rewrite node_at_app, Hunder; [done| |].
    - by apply prefix_app_r, prefix_app_r.
    - intros E. apply (f_equal length) in E. rewrite !length_app in E. simpl in E. lia. }
  assert (∀ sub, node_at (files wa) (D ++ [sub]) = None) as Hsuba.
  { intros sub. rewrite node_at_app. apply Hunder; [by apply prefix_app_r|].
    apply child_ne_self. }
  assert (fill D (trainer_folder trainer_id) items wa = (Ok tt, wb)) as Hfillb.
  { apply fill_explicit; [done|by left|apply Hcha|by apply budget_do]. }
  assert (is_dir (files wb) D = true) as HDb.
  { unfold wb, T. by rewrite is_dir_filled, HDa by apply Hcha. }
  assert (node_at (files wb) M = None) as HMb.
  { unfold M. rewrite node_at_app. unfold wb.
    rewrite lookup_filled_other.
    - rewrite <- (node_at_app (files wa)). apply Hsuba.
    - unfold T. intros E%app_inv_head. injection E as E.
      by apply (trainer_folder_ne_model trainer_id).
    - intros n E. apply (f_equal length) in E. unfold T in E.
      rewrite !length_app in E. simpl in E. lia. }
  assert (∀ n, is_dir (files wb) (M ++ [n]) = false) as Hchb.
  { intros n. unfold wb, T. rewrite is_dir_filled by apply Hcha.
    unfold M. rewrite Hcha. apply bool_decide_eq_false_2.
    intros E. apply (f_equal length) in E. rewrite !length_app in E. simpl in E. lia. }
  set (wc := saved root (v + 1) trainer_id items mitems w).
  assert ((if bool_decide (trainer_id = 0)
           then save_persist_vars_without_grad D main_program
           else ret tt) wb = (Ok tt, wc) ∧
          budget wc = None ∧
          (∀ q, ¬ D `prefix_of` q → files wc !! q = files w !! q) ∧
          files wc !! D = Some Dir) as (Hfillc & Hbc & Hout & HDc).
  { assert (∀ q, ¬ D `prefix_of` q → files wb !! q = files w !! q) as Houtb.
    { intros q Hq. unfold wb. rewrite lookup_filled_other.
      - simpl. apply lookup_insert_ne. by intros <-.
      - intros ->. apply Hq. by apply prefix_app_r.
      - intros n ->. apply Hq. by apply prefix_app_r, prefix_app_r. }
    assert (files wb !! D = Some Dir) as HDb'.
    { apply is_dir_true in HDb. by rewrite node_at_ne in HDb. }
    assert (scope wb = scope w) as Hscb by (unfold wb; by rewrite scope_filled).
    assert (environ wb = environ w) as Henvb by (unfold wb; by rewrite environ_filled).
    unfold wc, saved. fold D T wa wb M. case_bool_decide as Hid.
    - split; [|split; [by apply budget_filled, budget_filled, budget_do|split]].
      + rewrite save_persist_fill.
        * rewrite Hscb, (program_of_environ _ _ _ Henvb). fold mitems.
          apply fill_explicit; [done|by left|done|].
          by apply budget_filled, budget_do.
        * rewrite Hscb, (program_of_environ _ _ _ Henvb). by apply Hvars.
        * done.
      + intros q Hq. rewrite lookup_filled_other; [by apply Houtb| |].
        * intros ->. apply Hq. by apply prefix_app_r.
        * intros n ->. apply Hq. by apply prefix_app_r, prefix_app_r.
      + rewrite lookup_filled_other; [done|symmetry; apply child_ne_self|].
        intros n E. apply (f_equal length) in E. unfold M in E.
        rewrite !length_app in E. simpl in E. lia.
    - split; [done|]. split; [by apply budget_filled, budget_do|]. done. }
  assert (serial_root (files wc) root (S ∪ {[v + 1]})) as Hrootc.
  { by apply (serial_root_add (files w)). }
  split; [|split; [done|done]].
  unfold save_checkpoint. rewrite bind_eq. unfold os.isdir at 1, gets at 1. cbn [fst snd].
  rewrite (root_is_dir _ _ _ Hroot). cbn [negb]. rewrite bind_eq. unfold ret at 1.
  destruct (latest_serial_root w root S Hroot) as (v' & Hlatest & Hv').
  assert (v' = v) as ->.
  { eapply is_latest_unique; [done|]. apply (settled_latest _ _ _ _ Hs). }
  rewrite bind_eq, Hlatest. rewrite bind_eq, get_serial_dir_ensure. fold (serial_dir root (v + 1)).
  fold D. unfold D at 1, serial_dir at 1.
  rewrite ensure_fresh;
    [|rewrite node_at_app; by apply (settled_fresh _ _ S)|apply (root_is_dir _ _ _ Hroot)|done].
  fold (serial_dir root (v + 1)). fold D wa.
  rewrite bind_eq, save_trainer_args_fill, Hfillb, bind_eq, Hfillc by done.
  by apply (scroll_delete_run wc root (S ∪ {[v + 1]}) k).
Qed.

End explicit_save.
Section round_trip.
Implicit Types (w : world) (root D T q : path) (S : gset Z).

Lemma is_dir_kept root k S x w q :
  x ∉ retired k S → serial_dir root x `prefix_of` q →
  is_dir (files (do_all (Rmtree <$> (serial_dir root <$> retired k S)) w)) q =
    is_dir (files w) q.
Proof.
  intros Hx Hq. unfold is_dir. destruct q as [|a q]; [done|]. simpl.
  by rewrite (lookup_kept root k S x).
Qed.


End round_trip.


Section other_trainers.
Implicit Types (w : world) (root D T q : path) (S : gset Z) (k v : Z).

Lemma above_latest S v x :
  (∀ y, y ∈ S → y ≤ v) → x ∈ S →
  size (filter (λ y, x < y) (S ∪ {[v + 1]})) ≠ 0%nat.
Proof.
  intros Htop Hx Hsz. apply size_empty_iff in Hsz.
  assert (v + 1 ∈ filter (λ y, x < y) (S ∪ {[v + 1]})) as H; [|set_solver].
  apply elem_of_filter. split; [|set_solver]. pose proof (Htop x Hx). lia.
Qed.

Lemma above_latest_one S v :
  (∀ y, y ∈ S → y ≤ v) →
  size (filter (λ y, v < y) (S ∪ {[v + 1]})) = 1%nat.
Proof.
  intros Htop. assert (filter (λ y, v < y) (S ∪ {[v + 1]}) = {[v + 1]}) as ->.
  { apply set_eq. intros y. rewrite elem_of_filter, elem_of_union, !elem_of_singleton.
    split; [|intros ->; split; [lia|by right]].
    intros [Hy [HS| ->]]; [|done]. pose proof (Htop y HS). lia. }
  apply size_singleton.
Qed.

(** The model directory of a serial that only a trainer other than the
    chief has saved does not exist. *)
Lemma saved_not_complete root S v trainer_id items mitems w :
  settled (files w) root S v → trainer_id ≠ 0 →
  ¬ complete (files (saved root (v + 1) trainer_id items mitems w)) root (v + 1).
Proof.
  intros Hs Hid. unfold saved. rewrite bool_decide_eq_false_2 by done.
  unfold complete. intros [c Hc]%is_file_true.
  rewrite node_at_ne in Hc by (unfold success_path; by destruct root).
  rewrite success_path_eq in Hc. rewrite lookup_filled_other in Hc.
  - simpl in Hc. rewrite lookup_insert_ne in Hc.
    + rewrite (fresh_serial_dir _ root S v) in Hc; [done|done|by apply prefix_app_r].
    + intros E. apply (f_equal length) in E. rewrite !length_app in E. simpl in E. lia.
  - intros E. apply (f_equal length) in E. rewrite !length_app in E. simpl in E. lia.
  - intros n E. rewrite <- !app_assoc in E. apply app_inv_head in E.
    injection E as E _. by apply (trainer_folder_ne_model trainer_id).
Qed.

End other_trainers.

(** X15: on a root that holds serial directories only, none of them above
    the latest complete serial [v], a save by a trainer other than the chief,
    with trainer arguments whose names are single components of a path,
    returns when the process is not stopped and leaves the directory of
    serial [v + 1] without a model success mark, so it never moves the
    latest serial forward.  When it keeps two checkpoints or more the latest
    serial is still [v]; when it keeps one or none, its retention pass
    removes the directory of every earlier serial, and the latest serial is
    then -1. *)
Theorem save_checkpoint_other_trainer root S v trainer_id items main_program k w :
  settled (files w) root S v → budget w = None → plain_args items = true →
  trainer_id ≠ 0 → 0 ≤ k →
  ∃ w1, save_checkpoint (Some root) trainer_id (Some items) main_program k w = (Ok tt, w1) ∧
        ¬ complete (files w1) root (v + 1) ∧
        get_latest_checkpoint_serial (Some root) w1 =
          (Ok (if decide (2 ≤ k) then v else -1), w1) ∧
        (1 ≤ k → is_dir (files w1) (serial_dir root (v + 1)) = true) ∧
        (k ≤ 1 → ∀ x q, x ∈ S → serial_dir root x `prefix_of` q → files w1 !! q = None).
Proof.
  intros Hs Hb Hplain Hid Hk.
  destruct (save_checkpoint_explicit root S v trainer_id items main_program k w Hs Hb Hplain)
    as (Hrun & Hrootc & Hout); [done|].
  set (wc := saved root (v + 1) trainer_id items
               (saved_items (scope w) (program_of main_program w)) w) in *.
  set (S' := S ∪ {[v + 1]}) in *.
  set (w1 := do_all (Rmtree <$> (serial_dir root <$> retired k S')) wc) in *.
  pose proof (settled_latest _ _ _ _ Hs) as (Hv1 & Hv2 & Hv3).
  pose proof (settled_top _ _ _ _ Hs) as Htop.
  assert (¬ complete (files wc) root (v + 1)) as Hnc by (by apply (saved_not_complete _ S)).
  assert (∀ y, y ≠ v + 1 → complete (files wc) root y ↔ complete (files w) root y) as Hcw.
  { intros y Hy. by apply (complete_outside _ _ _ (v + 1)). }
  assert (∀ y, y ∈ retained k S' → complete (files w1) root y ↔ complete (files wc) root y)
    as Hc1.
  { intros y Hy. apply complete_retire. by apply retained_not_retired. }
  assert (serial_root (files w1) root (retained k S')) as Hroot1.
  { apply (serial_root_retire _ _ _ _ Hrootc). }
  assert (¬ complete (files w1) root (v + 1)) as Hnc1.
  { destruct (decide (v + 1 ∈ retained k S')) as [Hin|Hout1]; [by rewrite Hc1|].
    unfold complete. intros [c Hc]%is_file_true.
    rewrite node_at_ne in Hc by (unfold success_path; by destruct root).
    unfold w1 in Hc. rewrite lookup_rmtrees, decide_True in Hc; [done|].
    apply exists_retired_prefix. exists (v + 1).
    split; [apply retired_not_retained; [set_solver|done]|].
    rewrite success_path_eq. by apply prefix_app_r. }
  exists w1. split; [done|]. split; [done|]. split; [|split].
  - destruct (latest_serial_root w1 root _ Hroot1) as (v' & Hlat & Hv').
    rewrite Hlat. do 2 f_equal. eapply is_latest_unique; [done|].
    case_decide as Hk2.
    + split; [|split; [done|]].
      * destruct Hv1 as [->|[HvS Hvc]]; [by left|]. right.
        assert (v ∈ retained k S') as Hin.
        { apply elem_of_retained; [done|]. split; [set_solver|].
          unfold S'. rewrite (above_latest_one S v Htop). lia. }
        split; [done|]. rewrite (Hc1 v Hin). apply Hcw; [lia|done].
      * intros y Hy Hcy. rewrite (Hc1 y Hy) in Hcy.
        apply (retained_subseteq k S') in Hy.
        destruct (decide (y = v + 1)) as [->|Hne]; [done|].
        apply Hv3; [set_solver|by apply Hcw].
    + split; [by left|]. split; [done|].
      intros y Hy Hcy. exfalso.
      assert (y = v + 1) as ->; [|done].
      apply elem_of_retained in Hy as [Hy Hsz]; [|done].
      destruct (decide (y = v + 1)) as [|Hne]; [done|].
      assert (y ∈ S) as HyS by set_solver.
      pose proof (above_latest S v y Htop HyS). unfold S' in Hsz. lia.
  - intros Hk1. unfold w1. rewrite (is_dir_kept root k S' (v + 1)); [|..|done].
    + apply is_dir_true.
      rewrite node_at_ne by (unfold serial_dir; by destruct root).
      apply (root_serial_dirs _ _ _ Hrootc). set_solver.
    + apply retained_not_retired, retained_top; [done|set_solver|].
      intros y [Hy|Hy%elem_of_singleton]%elem_of_union; [|lia].
      pose proof (Htop y Hy). lia.
  - intros Hk1 x q Hx Hq. unfold w1. rewrite lookup_rmtrees, decide_True; [done|].
    apply exists_retired_prefix. exists x. split; [|done].
    apply retired_not_retained; [set_solver|].
    intros [_ Hsz]%elem_of_retained; [|done].
    pose proof (above_latest S v x Htop Hx). unfold S' in Hsz. lia.
Qed.

Lemma save_checkpoint_other_trainer_one :
  ∃ w1, save_checkpoint (Some ckpt) 1 (Some [("step_id", "3")]) None 1 first_saved =
          (Ok tt, w1) ∧
        ¬ complete (files w1) ckpt (-1 + 1 + 1) ∧
        get_latest_checkpoint_serial (Some ckpt) w1 =
          (Ok (if decide (2 ≤ 1) then -1 + 1 else -1), w1) ∧
        (1 ≤ 1 → is_dir (files w1) (serial_dir ckpt (-1 + 1 + 1)) = true) ∧
        (1 ≤ 1 → ∀ x q, x ∈ retained 3 (∅ ∪ {[-1 + 1]}) →
                        serial_dir ckpt x `prefix_of` q → files w1 !! q = None).
Proof.
  destruct (latest_after_save tensor_world ckpt ∅ (-1) [] (Some one_var) 3
              empty_root_settled eq_refl eq_refl ltac:(lia) one_var_valued)
    as (w' & Hrun & _ & Hs' & Hb' & _).
  assert (w' = first_saved) as -> by (unfold first_saved; by rewrite Hrun).
  apply (save_checkpoint_other_trainer ckpt _ (-1 + 1) 1 [("step_id", "3")] None 1
           first_saved Hs' Hb').
  - reflexivity.
  - lia.
  - lia.
Defined.

Section frames.
Implicit Types (w : world) (root D T q : path) (S : gset Z) (k v : Z).


Lemma elem_of_retired_negative k S x :
  k < 0 →
  x ∈ retired k S ↔
  x ∈ S ∧ Z.of_nat (size S) + k ≤ Z.of_nat (size (filter (λ y, x < y) S)).
Proof.
  intros Hk. unfold retired, Py.slice_from.
  rewrite decide_False by lia. rewrite decide_False by lia.
  rewrite elem_of_drop_sorted.
  - rewrite (Permutation_length (merge_sort_Permutation _ _)).
    change (length (elements S)) with (size S).
    rewrite merge_sort_Permutation, elem_of_elements, size_filter_elements.
    split; intros [? ?]; (split; [done|lia]).
  - apply StronglySorted_merge_sort; apply _.
  - rewrite merge_sort_Permutation. apply NoDup_elements.
Qed.

End frames.



(** X17: with a negative limit the retention pass on a root of serial
    directories does not fail: it removes the directories of the [-k]
    lowest serials, all of them when there are no more than that, and keeps
    the others, which are the serials with fewer than [size S + k] serials
    above them. *)
Theorem scroll_delete_negative root S k w :
  serial_root (files w) root S → budget w = None → k < 0 →
  ∃ w', _scroll_delete root k w = (Ok tt, w') ∧
        serial_root (files w') root (retained k S) ∧
        (∀ x, x ∈ retained k S ↔
              x ∈ S ∧ Z.of_nat (size (filter (λ y, x < y) S)) < Z.of_nat (size S) + k) ∧
        (Z.of_nat (size S) ≤ - k → retained k S = ∅).
Proof.
  intros Hroot Hb Hk. eexists. split; [by apply (scroll_delete_run w root S k)|].
  split; [apply (serial_root_retire _ _ _ _ Hroot)|].
  assert (∀ x, x ∈ retained k S ↔
               x ∈ S ∧ Z.of_nat (size (filter (λ y, x < y) S)) < Z.of_nat (size S) + k) as H.
  { intros x. unfold retained.
    rewrite elem_of_difference, elem_of_list_to_set, elem_of_retired_negative by done.
    split; [intros [? H]; split; [done|]|intros [? ?]; split; [done|intros [_ ?]; lia]].
    destruct (decide (Z.of_nat (size (filter (λ y : Z, x < y) S)) < Z.of_nat (size S) + k));
      [done|]. exfalso. apply H. split; [done|lia]. }
  split; [done|].
  intros Hsz. apply set_eq. intros x. rewrite H.
  split; [lia|by intros ?%elem_of_empty].
Qed.

Lemma scroll_delete_negative_one :
  ∃ w', _scroll_delete ckpt (-1) (initial (serial_dirs_root [1; 5; 2]) plain_env) =
          (Ok tt, w') ∧
        serial_root (files w') ckpt (retained (-1) (list_to_set [1; 5; 2])) ∧
        (∀ x, x ∈ retained (-1) (list_to_set [1; 5; 2] : gset Z) ↔
              x ∈ (list_to_set [1; 5; 2] : gset Z) ∧
              Z.of_nat (size (filter (λ y, x < y) (list_to_set [1; 5; 2] : gset Z))) <
                Z.of_nat (size (list_to_set [1; 5; 2] : gset Z)) + -1) ∧
        (Z.of_nat (size (list_to_set [1; 5; 2] : gset Z)) ≤ - -1 →
         retained (-1) (list_to_set [1; 5; 2] : gset Z) = ∅).
Proof.
  apply (scroll_delete_negative ckpt (list_to_set [1; 5; 2]) (-1)
           (initial (serial_dirs_root [1; 5; 2]) plain_env)).
  - apply (serial_dirs_root_spec [1; 5; 2]).
  - reflexivity.
  - lia.
Defined.

Section missing_root.
Implicit Types (w : world) (parent : path).


End missing_root.


Section resolution_anywhere.
Implicit Types (w : world) (root : path) (φ : syscall → Prop) (I : world → Prop).

Lemma has_success_sound φ I root cur_dir w :
  stable φ I → (∀ x, φ (Mkdir (serial_dir root x))) →
  is_dir (files w) root = true → I w →
  wp (has_success root cur_dir)
     (λ r w', I w' ∧ match r with
                     | Ok (Some s) =>
                         s = -1 ∨ is_file (files w') (success_path root s) = true
                     | _ => True
                     end) w.
Proof.
  intros HI Hφ Hroot Hw. unfold has_success. apply wp_bind. unfold wp at 1.
  rewrite get_dir_serial_eq.
  destruct (dir_serial cur_dir) as [n|e] eqn:E; simpl; [|done].
  apply wp_bind, wp_gets.
  destruct (bool_decide (n = -1) || negb (is_dir (files w) (root ++ [cur_dir]))) eqn:E1.
  { apply wp_ret. split; [done|by left]. }
  apply wp_bind. rewrite get_serial_dir_ensure.
  eapply wp_mono; [by apply (ensure_child_keeps φ I); [|apply (Hφ n)|..]|].
  intros [d|e] w1 [H1 H2]; [|done]. destruct H2 as [-> H2].
  apply wp_bind, wp_gets.
  destruct (is_file (files w1) ((root ++ [serial_folder n]) ++ [MODEL_DIR; SUCCESS_MARK_FILENAME]))
    eqn:E2; apply wp_ret; [|done].
  split; [done|]. right. unfold success_path. by rewrite <- app_assoc in E2.
Qed.

Lemma is_file_only_dirs w w' (p : path) :
  only_dirs w w' → p ≠ [] → is_file (files w') p = is_file (files w) p.
Proof.
  intros H Hp. pose proof (only_dirs_files _ _ H p) as Hf.
  unfold is_file. rewrite !node_at_ne by done.
  destruct (files w' !! p) as [[|d1]|] eqn:E1.
  - destruct (files w !! p) as [[|d2]|] eqn:E2; [done| |done].
    discriminate (proj2 (Hf d2) eq_refl).
  - by rewrite (proj1 (Hf d1) eq_refl).
  - destruct (files w !! p) as [[|d2]|] eqn:E2; [done| |done].
    discriminate (proj2 (Hf d2) eq_refl).
Qed.

End resolution_anywhere.

(** X19: on any file system, with entries of any kind under the root, a
    resolution that returns gives -1 or a serial from 0 on whose model
    success mark is a file; and whether it returns or raises it has written,
    changed and removed no file: the system calls it makes are [mkdir]s. *)
Theorem latest_serial_sound root w r w' :
  get_latest_checkpoint_serial (Some root) w = (r, w') →
  only_dirs w w' ∧
  ∀ v, r = Ok v →
       v = -1 ∨ (0 ≤ v ∧ is_file (files w) (success_path root v) = true).
Proof.
  intros Hrun.
  assert (wp (get_latest_checkpoint_serial (Some root))
            (λ r w', only_dirs w w' ∧
                     ∀ v, r = Ok v →
                          v = -1 ∨ (0 ≤ v ∧ is_file (files w') (success_path root v) = true))
            w) as H.
  { unfold get_latest_checkpoint_serial. apply wp_bind, wp_gets.
    destruct (is_dir (files w) root) eqn:Hroot; simpl.
    2:{ apply wp_ret. split; [apply only_dirs_refl|]. intros v [= <-]. by left. }
    apply wp_bind. destruct (listdir_run root w Hroot) as (l & Hl & _).
    eapply wp_eq; [exact Hl|].
    set (φ' := λ c, ∃ x, c = Mkdir (serial_dir root x)).
    set (J := λ (cur : Z) w1,
           only_dirs w w1 ∧ is_dir (files w1) root = true ∧
           (cur = -1 ∨ (0 ≤ cur ∧ is_file (files w1) (success_path root cur) = true))).
    assert (∀ cur, stable φ' (J cur)) as HJ.
    { intros cur c w1 [x ->] Hleg (H1 & H2 & H3). split; [|split].
      - apply only_dirs_stable; [by eexists|done..].
      - by apply (is_dir_create (Mkdir (serial_dir root x))).
      - destruct H3 as [->|[H3 H4]]; [by left|right]. split; [done|].
        change (files (do ?c w1)) with (apply_syscall c (files w1)).
        rewrite is_file_create_other; [done|done|].
        simpl. intros E. apply (f_equal length) in E. unfold serial_dir, success_path in E.
        rewrite !length_app in E. simpl in E. lia. }
    eapply wp_mono.
    { apply (wp_for_fold (λ _ cur w1, J cur w1) (λ _ w1, only_dirs w w1)).
      - split; [apply only_dirs_refl|]. split; [done|by left].
      - intros done x rest cur w0 _ HJ0. apply wp_bind.
        pose proof HJ0 as (G & R & K).
        eapply wp_mono; [apply (has_success_sound φ' (J cur));
                         [apply HJ|by eexists|done|done]|].
        intros [s|e] w1 [(G1 & R1 & K1) H5]; [|done]. apply wp_ret.
        split; [done|]. split; [done|].
        destruct s as [s|]; simpl; [|done].
        case_bool_decide as Hlt; simpl; [|done].
        destruct H5 as [->|H5].
        + destruct K1 as [->|[? _]]; lia.
        + right. split; [|done]. destruct K1 as [->|[? _]]; lia. }
    intros [s|e] w1; [|by intros ?].
    intros (G & R & K). split; [done|]. by intros v [= <-]. }
  apply (wp_run _ _ _ H) in Hrun. destruct Hrun as [Ho Hv]. split; [done|].
  intros v Hr. destruct (Hv v Hr) as [->|[H0 Hf]]; [by left|right]. split; [done|].
  rewrite <- Hf. symmetry. apply is_file_only_dirs; [done|].
  unfold success_path. by destruct root.
Qed.

Lemma latest_serial_sound_first :
  only_dirs first_saved (get_latest_checkpoint_serial (Some ckpt) first_saved).2 ∧
  ∀ v, (get_latest_checkpoint_serial (Some ckpt) first_saved).1 = Ok v →
       v = -1 ∨ (0 ≤ v ∧ is_file (files first_saved) (success_path ckpt v) = true).
Proof.
  apply (latest_serial_sound ckpt first_saved
           (get_latest_checkpoint_serial (Some ckpt) first_saved).1
           (get_latest_checkpoint_serial (Some ckpt) first_saved).2).
  by destruct (get_latest_checkpoint_serial (Some ckpt) first_saved).
Defined.
Section after_cleaning.
Implicit Types (w : world) (root parent : path) (S : gset Z).


End after_cleaning.



